(** * lifecycle-loader: Loadable values, the delegation wrapper and LoadablePromise

    A shallow embedding of
      - [src/util/ProxyWrapper.ts]  (the delegation substrate),
      - the loader module           ([LoadError], [LoadablePromise]),
      - the [Loadable] interface with its two representations and its
        transition operations,
    together with the properties the specification states about them. *)

From Stdlib Require Import List String Ascii ZArith Bool Lia DecimalString.
Import ListNotations.
Open Scope string_scope.
Open Scope list_scope.

Set Implicit Arguments.

(* ================================================================== *)
(** * Completions: a call either returns or throws *)
(* ================================================================== *)

Inductive ErrorName := Error | TypeError | ReferenceError.

(** An [Error] instance: the constructor that made it and its message.  The
    [$msg] tag that formats messages is external; a message built from a
    template is recorded by the literal text of the template. *)
Record ErrorObject := mkError { errorName : ErrorName; message : string }.

Inductive Completion (A : Type) :=
| Normal (a : A)
| Throw (e : ErrorObject).

Arguments Normal {A} a.
Arguments Throw {A} e.

Definition bind {A B} (c : Completion A) (k : A -> Completion B) : Completion B :=
  match c with
  | Normal a => k a
  | Throw e => Throw e
  end.

Declare Scope completion_scope.
Delimit Scope completion_scope with completion.
Notation "x <- c ;; k" := (bind c (fun x => k))
  (at level 61, c at next level, right associativity) : completion_scope.
Open Scope completion_scope.

Definition throwTypeError {A} (template : string) : Completion A :=
  Throw (mkError TypeError template).

Definition returns {A} (c : Completion A) : bool :=
  match c with Normal _ => true | Throw _ => false end.

Definition throwsTypeError {A} (c : Completion A) : bool :=
  match c with
  | Throw (mkError TypeError _) => true
  | _ => false
  end.

(* ================================================================== *)
(** * JavaScript values and ordinary objects *)
(* ================================================================== *)

(** Property keys are strings or symbols; a symbol is identified by its
    description. *)
Inductive PropertyKey :=
| KString (s : string)
| KSymbol (description : string).

Definition key_eqb (a b : PropertyKey) : bool :=
  match a, b with
  | KString s, KString t => String.eqb s t
  | KSymbol s, KSymbol t => String.eqb s t
  | _, _ => false
  end.

(** The local calendar fields of a Date depend on the host time zone, so a
    Date carries them next to its time value. *)
Record DateFields := mkDate {
  timeValue : Z; fullYear : Z; month : Z; date : Z; hours : Z; minutes : Z
}.

Inductive DateAccessor := getTime | getFullYear | getMonth | getDate | getHours | getMinutes.

(** Function objects.  The conversion methods of the built-in prototypes are
    modelled; [Other] stands for a function whose body is outside the model
    (another built-in method, or a function of the program such as a
    Loadable constructor), identified by its name. *)
Inductive Fn :=
| String_toString | String_valueOf
| Number_toString | Number_valueOf
| Date_accessor (a : DateAccessor)
| Other (name : string).

(** The internal slot that makes an object a String, Number, Date, RegExp or
    Error instance. *)
Inductive InternalSlot :=
| OrdinarySlot
| StringData (s : string)
| NumberData (n : Z)
| DateValue (d : DateFields)
| RegExpMatcher (source : string)
| ErrorData (e : ErrorObject).

(** A data property.  (Accessor properties are not modelled.) *)
Record Property (V : Type) := mkProperty {
  value : V; writable : bool; enumerable : bool; configurable : bool
}.

(** Values other than delegation wrappers.  Numbers are the integral ones.
    An object lists its own properties in the order [Reflect.ownKeys]
    reports them, and the properties it inherits through its prototype
    chain. *)
#[warnings="-register-all"]
Inductive Value :=
| VUndefined
| VNull
| VBoolean (b : bool)
| VNumber (n : Z)
| VString (s : string)
| VSymbol (description : string)
| VFunction (f : Fn)
| VBound (target : Value) (boundThis : Value)      (* target.bind(boundThis) *)
| VConst (result : Value)                          (* () => result *)
| VObject (slot : InternalSlot)
          (own : list (PropertyKey * Property Value))
          (inherited : list (PropertyKey * Value)).

Definition Properties := list (PropertyKey * Property Value).

Inductive TypeTag := TUndefined | TObject | TBoolean | TNumber | TString | TSymbol | TFunction.

Definition typeof (v : Value) : TypeTag :=
  match v with
  | VUndefined => TUndefined
  | VNull => TObject
  | VBoolean _ => TBoolean
  | VNumber _ => TNumber
  | VString _ => TString
  | VSymbol _ => TSymbol
  | VFunction _ | VBound _ _ | VConst _ => TFunction
  | VObject _ _ _ => TObject
  end.

Definition isFunction (v : Value) : bool :=
  match typeof v with TFunction => true | _ => false end.

(** [typeof v === 'object' && v !== null] *)
Definition isObject (v : Value) : bool :=
  match v with VObject _ _ _ => true | _ => false end.

Fixpoint lookup {A} (k : PropertyKey) (l : list (PropertyKey * A)) : option A :=
  match l with
  | [] => None
  | (k', a) :: rest => if key_eqb k k' then Some a else lookup k rest
  end.

Definition hasKey {A} (k : PropertyKey) (l : list (PropertyKey * A)) : bool :=
  match lookup k l with Some _ => true | None => false end.

Definition ownProperties (v : Value) : Properties :=
  match v with VObject _ own _ => own | _ => [] end.

Definition inheritedProperties (v : Value) : list (PropertyKey * Value) :=
  match v with VObject _ _ inh => inh | _ => [] end.

Definition slotOf (v : Value) : InternalSlot :=
  match v with VObject s _ _ => s | _ => OrdinarySlot end.

(** [Object.prototype.hasOwnProperty.call(obj, propKey)] on a property list *)
Definition hasOwnProperty (obj : Properties) (propKey : PropertyKey) : bool :=
  hasKey propKey obj.

(** [propKey in obj], for an object *)
Definition hasProperty (obj : Value) (propKey : PropertyKey) : bool :=
  hasKey propKey (ownProperties obj) || hasKey propKey (inheritedProperties obj).

(** [obj[propKey]], for an object *)
Definition getProperty (obj : Value) (propKey : PropertyKey) : Value :=
  match lookup propKey (ownProperties obj) with
  | Some p => value p
  | None =>
      match lookup propKey (inheritedProperties obj) with
      | Some v => v
      | None => VUndefined
      end
  end.

(** [Reflect.ownKeys(obj)] *)
Definition Reflect_ownKeys (obj : Value) : list PropertyKey :=
  map fst (ownProperties obj).

(** [Object.getOwnPropertyDescriptor(obj, propKey)] *)
Definition Object_getOwnPropertyDescriptor (obj : Value) (propKey : PropertyKey)
  : option (Property Value) :=
  lookup propKey (ownProperties obj).

(** [v instanceof String], and so on: instances are the objects made by the
    constructor, which carry its internal slot. *)
Inductive Constructor := StringC | NumberC | DateC | RegExpC.

Definition instanceof (v : Value) (C : Constructor) : bool :=
  match slotOf v, C with
  | StringData _, StringC => true
  | NumberData _, NumberC => true
  | DateValue _, DateC => true
  | RegExpMatcher _, RegExpC => true
  | _, _ => false
  end.

(** ** Built-in prototypes and boxing *)

Definition Object_prototype : list (PropertyKey * Value) :=
  [ (KString "toString", VFunction (Other "Object.prototype.toString"));
    (KString "valueOf", VFunction (Other "Object.prototype.valueOf"));
    (KString "hasOwnProperty", VFunction (Other "Object.prototype.hasOwnProperty")) ].

Definition String_prototype : list (PropertyKey * Value) :=
  [ (KString "toString", VFunction String_toString);
    (KString "valueOf", VFunction String_valueOf);
    (KString "charAt", VFunction (Other "String.prototype.charAt"));
    (KString "toUpperCase", VFunction (Other "String.prototype.toUpperCase")) ]
  ++ Object_prototype.

Definition Number_prototype : list (PropertyKey * Value) :=
  [ (KString "toString", VFunction Number_toString);
    (KString "valueOf", VFunction Number_valueOf);
    (KString "toFixed", VFunction (Other "Number.prototype.toFixed")) ]
  ++ Object_prototype.

Definition Date_prototype : list (PropertyKey * Value) :=
  [ (KString "getTime", VFunction (Date_accessor getTime));
    (KString "getFullYear", VFunction (Date_accessor getFullYear));
    (KString "getMonth", VFunction (Date_accessor getMonth));
    (KString "getDate", VFunction (Date_accessor getDate));
    (KString "getHours", VFunction (Date_accessor getHours));
    (KString "getMinutes", VFunction (Date_accessor getMinutes));
    (KString "valueOf", VFunction (Date_accessor getTime));
    (KString "toJSON", VFunction (Other "Date.prototype.toJSON"));
    (KString "toString", VFunction (Other "Date.prototype.toString"));
    (KSymbol "Symbol.toPrimitive", VFunction (Other "Date.prototype[Symbol.toPrimitive]")) ]
  ++ Object_prototype.

Definition decimal (n : nat) : string := NilZero.string_of_uint (Nat.to_uint n).

Definition decimalZ (n : Z) : string := NilZero.string_of_int (Z.to_int n).

Definition dataProperty (v : Value) (w e c : bool) : Property Value :=
  {| value := v; writable := w; enumerable := e; configurable := c |}.

Fixpoint indexProperties (i : nat) (s : string) : Properties :=
  match s with
  | EmptyString => []
  | String c rest =>
      (KString (decimal i), dataProperty (VString (String c EmptyString)) false true false)
        :: indexProperties (S i) rest
  end.

(** [new String(s)]: the characters and [length] are own, non-configurable
    properties. *)
Definition newString (s : string) : Value :=
  VObject (StringData s)
          (indexProperties 0 s
           ++ [(KString "length",
                dataProperty (VNumber (Z.of_nat (String.length s))) false false false)])
          String_prototype.

(** [new Number(n)] *)
Definition newNumber (n : Z) : Value :=
  VObject (NumberData n) [] Number_prototype.

(** [new Date(...)] *)
Definition newDate (d : DateFields) : Value :=
  VObject (DateValue d) [] Date_prototype.

(** An object literal [{ k1: v1, ... }] *)
Definition objectLiteral (fields : list (PropertyKey * Value)) : Value :=
  VObject OrdinarySlot
          (map (fun kv => (fst kv, dataProperty (snd kv) true true true)) fields)
          Object_prototype.

(* ================================================================== *)
(** * ProxyWrapper.ts: the delegation substrate *)
(* ================================================================== *)

Definition proxyKey : PropertyKey := KSymbol "proxy-wrapper.proxy".
Definition nodeInspectCustom : PropertyKey := KSymbol "nodejs.util.inspect.custom".

(** The proxy target is the literal [{ body, extension }]. *)
Record Target := mkTarget { body : Value; extension : Properties }.

(** [extension[propKey]], once [hasOwnProperty(extension, propKey)] holds *)
Definition extensionProperty (extension : Properties) (propKey : PropertyKey) : Value :=
  match lookup propKey extension with
  | Some p => value p
  | None => VUndefined
  end.

(** [obj[name].bind(obj)]: a TypeError when [obj[name]] is not a function.
    (Objects that carry a callable [bind] of their own are not represented.) *)
Definition bindMethod (obj : Value) (name : string) : Completion Value :=
  let method := getProperty obj (KString name) in
  if isFunction method then Normal (VBound method obj)
  else throwTypeError "bind is not a function".

(** Where the first part of [get] ends: with a [return], or with a value for
    [targetProp]. *)
Inductive Resolution :=
| Returned (v : Value)
| TargetProp (targetProp : Value).

(** The traps, which receive the target.  ([getPrototypeOf] is left out:
    prototype objects have no identity of their own in this model.) *)
Module handlerMethods.

Definition ownKeys (t : Target) : list PropertyKey :=
  let bodyKeys := if isObject (body t) then Reflect_ownKeys (body t) else [] in
  bodyKeys.

Definition has (t : Target) (propKey : PropertyKey) : bool :=
  if hasOwnProperty (extension t) propKey then true
  else if isObject (body t) && hasProperty (body t) propKey then true
  else if key_eqb propKey (KString "toJSON")
          && (instanceof (body t) StringC || instanceof (body t) NumberC) then true
  else if key_eqb propKey nodeInspectCustom then true
  else if key_eqb propKey proxyKey then true
  else false.

(** The [receiver] argument is not used by the source. *)
Definition get (t : Target) (propKey : PropertyKey) : Completion Value :=
  r <- (if hasOwnProperty (extension t) propKey then
          Normal (TargetProp (extensionProperty (extension t) propKey))
        else if isObject (body t) && hasProperty (body t) propKey then
          Normal (TargetProp (getProperty (body t) propKey))
        else
          targetProp <-
            (if key_eqb propKey (KString "toJSON") then
               if instanceof (body t) StringC then bindMethod (body t) "toString"
               else if instanceof (body t) NumberC then bindMethod (body t) "valueOf"
               else Normal VUndefined
             else Normal VUndefined) ;;
          if key_eqb propKey nodeInspectCustom then
            Normal (Returned (VConst (body t)))
          else if key_eqb propKey proxyKey then
            Normal (Returned
                      (objectLiteral
                         [ (KString "body", body t);
                           (KString "extension",
                            VObject OrdinarySlot (extension t) Object_prototype) ]))
          else Normal (TargetProp targetProp)) ;;
  match r with
  | Returned v => Normal v
  | TargetProp targetProp =>
      if isFunction targetProp then
        let cannotProxy :=
          instanceof (body t) StringC
          || instanceof (body t) NumberC
          || instanceof (body t) DateC
          || instanceof (body t) RegExpC in
        if cannotProxy then Normal (VBound targetProp (body t))
        else Normal targetProp
      else Normal targetProp
  end.

(** The descriptor returned for an extension property has no [writable]
    field; the caller completes it to [false]. *)
Definition getOwnPropertyDescriptor (t : Target) (propKey : PropertyKey)
  : option (Property Value) :=
  if hasOwnProperty (extension t) propKey then
    Some {| value := extensionProperty (extension t) propKey;
            writable := false;
            enumerable := false;
            configurable := true |}
  else if isObject (body t) then Object_getOwnPropertyDescriptor (body t) propKey
  else None.

Definition setPrototypeOf : bool := false.
Definition isExtensible : bool := false.
Definition set : Completion bool := throwTypeError "Unable to modify object".
Definition defineProperty : Completion bool := throwTypeError "Unable to modify object".
Definition deleteProperty : Completion bool := throwTypeError "Unable to modify object".

End handlerMethods.

(** A wrapper: [new Proxy({ body, extension }, handlerMethods)].  The only
    state of the target that can change is its [[Extensible]] flag. *)
Record Proxy := mkProxy { target : Target; targetExtensible : bool }.

Definition ProxyWrapper (value : Value) (extension : Properties) : Completion Proxy :=
  body <-
    match value with
    | VUndefined => throwTypeError "Cannot construct proxy, given `undefined`"
    | VNull => Normal VNull
    | VString s => Normal (newString s)
    | VNumber n => Normal (newNumber n)
    | VBoolean _ => throwTypeError "Cannot construct proxy from boolean, given ${value}"
    | VSymbol _ => throwTypeError "Cannot construct proxy from symbol, given ${value}"
    | VFunction _ | VBound _ _ | VConst _ =>
        (* typeof value !== 'object' *)
        throwTypeError "Cannot construct proxy, given value of unknown type: ${value}"
    | VObject _ _ _ => Normal value
    end ;;
  Normal (mkProxy (mkTarget body extension) true).

(** ** The internal methods of the Proxy object

    Each one calls the trap of [handlerMethods] and then enforces the
    invariants of the language against the target.  The own properties of
    the target, "body" and "extension", come from an object literal: both
    are writable, enumerable and configurable. *)

Definition targetHasOwn (P : PropertyKey) : bool :=
  key_eqb P (KString "body") || key_eqb P (KString "extension").

Fixpoint hasDuplicates (l : list PropertyKey) : bool :=
  match l with
  | [] => false
  | k :: rest => existsb (key_eqb k) rest || hasDuplicates rest
  end.

Module ProxyObject.

(** [[Get]]: the target has no non-configurable property, so the trap
    result is returned as it is. *)
Definition Get (p : Proxy) (P : PropertyKey) : Completion Value :=
  handlerMethods.get (target p) P.

(** [[HasProperty]] *)
Definition HasProperty (p : Proxy) (P : PropertyKey) : Completion bool :=
  let booleanTrapResult := handlerMethods.has (target p) P in
  if negb booleanTrapResult && targetHasOwn P && negb (targetExtensible p) then
    throwTypeError "'has' on proxy: trap returned falsish for a property of the non-extensible target"
  else Normal booleanTrapResult.

(** [[GetOwnProperty]] *)
Definition GetOwnProperty (p : Proxy) (P : PropertyKey)
  : Completion (option (Property Value)) :=
  match handlerMethods.getOwnPropertyDescriptor (target p) P with
  | None =>
      if targetHasOwn P && negb (targetExtensible p) then
        throwTypeError "'getOwnPropertyDescriptor' on proxy: trap returned undefined for a property of the non-extensible target"
      else Normal None
  | Some resultDesc =>
      (* IsCompatiblePropertyDescriptor: any descriptor is compatible with
         a configurable target property, a missing one needs an
         extensible target *)
      let valid := targetHasOwn P || targetExtensible p in
      if negb valid then
        throwTypeError "'getOwnPropertyDescriptor' on proxy: trap returned a descriptor incompatible with the target"
      else if negb (configurable resultDesc) then
        (* the target property is missing or configurable *)
        throwTypeError "'getOwnPropertyDescriptor' on proxy: trap reported non-configurability for a property that is non-existent or configurable in the target"
      else Normal (Some resultDesc)
  end.

(** [[OwnPropertyKeys]] *)
Definition OwnPropertyKeys (p : Proxy) : Completion (list PropertyKey) :=
  let trapResult := handlerMethods.ownKeys (target p) in
  if hasDuplicates trapResult then
    throwTypeError "'ownKeys' on proxy: trap returned duplicate entries"
  else if targetExtensible p then Normal trapResult
  else if existsb (key_eqb (KString "body")) trapResult
          && existsb (key_eqb (KString "extension")) trapResult
          && forallb targetHasOwn trapResult
  then Normal trapResult
  else throwTypeError "'ownKeys' on proxy: trap result does not match the keys of the non-extensible target".

(** [[IsExtensible]]: the trap result must agree with the target. *)
Definition IsExtensible (p : Proxy) : Completion bool :=
  let booleanTrapResult := handlerMethods.isExtensible in
  let targetResult := targetExtensible p in
  if Bool.eqb booleanTrapResult targetResult then Normal booleanTrapResult
  else throwTypeError "'isExtensible' on proxy: trap result does not reflect extensibility of proxy target".

(** [[PreventExtensions]]: there is no trap, the target is made
    non-extensible. *)
Definition PreventExtensions (p : Proxy) : Completion (bool * Proxy) :=
  Normal (true, mkProxy (target p) false).

(** [[SetPrototypeOf]]: a falsish trap result is returned as [false]. *)
Definition SetPrototypeOf (p : Proxy) (V : Value) : Completion bool :=
  Normal handlerMethods.setPrototypeOf.

Definition Set_ (p : Proxy) (P : PropertyKey) (V : Value) : Completion bool :=
  handlerMethods.set.

Definition DefineOwnProperty (p : Proxy) (P : PropertyKey) (Desc : Property Value)
  : Completion bool :=
  handlerMethods.defineProperty.

Definition Delete (p : Proxy) (P : PropertyKey) : Completion bool :=
  handlerMethods.deleteProperty.

End ProxyObject.

(** ** Operations of the language on a wrapper *)

Definition Object_isExtensible (p : Proxy) : Completion bool :=
  ProxyObject.IsExtensible p.

Definition Object_preventExtensions (p : Proxy) : Completion Proxy :=
  r <- ProxyObject.PreventExtensions p ;;
  if fst r then Normal (snd r)
  else throwTypeError "Cannot prevent extensions".

Definition Reflect_setPrototypeOf (p : Proxy) (proto : Value) : Completion bool :=
  ProxyObject.SetPrototypeOf p proto.

(** [Object.setPrototypeOf(p, proto)] throws when [[SetPrototypeOf]] answers
    [false]. *)
Definition Object_setPrototypeOf (p : Proxy) (proto : Value) : Completion Proxy :=
  status <- ProxyObject.SetPrototypeOf p proto ;;
  if status then Normal p
  else throwTypeError "'setPrototypeOf' on proxy: trap returned falsish".

(** [p[P] = V]; in strict code a [false] from [[Set]] is a TypeError. *)
Definition assign (strict : bool) (p : Proxy) (P : PropertyKey) (V : Value)
  : Completion Value :=
  succeeded <- ProxyObject.Set_ p P V ;;
  if negb succeeded && strict then throwTypeError "Cannot assign to read only property"
  else Normal V.

(** [delete p[P]] *)
Definition delete (strict : bool) (p : Proxy) (P : PropertyKey) : Completion bool :=
  deleteStatus <- ProxyObject.Delete p P ;;
  if negb deleteStatus && strict then throwTypeError "Cannot delete property"
  else Normal deleteStatus.

(** [Object.defineProperty(p, P, Desc)] *)
Definition Object_defineProperty (p : Proxy) (P : PropertyKey) (Desc : Property Value)
  : Completion Proxy :=
  success <- ProxyObject.DefineOwnProperty p P Desc ;;
  if success then Normal p
  else throwTypeError "Cannot define property".

(** [Reflect.ownKeys(p)] *)
Definition Reflect_ownKeys_proxy (p : Proxy) : Completion (list PropertyKey) :=
  ProxyObject.OwnPropertyKeys p.

(** CopyDataProperties, the loop of [{ ...p }] and of [Object.assign({}, p)]:
    every own key whose descriptor is enumerable is read and copied. *)
Fixpoint CopyDataProperties (p : Proxy) (keys : list PropertyKey)
  : Completion (list (PropertyKey * Value)) :=
  match keys with
  | [] => Normal []
  | nextKey :: rest =>
      desc <- ProxyObject.GetOwnProperty p nextKey ;;
      match desc with
      | Some d =>
          if enumerable d then
            propValue <- ProxyObject.Get p nextKey ;;
            copied <- CopyDataProperties p rest ;;
            Normal ((nextKey, propValue) :: copied)
          else CopyDataProperties p rest
      | None => CopyDataProperties p rest
      end
  end.

(** [{ ...p }]: the fields of the copy, in order *)
Definition spread (p : Proxy) : Completion (list (PropertyKey * Value)) :=
  keys <- ProxyObject.OwnPropertyKeys p ;;
  CopyDataProperties p keys.

Definition isStringKey (k : PropertyKey) : bool :=
  match k with KString _ => true | KSymbol _ => false end.

Fixpoint enumerableKeys (p : Proxy) (keys : list PropertyKey)
  : Completion (list PropertyKey) :=
  match keys with
  | [] => Normal []
  | key :: rest =>
      if isStringKey key then
        desc <- ProxyObject.GetOwnProperty p key ;;
        more <- enumerableKeys p rest ;;
        match desc with
        | Some d => if enumerable d then Normal (key :: more) else Normal more
        | None => Normal more
        end
      else enumerableKeys p rest
  end.

(** [Object.keys(p)] *)
Definition Object_keys (p : Proxy) : Completion (list PropertyKey) :=
  keys <- ProxyObject.OwnPropertyKeys p ;;
  enumerableKeys p keys.

(** ** Calls and conversions *)

(** The [this] of a call: a value, or a wrapper. *)
Inductive This :=
| ThisValue (v : Value)
| ThisProxy (p : Proxy).

(** thisStringValue, thisNumberValue, thisTimeValue: the value itself or the
    internal slot of the object; a Proxy has no such slot. *)
Definition thisStringValue (this : This) : Completion string :=
  match this with
  | ThisValue (VString s) => Normal s
  | ThisValue (VObject (StringData s) _ _) => Normal s
  | _ => throwTypeError "String.prototype.valueOf requires that 'this' be a String"
  end.

Definition thisNumberValue (this : This) : Completion Z :=
  match this with
  | ThisValue (VNumber n) => Normal n
  | ThisValue (VObject (NumberData n) _ _) => Normal n
  | _ => throwTypeError "Number.prototype.valueOf requires that 'this' be a Number"
  end.

Definition thisTimeValue (this : This) : Completion DateFields :=
  match this with
  | ThisValue (VObject (DateValue d) _ _) => Normal d
  | _ => throwTypeError "this is not a Date object."
  end.

Definition readDate (a : DateAccessor) (d : DateFields) : Z :=
  match a with
  | getTime => timeValue d
  | getFullYear => fullYear d
  | getMonth => month d
  | getDate => date d
  | getHours => hours d
  | getMinutes => minutes d
  end.

(** A call without arguments; [None] when the body of the function is
    outside the model. *)
Definition callBuiltin (f : Fn) (this : This) : option (Completion Value) :=
  match f with
  | String_toString | String_valueOf =>
      Some (s <- thisStringValue this ;; Normal (VString s))
  | Number_valueOf =>
      Some (n <- thisNumberValue this ;; Normal (VNumber n))
  | Number_toString =>
      Some (n <- thisNumberValue this ;; Normal (VString (decimalZ n)))
  | Date_accessor a =>
      Some (d <- thisTimeValue this ;; Normal (VNumber (readDate a d)))
  | Other _ => None
  end.

Fixpoint Call (f : Value) (this : This) : option (Completion Value) :=
  match f with
  | VFunction fn => callBuiltin fn this
  | VBound target boundThis => Call target (ThisValue boundThis)
  | VConst result => Some (Normal result)
  | _ => Some (throwTypeError "is not a function")
  end.

Definition andThen {A B} (c : option (Completion A)) (k : A -> option (Completion B))
  : option (Completion B) :=
  match c with
  | Some (Normal a) => k a
  | Some (Throw e) => Some (Throw e)
  | None => None
  end.

(** [p.name()] *)
Definition invoke (p : Proxy) (name : string) : option (Completion Value) :=
  andThen (Some (ProxyObject.Get p (KString name)))
          (fun method => Call method (ThisProxy p)).

Definition isPrimitive (v : Value) : bool :=
  match v with
  | VUndefined | VNull | VBoolean _ | VNumber _ | VString _ | VSymbol _ => true
  | _ => false
  end.

(** OrdinaryToPrimitive: the first of the named methods that is callable and
    returns a primitive decides. *)
Fixpoint OrdinaryToPrimitive (p : Proxy) (methodNames : list string)
  : option (Completion Value) :=
  match methodNames with
  | [] => Some (throwTypeError "Cannot convert object to primitive value")
  | name :: rest =>
      andThen (Some (ProxyObject.Get p (KString name)))
        (fun method =>
           if isFunction method then
             andThen (Call method (ThisProxy p))
               (fun result =>
                  if isPrimitive result then Some (Normal result)
                  else OrdinaryToPrimitive p rest)
           else OrdinaryToPrimitive p rest)
  end.

Inductive Hint := HintString | HintNumber.

Definition toPrimitiveKey : PropertyKey := KSymbol "Symbol.toPrimitive".

(** ToPrimitive(p, hint) *)
Definition ToPrimitive (p : Proxy) (hint : Hint) : option (Completion Value) :=
  andThen (Some (ProxyObject.Get p toPrimitiveKey))
    (fun exoticToPrim =>
       match exoticToPrim with
       | VUndefined | VNull =>
           OrdinaryToPrimitive p
             match hint with
             | HintString => ["toString"; "valueOf"]
             | HintNumber => ["valueOf"; "toString"]
             end
       | _ =>
           if isFunction exoticToPrim then
             andThen (Call exoticToPrim (ThisProxy p))
               (fun result =>
                  if isPrimitive result then Some (Normal result)
                  else Some (throwTypeError "Cannot convert object to primitive value"))
           else Some (throwTypeError "Symbol.toPrimitive is not a function")
       end).

(** [String(p)] *)
Definition String_ (p : Proxy) : option (Completion Value) :=
  andThen (ToPrimitive p HintString)
    (fun prim =>
       match prim with
       | VString s => Some (Normal (VString s))
       | VNumber n => Some (Normal (VString (decimalZ n)))
       | VBoolean true => Some (Normal (VString "true"))
       | VBoolean false => Some (Normal (VString "false"))
       | VUndefined => Some (Normal (VString "undefined"))
       | VNull => Some (Normal (VString "null"))
       | VSymbol _ => Some (throwTypeError "Cannot convert a Symbol value to a string")
       | _ => None
       end).

(** [Number(p)]; the parse of a string is outside the model. *)
Definition Number_ (p : Proxy) : option (Completion Value) :=
  andThen (ToPrimitive p HintNumber)
    (fun prim =>
       match prim with
       | VNumber n => Some (Normal (VNumber n))
       | VBoolean true => Some (Normal (VNumber 1))
       | VBoolean false => Some (Normal (VNumber 0))
       | VNull => Some (Normal (VNumber 0))
       | VSymbol _ => Some (throwTypeError "Cannot convert a Symbol value to a number")
       | _ => None
       end).

(* ================================================================== *)
(** * Status and the Loadable interface *)
(* ================================================================== *)

(** Modelled from the spec: the modules that declare [Status] and
    [Loadable] are not among the sources (the loader imports them).
    "Status: three independent fields: ready: boolean, loading: boolean,
    error: Error | null". *)
Record Status := mkStatus { ready : bool; loading : bool; error : option ErrorObject }.

(** [Partial<Status>] *)
Record PartialStatus := mkPartial {
  readyPatch : option bool;
  loadingPatch : option bool;
  errorPatch : option (option ErrorObject)
}.

Definition orElse {A} (o : option A) (d : A) : A :=
  match o with Some a => a | None => d end.

(** [{ ...status, ...patch }] *)
Definition mergeStatus (status : Status) (patch : PartialStatus) : Status :=
  {| ready := orElse (readyPatch patch) (ready status);
     loading := orElse (loadingPatch patch) (loading status);
     error := orElse (errorPatch patch) (error status) |}.

Definition defaultStatus : Status := {| ready := false; loading := false; error := None |}.

Definition noPatch : PartialStatus :=
  {| readyPatch := None; loadingPatch := None; errorPatch := None |}.

Definition fullPatch (s : Status) : PartialStatus :=
  {| readyPatch := Some (ready s);
     loadingPatch := Some (loading s);
     errorPatch := Some (error s) |}.

Definition itemKey : PropertyKey := KSymbol "lifecycle.loadable.item".
Definition statusKey : PropertyKey := KSymbol "lifecycle.loadable.status".
Definition constructKey : PropertyKey := KSymbol "lifecycle.loadable.construct".

(** Modelled from the spec: "Loadable<T>: any value exposing three
    designated access points: an item access point, a status access point
    yielding a Status, a rebuild access point (item, status) ->
    Loadable<T>".  A read may throw, and so may the reconstruction.
    A Loadable is an object of the language besides, and as such it answers
    a read of [then]: the resolve function of a promise asks every object
    it is given for it. *)
Class Loadable (L : Type) := {
  getItem : L -> Completion Value;                       (* l[itemKey] *)
  getStatus : L -> Completion Status;                    (* l[statusKey] *)
  construct : L -> Value -> Status -> Completion L;      (* l[constructKey](item, status) *)
  getThen : L -> Completion Value                        (* l.then *)
}.

Definition isUndefined (v : Value) : bool :=
  match v with VUndefined => true | _ => false end.

(** ** LoadableRecord *)

(** Modelled from the spec: the module that defines [LoadableRecord] is not
    among the sources.  "An ordinary aggregate carrying item, status, and
    rebuild"; "status defaults to {ready:false, loading:false, error:null}
    with any fields present in statusPatch overriding the default"; the
    convenience names [item] and [status] return the same values as the
    reserved access points.  The aggregate has no [then]. *)
Record LoadableRecordT := mkRecord { recordItem : Value; recordStatus : Status }.

Definition LoadableRecord (item : Value) (status : PartialStatus) : LoadableRecordT :=
  {| recordItem := item; recordStatus := mergeStatus defaultStatus status |}.

#[export] Instance LoadableRecord_Loadable : Loadable LoadableRecordT := {
  getItem r := Normal (recordItem r);
  getStatus r := Normal (recordStatus r);
  construct _ item status := Normal (LoadableRecord item (fullPatch status));
  getThen _ := Normal VUndefined
}.

(** ** LoadableProxy *)

(** A Status, and an Error, as the objects they are. *)
Definition errorValue (e : ErrorObject) : Value :=
  VObject (ErrorData e)
          [(KString "message", dataProperty (VString (message e)) true false true)]
          Object_prototype.

Definition statusValue (s : Status) : Value :=
  objectLiteral
    [ (KString "ready", VBoolean (ready s));
      (KString "loading", VBoolean (loading s));
      (KString "error", match error s with Some e => errorValue e | None => VNull end) ].

(** The view of a status object as a [Status]. *)
Definition toStatus (v : Value) : Status :=
  {| ready := match getProperty v (KString "ready") with VBoolean b => b | _ => false end;
     loading := match getProperty v (KString "loading") with VBoolean b => b | _ => false end;
     error := match slotOf (getProperty v (KString "error")) with
              | ErrorData e => Some e
              | _ => None
              end |}.

Definition hidden (v : Value) : Property Value := dataProperty v false false true.

(** Modelled from the spec: the module that defines [LoadableProxy] is not
    among the sources.  "Builds a delegation wrapper over item, with an
    extension object holding the reserved item/status/rebuild access points
    (computed exactly as in LoadableRecord) as non-enumerable entries";
    "undefined item and null item are both accepted (the former yields an
    absent-item Loadable, the latter a present-but-null item)".  The
    substrate refuses [undefined], so an absent item is delegated to an
    empty ([null]) body while the item access point keeps [undefined].
    (One test of the construction from 42 expects [ready] to be true without
    a patch, which the documented default does not give; nothing below
    depends on it.) *)
Definition loadableExtension (item : Value) (status : Status) : Properties :=
  [ (itemKey, hidden item);
    (statusKey, hidden (statusValue status));
    (constructKey, hidden (VFunction (Other "LoadableProxy"))) ].

Definition LoadableProxy (item : Value) (status : PartialStatus) : Completion Proxy :=
  ProxyWrapper (if isUndefined item then VNull else item)
               (loadableExtension item (mergeStatus defaultStatus status)).

#[export] Instance LoadableProxy_Loadable : Loadable Proxy := {
  getItem p := ProxyObject.Get p itemKey;
  getStatus p := (s <- ProxyObject.Get p statusKey ;; Normal (toStatus s));
  construct _ item status := LoadableProxy item (fullPatch status);
  getThen p := ProxyObject.Get p (KString "then")
}.

(** ** Transition operations *)

(** Modelled from the spec: the module that defines the transition
    operations is not among the sources.  "update(loadable, item,
    statusPatch): returns rebuild(item, {...currentStatus, ...statusPatch})". *)
Definition update {L} `{Loadable L} (loadable : L) (item : Value) (statusPatch : PartialStatus)
  : Completion L :=
  currentStatus <- getStatus loadable ;;
  construct loadable item (mergeStatus currentStatus statusPatch).

(** Modelled from the spec: "markLoading(loadable): returns
    rebuild(currentItem, {ready: currentItem !== undefined, loading: true,
    error: null})". *)
Definition markLoading {L} `{Loadable L} (loadable : L) : Completion L :=
  currentItem <- getItem loadable ;;
  construct loadable currentItem
            {| ready := negb (isUndefined currentItem); loading := true; error := None |}.

(** Modelled from the spec: "markReady(loadable, newItem?): let finalItem =
    newItem !== undefined ? newItem : currentItem; fails with a type error
    if finalItem is undefined; returns rebuild(finalItem, {ready: true,
    loading: false, error: null})".  An omitted [newItem] is [undefined]. *)
Definition markReady {L} `{Loadable L} (loadable : L) (newItem : Value) : Completion L :=
  finalItem <- (if negb (isUndefined newItem) then Normal newItem else getItem loadable) ;;
  if isUndefined finalItem then
    throwTypeError "Cannot mark as ready: no item"
  else
    construct loadable finalItem {| ready := true; loading := false; error := None |}.

(** Modelled from the spec: "markFailed(loadable, reason): returns
    rebuild(currentItem, {ready: currentItem !== undefined, loading: false,
    error: reason})". *)
Definition markFailed {L} `{Loadable L} (loadable : L) (reason : ErrorObject) : Completion L :=
  currentItem <- getItem loadable ;;
  construct loadable currentItem
            {| ready := negb (isUndefined currentItem); loading := false; error := Some reason |}.

(* ================================================================== *)
(** * The loader module: LoadError and LoadablePromise *)
(* ================================================================== *)

(** What a promise of this module is rejected with: a [LoadError], which
    keeps a reference to the item, or another error (one raised inside the
    executor, or the reason that a thenable gives).  Of the message of a
    LoadError, the template [Loading failed: ${message}] rendered by
    message-tag, the record keeps what is interpolated: the message of the
    cause, or the empty string. *)
Inductive Rejection (L : Type) :=
| LoadError (causeMessage : string) (item : L)
| Raised (e : ErrorObject).

Arguments LoadError {L} causeMessage item.
Arguments Raised {L} e.

(** [new LoadError(reason, item)]; [reason] is an Error or [null]. *)
Definition newLoadError {L} (reason : option ErrorObject) (item : L) : Rejection L :=
  let message := match reason with Some e => message e | None => "" end in
  LoadError message item.

(** [reason.item]: the item of a LoadError, [undefined] on another error. *)
Definition reasonItem {L} (reason : Rejection L) : option L :=
  match reason with
  | LoadError _ item => Some item
  | Raised _ => None
  end.

Inductive PromiseState (L : Type) :=
| Pending
| Fulfilled (value : L)
| Rejected (reason : Rejection L).

Arguments Pending {L}.
Arguments Fulfilled {L} value.
Arguments Rejected {L} reason.

(** A subscriber is a callback of the caller: it is identified by a number,
    and it returns or throws. *)
Record Subscriber := mkSubscriber { subscriberId : nat; subscriberThrows : bool }.

Definition subscriber_eqb (a b : Subscriber) : bool :=
  Nat.eqb (subscriberId a) (subscriberId b)
  && Bool.eqb (subscriberThrows a) (subscriberThrows b).

(** The pair of continuations given to [then]: the two arrow functions of
    [subscribe],
      [(itemReady) => { subscriber(itemReady); }] and
      [(reason) => { subscriber(reason.item); }],
    or continuations of the caller, which are outside the model. *)
Inductive Reaction :=
| Notify (subscriber : Subscriber)
| Continuation (id : nat).

(** A job of the microtask queue: a reaction job, or the job that calls the
    [then] of a thenable the promise was resolved with. *)
Inductive Job (L : Type) :=
| FulfillJob (r : Reaction) (value : L)
| RejectJob (r : Reaction) (reason : Rejection L)
| ThenableJob (thenable : L).

Arguments FulfillJob {L} r value.
Arguments RejectJob {L} r reason.
Arguments ThenableJob {L} thenable.

(** One call of a subscriber, with its argument ([None] is [undefined]). *)
Record Invocation (L : Type) := mkInvocation { callee : Subscriber; argument : option L }.

Arguments mkInvocation {L} callee argument.

(** The promise part of the object, and the two fields of the class. *)
Record LoadablePromise (L : Type) := mkLoadablePromise {
  promiseState : PromiseState L;
  reactions : list Reaction;
  fulfilled : bool;
  item : L
}.

Arguments mkLoadablePromise {L} promiseState reactions fulfilled item.

(** The object, the microtask queue, the calls made to subscribers, and
    who may still settle the promise.  The functions [resolve] and [reject]
    that the Promise constructor hands to its executor share the flag
    [[AlreadyResolved]].  A thenable the promise is resolved with is handed
    a fresh pair of functions, with a flag of their own, when its job runs:
    [handedOver] says that such a pair is out and unused (there is at most
    one, since a pair is made only when the one before it has been used). *)
Record World (L : Type) := mkWorld {
  promise : LoadablePromise L;
  microtasks : list (Job L);
  invocations : list (Invocation L);
  alreadyResolved : bool;
  handedOver : bool
}.

Arguments mkWorld {L} promise microtasks invocations alreadyResolved handedOver.

(** ** Species *)

Inductive PromiseConstructor := PromiseC | LoadablePromiseC.

(** The static field a class declares under [Symbol.species]:
    [static [Symbol.species] = Promise] in [LoadablePromise]. *)
Definition declaredSpecies (C : PromiseConstructor) : option PromiseConstructor :=
  match C with
  | PromiseC => None
  | LoadablePromiseC => Some PromiseC
  end.

(** [C[Symbol.species]]: the declared field, or else the getter inherited
    from [Promise], which answers the receiver. *)
Definition species (C : PromiseConstructor) : PromiseConstructor :=
  match declaredSpecies C with
  | Some declared => declared
  | None => C
  end.

(** The members an instance answers to: methods of the prototype chain and
    fields set by the constructor. *)
Definition members (C : PromiseConstructor) : list string :=
  match C with
  | PromiseC => ["then"; "catch"; "finally"]
  | LoadablePromiseC => ["subscribe"; "fulfilled"; "item"; "then"; "catch"; "finally"]
  end.

Definition hasMember (C : PromiseConstructor) (name : string) : bool :=
  existsb (String.eqb name) (members C).

(** The promise that [then] returns is made by the species of the
    constructor of the receiver. *)
Record DerivedPromise := mkDerived { constructedBy : PromiseConstructor }.

(** ** The resolving functions of the promise *)

Definition fulfillJobs {L} (rs : list Reaction) (value : L) : list (Job L) :=
  map (fun r => FulfillJob r value) rs.

Definition rejectJobs {L} (rs : list Reaction) (reason : Rejection L) : list (Job L) :=
  map (fun r => RejectJob r reason) rs.

(** FulfillPromise: settles a pending promise and queues its reactions.
    (It is only ever reached on a pending promise; a settled one is left as
    it is.) *)
Definition fulfillPromise {L} (w : World L) (value : L) : World L :=
  match promiseState (promise w) with
  | Pending =>
      mkWorld (mkLoadablePromise (Fulfilled value) [] (fulfilled (promise w)) (item (promise w)))
              (microtasks w ++ fulfillJobs (reactions (promise w)) value)
              (invocations w) (alreadyResolved w) (handedOver w)
  | _ => w
  end.

(** RejectPromise *)
Definition rejectPromise {L} (w : World L) (reason : Rejection L) : World L :=
  match promiseState (promise w) with
  | Pending =>
      mkWorld (mkLoadablePromise (Rejected reason) [] (fulfilled (promise w)) (item (promise w)))
              (microtasks w ++ rejectJobs (reactions (promise w)) reason)
              (invocations w) (alreadyResolved w) (handedOver w)
  | _ => w
  end.

(** What a resolve function does with its argument once its flag is set.
    The argument is an object: its [then] is read; a read that throws
    rejects the promise; a [then] that is callable makes the argument a
    thenable, and the promise stays pending while a job is queued that will
    call this [then]; otherwise the promise is fulfilled with the
    argument. *)
Definition resolvePromise {L} `{Loadable L} (w : World L) (resolution : L) : World L :=
  match getThen resolution with
  | Throw e => rejectPromise w (Raised e)
  | Normal thenAction =>
      if isFunction thenAction then
        mkWorld (promise w) (microtasks w ++ [ThenableJob resolution]) (invocations w)
                (alreadyResolved w) (handedOver w)
      else fulfillPromise w resolution
  end.

Definition setAlreadyResolved {L} (w : World L) : World L :=
  mkWorld (promise w) (microtasks w) (invocations w) true (handedOver w).

Definition setHandedOver {L} (b : bool) (w : World L) : World L :=
  mkWorld (promise w) (microtasks w) (invocations w) (alreadyResolved w) b.

(** [resolve(item)], the function the Promise constructor gave to the
    function passed to [super]: nothing once the flag is set. *)
Definition resolve {L} `{Loadable L} (w : World L) (value : L) : World L :=
  if alreadyResolved w then w else resolvePromise (setAlreadyResolved w) value.

(** [reject(reason)] *)
Definition reject {L} (w : World L) (reason : Rejection L) : World L :=
  if alreadyResolved w then w else rejectPromise (setAlreadyResolved w) reason.

Definition setFulfilled {L} (w : World L) : World L :=
  mkWorld (mkLoadablePromise (promiseState (promise w)) (reactions (promise w)) true
                             (item (promise w)))
          (microtasks w) (invocations w) (alreadyResolved w) (handedOver w).

(** [promise.then(onFulfilled, onRejected)] *)
Definition then_ {L} (w : World L) (r : Reaction) : World L * DerivedPromise :=
  let derived := mkDerived (species LoadablePromiseC) in
  match promiseState (promise w) with
  | Pending =>
      (mkWorld (mkLoadablePromise Pending (reactions (promise w) ++ [r])
                                  (fulfilled (promise w)) (item (promise w)))
               (microtasks w) (invocations w) (alreadyResolved w) (handedOver w), derived)
  | Fulfilled value =>
      (mkWorld (promise w) (microtasks w ++ [FulfillJob r value]) (invocations w)
               (alreadyResolved w) (handedOver w), derived)
  | Rejected reason =>
      (mkWorld (promise w) (microtasks w ++ [RejectJob r reason]) (invocations w)
               (alreadyResolved w) (handedOver w), derived)
  end.

(** [promise.catch(onRejected)] is [promise.then(undefined, onRejected)]. *)
Definition catch_ {L} (w : World L) (r : Reaction) : World L * DerivedPromise :=
  then_ w r.

(** ** The constructor *)

(** The two functions handed to the executor.  Before [super()] has
    returned, [this] is not initialised and [this.fulfilled = true] is a
    ReferenceError. *)
Definition resolveWrapper {L} `{Loadable L} (thisInitialised : bool) (w : World L) (item : L)
  : World L * Completion unit :=
  match getStatus item with
  | Throw e => (w, Throw e)
  | Normal status =>
      if negb (ready status) then
        (w, throwTypeError "Expected item with status ready, given ${item[statusKey]}")
      else if negb thisInitialised then
        (w, Throw (mkError ReferenceError
                           "Must call super constructor before accessing 'this'"))
      else (resolve (setFulfilled w) item, Normal tt)
  end.

Definition rejectWrapper {L} `{Loadable L} (thisInitialised : bool) (w : World L) (item : L)
  : World L * Completion unit :=
  match getStatus item with
  | Throw e => (w, Throw e)
  | Normal status =>
      match error status with
      | None =>
          (w, throwTypeError "Expected item with status failed, given ${item[statusKey]}")
      | Some reason =>
          if negb thisInitialised then
            (w, Throw (mkError ReferenceError
                               "Must call super constructor before accessing 'this'"))
          else (reject (setFulfilled w) (newLoadError (Some reason) item), Normal tt)
      end
  end.

(** What an executor does while it runs: it calls the functions it was
    given, or throws, and it may catch what such a step throws.  (It may
    also keep the two functions and call them later: see [Operation].) *)
Inductive ExecutorAction (L : Type) :=
| CallResolve (item : L)
| CallReject (item : L)
| ThrowError (e : ErrorObject)
| TryCatch (action : ExecutorAction L).

Arguments CallResolve {L} item.
Arguments CallReject {L} item.
Arguments ThrowError {L} e.
Arguments TryCatch {L} action.

Definition Executor (L : Type) := list (ExecutorAction L).

(** One step of the executor; [try { action } catch {}] swallows what the
    step throws. *)
Fixpoint runAction {L} `{Loadable L} (action : ExecutorAction L) (w : World L)
  : World L * Completion unit :=
  match action with
  | CallResolve item => resolveWrapper false w item
  | CallReject item => rejectWrapper false w item
  | ThrowError e => (w, Throw e)
  | TryCatch action' => (fst (runAction action' w), Normal tt)
  end.

Fixpoint runExecutor {L} `{Loadable L} (executor : Executor L) (w : World L)
  : World L * Completion unit :=
  match executor with
  | [] => (w, Normal tt)
  | action :: rest =>
      match runAction action w with
      | (w', Normal _) => runExecutor rest w'
      | (w', Throw e) => (w', Throw e)
      end
  end.

(** [new LoadablePromise(executor, item)].  The function given to [super]
    checks the item and runs the executor; the Promise constructor turns
    what it throws into a rejection, through its [reject] function.  Then
    the field initialiser and the constructor body run.  The result is what
    the [new] expression evaluates to. *)
Definition newLoadablePromise {L} `{Loadable L} (executor : Executor L) (item : L)
  : Completion (World L) :=
  let w0 := mkWorld (mkLoadablePromise Pending [] false item) [] [] false false in
  let '(w1, completion) :=
    match getStatus item with
    | Throw e => (w0, Throw e)
    | Normal status =>
        if negb (loading status) then
          (w0, throwTypeError "Expected item with status loading, given ${item[statusKey]}")
        else runExecutor executor w0
    end in
  let w2 := match completion with
            | Normal _ => w1
            | Throw e => reject w1 (Raised e)
            end in
  Normal (mkWorld (mkLoadablePromise (promiseState (promise w2)) (reactions (promise w2))
                                     false item)
                  (microtasks w2) (invocations w2) (alreadyResolved w2) (handedOver w2)).

(** [LoadablePromise.from(item, promise)]: the executor only registers the
    two functions on [promise]; they are called when it settles. *)
Definition from {L} `{Loadable L} (item : L) : Completion (World L) :=
  newLoadablePromise [] item.

(** ** subscribe *)

Definition callSubscriber {L} (w : World L) (subscriber : Subscriber) (arg : option L)
  : World L * Completion unit :=
  (mkWorld (promise w) (microtasks w) (invocations w ++ [mkInvocation subscriber arg])
           (alreadyResolved w) (handedOver w),
   if subscriberThrows subscriber then Throw (mkError Error "thrown by the subscriber")
   else Normal tt).

(** [subscribe(subscriber)]: returns [this], the object of the world it
    returns. *)
Definition subscribe {L} (w : World L) (subscriber : Subscriber)
  : World L * Completion (LoadablePromise L) :=
  let '(w1, completion) :=
    if negb (fulfilled (promise w)) then callSubscriber w subscriber (Some (item (promise w)))
    else (w, Normal tt) in
  match completion with
  | Throw e => (w1, Throw e)
  | Normal _ =>
      let w2 := fst (then_ w1 (Notify subscriber)) in
      (w2, Normal (promise w2))
  end.

(** ** Running the program *)

(** The first job of the microtask queue runs: a reaction job runs its
    continuation; the job of a thenable calls its [then] with a fresh pair
    of resolving functions (what this [then] does with them is up to it:
    see [Operation]). *)
Definition runJob {L} (w : World L) : World L :=
  match microtasks w with
  | [] => w
  | FulfillJob (Notify subscriber) itemReady :: rest =>
      fst (callSubscriber (mkWorld (promise w) rest (invocations w)
                                   (alreadyResolved w) (handedOver w))
                          subscriber (Some itemReady))
  | RejectJob (Notify subscriber) reason :: rest =>
      fst (callSubscriber (mkWorld (promise w) rest (invocations w)
                                   (alreadyResolved w) (handedOver w))
                          subscriber (reasonItem reason))
  | FulfillJob (Continuation _) _ :: rest
  | RejectJob (Continuation _) _ :: rest =>
      mkWorld (promise w) rest (invocations w) (alreadyResolved w) (handedOver w)
  | ThenableJob _ :: rest =>
      mkWorld (promise w) rest (invocations w) (alreadyResolved w) true
  end.

(** The [then] of a thenable calls the resolve function it was handed: the
    first call of the pair counts. *)
Definition thenableResolves {L} `{Loadable L} (w : World L) (value : L) : World L :=
  if handedOver w then resolvePromise (setHandedOver false w) value else w.

(** The [then] of a thenable calls the reject function it was handed, or
    throws, which makes its job call that function. *)
Definition thenableRejects {L} (w : World L) (reason : Rejection L) : World L :=
  if handedOver w then rejectPromise (setHandedOver false w) reason else w.

(** What can happen to a constructed object: a holder of the two functions
    calls one, somebody subscribes or chains, a microtask runs, the [then]
    of a thenable uses the functions it was handed. *)
Inductive Operation (L : Type) :=
| Resolve (item : L)
| Reject (item : L)
| Subscribe (subscriber : Subscriber)
| Then (continuation : nat)
| RunJob
| ThenableResolves (value : L)
| ThenableRejects (reason : Rejection L).

Arguments Resolve {L} item.
Arguments Reject {L} item.
Arguments Subscribe {L} subscriber.
Arguments Then {L} continuation.
Arguments RunJob {L}.
Arguments ThenableResolves {L} value.
Arguments ThenableRejects {L} reason.

Definition step {L} `{Loadable L} (w : World L) (op : Operation L) : World L :=
  match op with
  | Resolve item => fst (resolveWrapper true w item)
  | Reject item => fst (rejectWrapper true w item)
  | Subscribe subscriber => fst (subscribe w subscriber)
  | Then continuation => fst (then_ w (Continuation continuation))
  | RunJob => runJob w
  | ThenableResolves value => thenableResolves w value
  | ThenableRejects reason => thenableRejects w reason
  end.

Definition run {L} `{Loadable L} (ops : list (Operation L)) (w : World L) : World L :=
  fold_left step ops w.

(** The worlds a program can be in: after a construction and any operations. *)
Inductive reachable {L} `{Loadable L} : World L -> Prop :=
| reachable_new executor item w :
    newLoadablePromise executor item = Normal w -> reachable w
| reachable_step w op :
    reachable w -> reachable (step w op).

(** The arguments a subscriber was called with, in order. *)
Definition callsTo {L} (subscriber : Subscriber) (w : World L) : list (option L) :=
  map (@argument L)
      (filter (fun i => subscriber_eqb (callee i) subscriber) (invocations w)).

Definition notifies (subscriber : Subscriber) (r : Reaction) : bool :=
  match r with
  | Notify s => subscriber_eqb s subscriber
  | Continuation _ => false
  end.

(** The continuation a job runs, if it is a reaction job. *)
Definition jobReaction {L} (j : Job L) : option Reaction :=
  match j with
  | FulfillJob r _ | RejectJob r _ => Some r
  | ThenableJob _ => None
  end.

(** What the continuation of a job is called with. *)
Definition jobArgument {L} (j : Job L) : option L :=
  match j with
  | FulfillJob _ value => Some value
  | RejectJob _ reason => reasonItem reason
  | ThenableJob _ => None
  end.

Definition notifiesJob {L} (subscriber : Subscriber) (j : Job L) : bool :=
  match jobReaction j with
  | Some r => notifies subscriber r
  | None => false
  end.

(** No reaction and no job of the world calls the subscriber. *)
Definition unknownTo {L} (subscriber : Subscriber) (w : World L) : bool :=
  negb (existsb (notifies subscriber) (reactions (promise w)))
  && negb (existsb (notifiesJob subscriber) (microtasks w)).

Definition subscribes {L} (subscriber : Subscriber) (op : Operation L) : bool :=
  match op with
  | Subscribe s => subscriber_eqb s subscriber
  | _ => false
  end.

(** The item a settled promise ended with: the value, or the item of the
    LoadError. *)
Definition terminalItem {L} (s : PromiseState L) : option L :=
  match s with
  | Pending => None
  | Fulfilled value => Some value
  | Rejected reason => reasonItem reason
  end.

(** The job that tells the subscriber of the outcome [st]. *)
Definition outcomeJob {L} (subscriber : Subscriber) (st : PromiseState L) (j : Job L) : Prop :=
  match st with
  | Pending => False
  | Fulfilled value => j = FulfillJob (Notify subscriber) value
  | Rejected reason => j = RejectJob (Notify subscriber) reason
  end.

(** How far the notification of a subscriber has come, once it was called
    with the loading item after the calls [before]: its reaction waits on
    the pending promise; or the promise has settled and the job of the
    subscriber is in the queue; or the job has run, and the subscriber was
    called with what the promise settled on.  In each stage the subscriber
    occurs in one place only. *)
Inductive Delivery {L} (s : Subscriber) (before : list (option L)) (loadingItem : L)
                   (w : World L) : Prop :=
| Waiting (r1 r2 : list Reaction) :
    promiseState (promise w) = Pending ->
    reactions (promise w) = r1 ++ Notify s :: r2 ->
    existsb (notifies s) r1 = false ->
    existsb (notifies s) r2 = false ->
    existsb (notifiesJob s) (microtasks w) = false ->
    callsTo s w = before ++ [Some loadingItem] ->
    Delivery s before loadingItem w
| Queued (j1 j2 : list (Job L)) (job : Job L) :
    reactions (promise w) = [] ->
    microtasks w = j1 ++ job :: j2 ->
    outcomeJob s (promiseState (promise w)) job ->
    existsb (notifiesJob s) j1 = false ->
    existsb (notifiesJob s) j2 = false ->
    callsTo s w = before ++ [Some loadingItem] ->
    Delivery s before loadingItem w
| Delivered :
    promiseState (promise w) <> Pending ->
    reactions (promise w) = [] ->
    existsb (notifiesJob s) (microtasks w) = false ->
    callsTo s w = before ++ [Some loadingItem; terminalItem (promiseState (promise w))] ->
    Delivery s before loadingItem w.

Definition isThenableJob {L} (j : Job L) : bool :=
  match j with ThenableJob _ => true | _ => false end.

(** Nothing has been resolved yet: the promise is pending, the flag of the
    resolving functions is unset, and no thenable is in play. *)
Definition untouched {L} (w : World L) : Prop :=
  promiseState (promise w) = Pending /\
  alreadyResolved w = false /\
  handedOver w = false /\
  existsb isThenableJob (microtasks w) = false.

(** An item that fulfils a promise at once: its [then] is not callable. *)
Definition fulfilsAtOnce {L} `{Loadable L} (t : L) : bool :=
  match getThen t with
  | Normal thenAction => negb (isFunction thenAction)
  | Throw _ => false
  end.

(** An operation that hands the resolve function a ready item which does
    not fulfil at once: a thenable, or an item whose [then] cannot be
    read. *)
Definition adopts {L} `{Loadable L} (op : Operation L) : bool :=
  match op with
  | Resolve t =>
      match getStatus t with
      | Normal status => ready status && negb (fulfilsAtOnce t)
      | Throw _ => false
      end
  | _ => false
  end.

(** A rejection that is a LoadError made from a failed item. *)
Definition carriesFailedItem {L} `{Loadable L} (reason : Rejection L) : Prop :=
  exists (t : L) (status : Status) (e : ErrorObject),
    getStatus t = Normal status /\ error status = Some e /\
    reason = newLoadError (Some e) t.

(** Every rejection of the world, delivered or still to be delivered, is
    such a LoadError. *)
Definition rejectsWithLoadErrors {L} `{Loadable L} (w : World L) : Prop :=
  (forall reason, promiseState (promise w) = Rejected reason -> carriesFailedItem reason) /\
  (forall r reason, In (RejectJob r reason) (microtasks w) -> carriesFailedItem reason).

(* ================================================================== *)
(** * Vocabulary of the properties *)
(* ================================================================== *)

(** The name under which a Date answers an accessor. *)

Definition accessorName (a : DateAccessor) : string :=
  match a with
  | getTime => "getTime"
  | getFullYear => "getFullYear"
  | getMonth => "getMonth"
  | getDate => "getDate"
  | getHours => "getHours"
  | getMinutes => "getMinutes"
  end.

(** What [get] answers for a property value: a function is bound to the
    body when the body is a String, Number, Date or RegExp instance. *)
Definition cannotProxy (body : Value) : bool :=
  instanceof body StringC || instanceof body NumberC
  || instanceof body DateC || instanceof body RegExpC.

Definition delegated (body : Value) (v : Value) : Value :=
  if isFunction v && cannotProxy body then VBound v body else v.

(** A key that is not an index of a String: a symbol, or a name that does
    not read as a numeral. *)
Definition notIndex (k : PropertyKey) : Prop :=
  match k with
  | KString name => NilZero.uint_of_string name = None
  | KSymbol _ => True
  end.

(** The rebuild access point gives back what it was given: the item and the
    status of a reconstructed Loadable are the arguments of the
    reconstruction. *)
Definition rebuildsFaithfully (L : Type) {H : Loadable L} : Prop :=
  forall (l l' : L) (item : Value) (status : Status),
    construct l item status = Normal l' ->
    getItem l' = Normal item /\ getStatus l' = Normal status.

Arguments rebuildsFaithfully L {H}.

(** The fields a copy of a wrapper takes from the body: its enumerable own
    properties that no extension field shadows, as [get] answers them. *)
Definition copiedFields (body : Value) (extension : Properties)
  : list (PropertyKey * Value) :=
  map (fun kp => (fst kp, delegated body (value (snd kp))))
      (filter (fun kp => enumerable (snd kp) && negb (hasOwnProperty extension (fst kp)))
              (ownProperties body)).

(** The keys [Object.keys] lists for a wrapper: those of the copied fields
    that are strings. *)
Definition listedKeys (body : Value) (extension : Properties) : list PropertyKey :=
  map fst
      (filter (fun kp => isStringKey (fst kp) && enumerable (snd kp)
                         && negb (hasOwnProperty extension (fst kp)))
              (ownProperties body)).

Definition allConfigurable (props : Properties) : bool :=
  forallb (fun kp => configurable (snd kp)) props.

Definition readyStatus : Status := {| ready := true; loading := false; error := None |}.

(** The values of the tests. *)
Definition john : Value := objectLiteral [(KString "name", VString "john")].
Definition alice : Value := objectLiteral [(KString "name", VString "alice")].

Definition loadingPatch_ : PartialStatus :=
  {| readyPatch := None; loadingPatch := Some true; errorPatch := None |}.
Definition readyPatch_ : PartialStatus :=
  {| readyPatch := Some true; loadingPatch := None; errorPatch := None |}.

(** ** [registerProxyFormatter]: the [header] of the formatter *)

(** What the formatter is shown: a value, or a wrapper. *)
Inductive Ref :=
| RefValue (v : Value)
| RefProxy (p : Proxy).

(** The header [['object', { object: o }]]. *)
Inductive JsonML := ObjectTag (object : Value).

(** [x.body]: a TypeError on [undefined] and [null], the property of an
    object, [undefined] on the other values (which have no such property). *)
Definition readBody (x : Value) : Completion Value :=
  match x with
  | VUndefined | VNull => throwTypeError "Cannot read properties of undefined (reading 'body')"
  | VObject _ _ _ => Normal (getProperty x (KString "body"))
  | _ => Normal VUndefined
  end.

(** [formatter.header(value)]; [None] is [null]. *)
Definition header (value : Ref) : Completion (option JsonML) :=
  match value with
  | RefValue v =>
      if negb (isObject v) || negb (hasProperty v proxyKey) then Normal None
      else
        object <- readBody (getProperty v proxyKey) ;;
        Normal (Some (ObjectTag object))
  | RefProxy p =>
      present <- ProxyObject.HasProperty p proxyKey ;;
      if negb present then Normal None
      else
        x <- ProxyObject.Get p proxyKey ;;
        object <- readBody x ;;
        Normal (Some (ObjectTag object))
  end.

(** ** More vocabulary *)

(** The body [ProxyWrapper] makes of a value it accepts. *)
Definition boxed (v : Value) : Value :=
  match v with
  | VString s => newString s
  | VNumber n => newNumber n
  | _ => v
  end.

(** Every own property of the body is configurable or shadowed by an
    extension field. *)
Definition unshadowedConfigurable (body : Value) (extension : Properties) : bool :=
  forallb (fun kp => hasOwnProperty extension (fst kp) || configurable (snd kp))
          (ownProperties body).

(** Running the jobs that are in the queue. *)
Definition drain {L} `{Loadable L} (w : World L) : World L :=
  run (repeat RunJob (List.length (microtasks w))) w.

(** The calls the jobs of a queue make. *)
Definition jobCalls {L} (jobs : list (Job L)) : list (Invocation L) :=
  flat_map (fun j => match jobReaction j with
                     | Some (Notify s) => [mkInvocation s (jobArgument j)]
                     | _ => []
                     end) jobs.

(** An object with a [then] method, and a failed status. *)
Definition thenable : Value :=
  objectLiteral [(KString "then", VFunction (Other "then"))].

Definition failure : ErrorObject := mkError Error "fail".

(** The object that [LoadableProxy] returns for an item that is an
    object. *)
Definition proxyOf (item : Value) (status : PartialStatus) : Proxy :=
  mkProxy (mkTarget item (loadableExtension item (mergeStatus defaultStatus status))) true.

Definition failedPatch_ : PartialStatus :=
  {| readyPatch := None; loadingPatch := None; errorPatch := Some (Some failure) |}.

(* ================================================================== *)
(** * Properties *)
(* ================================================================== *)

(** ** Keys and lookups *)

Lemma key_eqb_eq a b : key_eqb a b = true <-> a = b.
Proof.
  destruct a as [s|s], b as [t|t]; simpl; split; intros E;
    try discriminate; try (apply String.eqb_eq in E; now subst);
    try (inversion E; subst; apply String.eqb_refl).
Qed.

Lemma key_eqb_refl k : key_eqb k k = true.
Proof. now apply key_eqb_eq. Qed.

Lemma key_eqb_neq a b : key_eqb a b = false <-> a <> b.
Proof.
  split.
  - intros E ->. now rewrite key_eqb_refl in E.
  - intros N. destruct (key_eqb a b) eqn:E; [|reflexivity].
    apply key_eqb_eq in E. contradiction.
Qed.

Lemma lookup_app {A} k (l1 l2 : list (PropertyKey * A)) :
  lookup k (l1 ++ l2) =
  match lookup k l1 with Some a => Some a | None => lookup k l2 end.
Proof.
  induction l1 as [|[k' a] l1 IH]; simpl; [reflexivity|].
  destruct (key_eqb k k'); [reflexivity|apply IH].
Qed.

Lemma existsb_key_In k l : existsb (key_eqb k) l = true <-> In k l.
Proof.
  rewrite existsb_exists. split.
  - intros [x [I E]]. apply key_eqb_eq in E. now subst.
  - intros I. exists k. split; [assumption|apply key_eqb_refl].
Qed.

Lemma hasDuplicates_NoDup l : hasDuplicates l = false <-> NoDup l.
Proof.
  induction l as [|k l IH]; simpl.
  - split; [constructor|reflexivity].
  - rewrite orb_false_iff, IH. split.
    + intros [E N]. constructor; [|assumption].
      intros I. apply existsb_key_In in I. congruence.
    + intros N. inversion N as [|? ? NI ND]; subst. split; [|assumption].
      destruct (existsb (key_eqb k) l) eqn:E; [|reflexivity].
      apply existsb_key_In in E. contradiction.
Qed.

(** A name that does not read as a numeral is not an index of a String. *)
Lemma decimal_reads_as_numeral n : NilZero.uint_of_string (decimal n) <> None.
Proof.
  unfold decimal. destruct (NilZero.usu_gen (Nat.to_uint n)) as [E|E];
    rewrite E; discriminate.
Qed.

Lemma lookup_indexProperties k : notIndex k ->
  forall s i, lookup k (indexProperties i s) = None.
Proof.
  intros N s. induction s as [|c s IH]; intros i; simpl; [reflexivity|].
  destruct (key_eqb k (KString (decimal i))) eqn:E; [|apply IH].
  apply key_eqb_eq in E. subst k. simpl in N.
  now apply decimal_reads_as_numeral in N.
Qed.

Lemma newString_own k s :
  notIndex k -> k <> KString "length" ->
  lookup k (ownProperties (newString s)) = None.
Proof.
  intros N L. simpl. rewrite lookup_app, lookup_indexProperties by assumption.
  simpl. apply key_eqb_neq in L. now rewrite L.
Qed.

(** ** Status objects *)

Lemma toStatus_statusValue s : toStatus (statusValue s) = s.
Proof. destruct s as [r l [e|]]; reflexivity. Qed.

Lemma mergeStatus_fullPatch s s' : mergeStatus s (fullPatch s') = s'.
Proof. destruct s'; reflexivity. Qed.

Lemma mergeStatus_noPatch s : mergeStatus s noPatch = s.
Proof. destruct s; reflexivity. Qed.

(** ** Reading the access points of a LoadableProxy *)

Lemma LoadableProxy_unfold item status :
  LoadableProxy item status =
  ProxyWrapper (if isUndefined item then VNull else item)
               (loadableExtension item (mergeStatus defaultStatus status)).
Proof. reflexivity. Qed.

Lemma ProxyWrapper_Normal value ext p :
  ProxyWrapper value ext = Normal p ->
  extension (target p) = ext /\ targetExtensible p = true /\
  isFunction value = false /\
  (body (target p) = VNull \/ isObject (body (target p)) = true).
Proof.
  destruct value; simpl; intros E; try discriminate; inversion E; subst; simpl; auto.
Qed.

Lemma Get_statusKey b item status x :
  ProxyObject.Get (mkProxy (mkTarget b (loadableExtension item status)) x) statusKey
  = Normal (statusValue status).
Proof. reflexivity. Qed.

Lemma Get_itemKey b item status x :
  isFunction item = false ->
  ProxyObject.Get (mkProxy (mkTarget b (loadableExtension item status)) x) itemKey
  = Normal item.
Proof.
  intros F. destruct item; try discriminate F; reflexivity.
Qed.

Lemma LoadableProxy_access item status p :
  LoadableProxy item status = Normal p ->
  getItem p = Normal item /\
  getStatus p = Normal (mergeStatus defaultStatus status).
Proof.
  rewrite LoadableProxy_unfold. intros E.
  assert (F : isFunction item = false).
  { destruct item; simpl in E; try discriminate; reflexivity. }
  apply ProxyWrapper_Normal in E. destruct E as [Ex _].
  destruct p as [[b e] x]. simpl in Ex. subst e.
  cbn [getItem getStatus LoadableProxy_Loadable].
  rewrite Get_statusKey, Get_itemKey by assumption.
  cbn [bind]. now rewrite toStatus_statusValue.
Qed.

(** C6.  The LoadableProxy constructor fails with a type error for a boolean
    and for a symbol; it accepts [undefined], giving a Loadable whose item is
    absent and whose status is the default one (or the default one with the
    given patch), and it accepts [null], giving a Loadable whose item is
    present and [null]. *)
Theorem LoadableProxy_rejects_boolean_symbol_accepts_undefined_null :
  (forall b status, throwsTypeError (LoadableProxy (VBoolean b) status) = true) /\
  (forall d status, throwsTypeError (LoadableProxy (VSymbol d) status) = true) /\
  (exists p, LoadableProxy VUndefined noPatch = Normal p /\
             getItem p = Normal VUndefined /\
             getStatus p = Normal defaultStatus) /\
  (forall status, exists p,
      LoadableProxy VUndefined status = Normal p /\
      getItem p = Normal VUndefined /\
      getStatus p = Normal (mergeStatus defaultStatus status)) /\
  (forall status, exists p,
      LoadableProxy VNull status = Normal p /\
      getItem p = Normal VNull /\
      isUndefined VNull = false).
Proof.
  assert (U : forall status, exists p,
             LoadableProxy VUndefined status = Normal p /\
             getItem p = Normal VUndefined /\
             getStatus p = Normal (mergeStatus defaultStatus status)).
  { intros status. eexists. split; [reflexivity|].
    eapply LoadableProxy_access. reflexivity. }
  split; [|split; [|split; [|split]]].
  - reflexivity.
  - reflexivity.
  - destruct (U noPatch) as [p [E [I S]]]. exists p.
    rewrite mergeStatus_noPatch in S. auto.
  - exact U.
  - intros status. eexists. split; [reflexivity|]. split; [|reflexivity].
    eapply LoadableProxy_access. reflexivity.
Qed.

(** ** The [get] trap *)

Lemma get_extension t k :
  hasOwnProperty (extension t) k = true ->
  handlerMethods.get t k = Normal (delegated (body t) (extensionProperty (extension t) k)).
Proof.
  intros H. unfold handlerMethods.get, delegated, cannotProxy. rewrite H. cbn [bind].
  destruct (isFunction (extensionProperty (extension t) k)); [|reflexivity].
  cbn [andb].
  destruct (instanceof (body t) StringC || instanceof (body t) NumberC
            || instanceof (body t) DateC || instanceof (body t) RegExpC); reflexivity.
Qed.

Lemma get_body t k :
  hasOwnProperty (extension t) k = false ->
  isObject (body t) = true ->
  hasProperty (body t) k = true ->
  handlerMethods.get t k = Normal (delegated (body t) (getProperty (body t) k)).
Proof.
  intros H O P. unfold handlerMethods.get, delegated, cannotProxy.
  rewrite H, O, P. cbn [andb bind].
  destruct (isFunction (getProperty (body t) k)); [|reflexivity].
  cbn [andb].
  destruct (instanceof (body t) StringC || instanceof (body t) NumberC
            || instanceof (body t) DateC || instanceof (body t) RegExpC); reflexivity.
Qed.

Lemma get_absent t k :
  hasOwnProperty (extension t) k = false ->
  hasProperty (body t) k = false ->
  key_eqb k (KString "toJSON") = false ->
  key_eqb k nodeInspectCustom = false ->
  key_eqb k proxyKey = false ->
  handlerMethods.get t k = Normal VUndefined.
Proof.
  intros H P J N X. unfold handlerMethods.get.
  rewrite H, P, J, N, X, andb_false_r. reflexivity.
Qed.

Lemma getProperty_inherited slot own inh k v :
  lookup k own = None -> lookup k inh = Some v ->
  hasProperty (VObject slot own inh) k = true /\
  getProperty (VObject slot own inh) k = v.
Proof.
  intros O I. unfold hasProperty, getProperty, hasKey. simpl. now rewrite O, I.
Qed.

Lemma hasProperty_absent slot own inh k :
  lookup k own = None -> lookup k inh = None ->
  hasProperty (VObject slot own inh) k = false.
Proof.
  intros O I. unfold hasProperty, hasKey. simpl. now rewrite O, I.
Qed.

(** Reading a method a boxed String inherits, through a LoadableProxy. *)
Lemma Get_newString_inherited s item status x k v :
  notIndex k -> k <> KString "length" ->
  hasOwnProperty (loadableExtension item status) k = false ->
  lookup k String_prototype = Some v ->
  ProxyObject.Get (mkProxy (mkTarget (newString s) (loadableExtension item status)) x) k
  = Normal (delegated (newString s) v).
Proof.
  intros N L E I. unfold ProxyObject.Get. cbn [target].
  pose proof (newString_own s N L) as O.
  destruct (getProperty_inherited (StringData s) _ String_prototype k O I) as [P G].
  change (VObject (StringData s) (ownProperties (newString s)) String_prototype)
    with (newString s) in P, G.
  rewrite get_body; cbn [body extension]; try assumption; try reflexivity.
  now rewrite G.
Qed.

Lemma Get_newString_toPrimitive s item status x :
  ProxyObject.Get (mkProxy (mkTarget (newString s) (loadableExtension item status)) x)
                  toPrimitiveKey
  = Normal VUndefined.
Proof.
  unfold ProxyObject.Get. cbn [target].
  apply get_absent; try reflexivity. cbn [body].
  apply hasProperty_absent; [|reflexivity].
  apply newString_own; [exact I|discriminate].
Qed.

(** C9.  A LoadableProxy over a primitive string coerces and stringifies to
    that string, one over a primitive number coerces to that number, and one
    over a Date answers its accessor methods as the Date itself does: the
    primitive is boxed, and the method read through the wrapper is bound to
    the boxed value (called on the wrapper itself it would throw).  In
    particular this holds for "foo" and for 42. *)
Theorem LoadableProxy_coerces_like_its_item :
  (forall s status, exists p,
      LoadableProxy (VString s) status = Normal p /\
      body (target p) = newString s /\
      String_ p = Some (Normal (VString s)) /\
      invoke p "toString" = Some (Normal (VString s)) /\
      ProxyObject.Get p (KString "toString")
        = Normal (VBound (VFunction String_toString) (newString s)) /\
      Call (VFunction String_toString) (ThisProxy p)
        = Some (throwTypeError "String.prototype.valueOf requires that 'this' be a String")) /\
  (forall n status, exists p,
      LoadableProxy (VNumber n) status = Normal p /\
      body (target p) = newNumber n /\
      Number_ p = Some (Normal (VNumber n)) /\
      invoke p "valueOf" = Some (Normal (VNumber n)) /\
      ProxyObject.Get p (KString "valueOf")
        = Normal (VBound (VFunction Number_valueOf) (newNumber n))) /\
  (forall d a status, exists p,
      LoadableProxy (newDate d) status = Normal p /\
      invoke p (accessorName a)
        = Call (getProperty (newDate d) (KString (accessorName a))) (ThisValue (newDate d)) /\
      invoke p (accessorName a) = Some (Normal (VNumber (readDate a d))) /\
      ProxyObject.Get p (KString (accessorName a))
        = Normal (VBound (VFunction (Date_accessor a)) (newDate d))) /\
  (exists p, LoadableProxy (VString "foo") noPatch = Normal p /\
             String_ p = Some (Normal (VString "foo")) /\
             invoke p "toString" = Some (Normal (VString "foo"))) /\
  (exists p, LoadableProxy (VNumber 42) noPatch = Normal p /\
             Number_ p = Some (Normal (VNumber 42))).
Proof.
  split; [|split; [|split; [|split]]].
  - intros s status. eexists. split; [reflexivity|]. split; [reflexivity|].
    assert (G : ProxyObject.Get
                  (mkProxy (mkTarget (newString s)
                     (loadableExtension (VString s) (mergeStatus defaultStatus status))) true)
                  (KString "toString")
                = Normal (VBound (VFunction String_toString) (newString s))).
    { rewrite Get_newString_inherited with (v := VFunction String_toString);
        try reflexivity. discriminate. }
    split; [|split; [|split]].
    + unfold String_, ToPrimitive. rewrite Get_newString_toPrimitive.
      cbn [andThen OrdinaryToPrimitive]. rewrite G. reflexivity.
    + unfold invoke. rewrite G. reflexivity.
    + exact G.
    + reflexivity.
  - intros n status. eexists. repeat (split; [reflexivity|]). reflexivity.
  - intros d a status. eexists. split; [reflexivity|].
    destruct a; repeat (split; [reflexivity|]); reflexivity.
  - eexists. repeat (split; [reflexivity|]). reflexivity.
  - eexists. split; reflexivity.
Qed.

(** C7.  Every wrapper rejects an assignment, a deletion, a property
    definition and [Object.setPrototypeOf] with a TypeError.  Asking a
    wrapper made by [ProxyWrapper] whether it is extensible does not answer
    [false]: the trap answers [false] for a target that is extensible, and
    the Proxy turns the disagreement into a TypeError.  ([false] is answered
    only after [Object.preventExtensions], which the wrapper lets through.) *)
Theorem wrapper_rejects_mutation_and_isExtensible_throws :
  (forall strict p P V, throwsTypeError (assign strict p P V) = true) /\
  (forall strict p P, throwsTypeError (delete strict p P) = true) /\
  (forall p P Desc, throwsTypeError (Object_defineProperty p P Desc) = true) /\
  (forall p proto, throwsTypeError (Object_setPrototypeOf p proto) = true) /\
  (forall p proto, Reflect_setPrototypeOf p proto = Normal false) /\
  (forall body extension,
      (p <- Object_preventExtensions (mkProxy (mkTarget body extension) true) ;;
       Object_isExtensible p) = Normal false) /\
  (forall body extension,
      Object_isExtensible (mkProxy (mkTarget body extension) true)
      = throwTypeError "'isExtensible' on proxy: trap result does not reflect extensibility of proxy target") /\
  (exists p, ProxyWrapper (objectLiteral [(KString "x", VNumber 42)]) [] = Normal p /\
             targetExtensible p = true /\
             returns (Object_isExtensible p) = false /\
             throwsTypeError (Object_isExtensible p) = true).
Proof.
  repeat (split; [reflexivity|]).
  eexists. repeat (split; [reflexivity|]). reflexivity.
Qed.

(** C10.  [then] and [catch] on a LoadablePromise make their result with the
    species of LoadablePromise, which is the plain Promise constructor: the
    derived promise has no [subscribe] method and no [item], and chaining on
    it stays with plain promises. *)
Theorem then_yields_plain_Promise :
  species LoadablePromiseC = PromiseC /\
  forall (L : Type) (w : World L) (r : Reaction),
    constructedBy (snd (then_ w r)) = PromiseC /\
    constructedBy (snd (catch_ w r)) = PromiseC /\
    hasMember (constructedBy (snd (then_ w r))) "subscribe" = false /\
    hasMember (constructedBy (snd (then_ w r))) "item" = false /\
    hasMember (constructedBy (snd (catch_ w r))) "subscribe" = false /\
    hasMember (constructedBy (snd (catch_ w r))) "item" = false /\
    hasMember (constructedBy (snd (then_ w r))) "then" = true /\
    species (constructedBy (snd (then_ w r))) = PromiseC.
Proof.
  split; [reflexivity|]. intros L w r. unfold catch_, then_.
  destruct (promiseState (promise w)); repeat split; reflexivity.
Qed.

(** ** Construction of a LoadablePromise *)

(** Inside the executor the two functions throw before they reach the
    promise: nothing an executor does at once changes the world. *)
Lemma resolveWrapper_uninitialised {L} `{Loadable L} (w : World L) t :
  fst (resolveWrapper false w t) = w /\ exists e, snd (resolveWrapper false w t) = Throw e.
Proof.
  unfold resolveWrapper. destruct (getStatus t) as [st|e]; [|cbn; split; [reflexivity|eexists; reflexivity]].
  destruct (negb (ready st)); cbn; (split; [reflexivity|eexists; reflexivity]).
Qed.

Lemma rejectWrapper_uninitialised {L} `{Loadable L} (w : World L) t :
  fst (rejectWrapper false w t) = w /\ exists e, snd (rejectWrapper false w t) = Throw e.
Proof.
  unfold rejectWrapper. destruct (getStatus t) as [st|e]; [|cbn; split; [reflexivity|eexists; reflexivity]].
  destruct (error st); cbn; (split; [reflexivity|eexists; reflexivity]).
Qed.

Lemma runAction_world {L} `{Loadable L} (action : ExecutorAction L) (w : World L) :
  fst (runAction action w) = w.
Proof.
  induction action as [t|t|e|action IH]; cbn [runAction fst].
  - apply resolveWrapper_uninitialised.
  - apply rejectWrapper_uninitialised.
  - reflexivity.
  - exact IH.
Qed.

Lemma runExecutor_world {L} `{Loadable L} (executor : Executor L) (w : World L) :
  fst (runExecutor executor w) = w.
Proof.
  induction executor as [|action rest IH]; [reflexivity|].
  cbn [runExecutor]. pose proof (runAction_world action w) as A.
  destruct (runAction action w) as [w' [u|e]]; cbn [fst] in A; subst w'.
  - exact IH.
  - reflexivity.
Qed.

Lemma newLoadablePromise_returns {L} `{Loadable L} (executor : Executor L) (loadingItem0 : L) :
  exists w, newLoadablePromise executor loadingItem0 = Normal w /\
            fulfilled (promise w) = false /\
            item (promise w) = loadingItem0 /\
            invocations w = [] /\
            reactions (promise w) = [] /\
            microtasks w = [] /\
            handedOver w = false /\
            ((promiseState (promise w) = Pending /\ alreadyResolved w = false) \/
             exists e, promiseState (promise w) = Rejected (Raised e)).
Proof.
  unfold newLoadablePromise.
  set (w0 := mkWorld (mkLoadablePromise Pending [] false loadingItem0) [] [] false false).
  destruct (match getStatus loadingItem0 with
            | Normal status =>
                if negb (loading status)
                then (w0, throwTypeError _)
                else runExecutor executor w0
            | Throw e => (w0, Throw e)
            end) as [w1 c] eqn:E.
  assert (K : w1 = w0).
  { destruct (getStatus loadingItem0) as [status|e].
    - destruct (negb (loading status)).
      + now inversion E.
      + pose proof (runExecutor_world executor w0) as X. rewrite E in X. exact X.
    - now inversion E. }
  subst w1. eexists. split; [reflexivity|].
  destruct c as [u|e]; cbn; repeat (split; [reflexivity|]); eauto.
Qed.

(** C2.  Constructing a LoadablePromise from a Loadable whose status has
    [loading = false] does not throw at the call site: the TypeError is
    thrown inside the function given to [super], so the constructor returns
    an object that is already rejected with it.  A later [subscribe] then
    delivers the item that is not loading, although the source notes that
    the check in the constructor guarantees the loading state there. *)
Theorem newLoadablePromise_not_loading_returns_rejected :
  forall (L : Type) (H : Loadable L) (executor : Executor L) (loadingItem0 : L) (status : Status),
    getStatus loadingItem0 = Normal status ->
    loading status = false ->
    exists w,
      newLoadablePromise executor loadingItem0 = Normal w /\
      throwsTypeError (newLoadablePromise executor loadingItem0) = false /\
      promiseState (promise w)
        = Rejected (Raised (mkError TypeError
                              "Expected item with status loading, given ${item[statusKey]}")) /\
      item (promise w) = loadingItem0 /\
      forall s, invocations (fst (subscribe w s)) = [mkInvocation s (Some loadingItem0)].
Proof.
  intros L H executor loadingItem0 status S Ld.
  unfold newLoadablePromise. rewrite S, Ld. cbn.
  eexists. repeat (split; [reflexivity|]).
  intros [id [|]]; reflexivity.
Qed.

Lemma newLoadablePromise_not_loading_witness :
  exists w,
    newLoadablePromise [CallResolve (LoadableRecord john readyPatch_)]
                       (LoadableRecord john readyPatch_) = Normal w /\
    promiseState (promise w)
      = Rejected (Raised (mkError TypeError
                            "Expected item with status loading, given ${item[statusKey]}")).
Proof.
  destruct (newLoadablePromise_not_loading_returns_rejected
              LoadableRecord_Loadable
              [CallResolve (LoadableRecord john readyPatch_)]
              (LoadableRecord john readyPatch_)
              (status := mergeStatus defaultStatus readyPatch_)
              eq_refl eq_refl) as [w [E [_ [R _]]]].
  exists w. split; assumption.
Defined.

(** ** Transition operations *)

Lemma LoadableRecord_rebuildsFaithfully : rebuildsFaithfully LoadableRecordT.
Proof.
  intros l l' i status E. cbn in E. inversion E; subst. cbn.
  now rewrite mergeStatus_fullPatch.
Qed.

Lemma LoadableProxy_rebuildsFaithfully : rebuildsFaithfully Proxy.
Proof.
  intros l l' i status E. cbn [construct LoadableProxy_Loadable] in E.
  apply LoadableProxy_access in E. now rewrite mergeStatus_fullPatch in E.
Qed.

(** C4.  [markReady(L, newItem?)] takes [newItem] as the final item when it
    is not [undefined] and the current item of [L] otherwise; it fails with
    a TypeError when the final item is [undefined]; otherwise it is the
    reconstruction, by [L] itself, of the final item with the status
    [{ready: true, loading: false, error: null}], so a Loadable that
    reconstructs faithfully answers with that item and that status. *)
Theorem markReady_final_item :
  forall (L : Type) (H : Loadable L) (l : L) (newItem currentItem : Value),
    getItem l = Normal currentItem ->
    let finalItem := if isUndefined newItem then currentItem else newItem in
    (isUndefined finalItem = true -> throwsTypeError (markReady l newItem) = true) /\
    (isUndefined finalItem = false ->
       markReady l newItem = construct l finalItem readyStatus /\
       (rebuildsFaithfully L -> forall l',
           markReady l newItem = Normal l' ->
           getItem l' = Normal finalItem /\ getStatus l' = Normal readyStatus)).
Proof.
  intros L H l newItem currentItem G finalItem.
  assert (E : markReady l newItem =
              if isUndefined finalItem then throwTypeError "Cannot mark as ready: no item"
              else construct l finalItem readyStatus).
  { unfold markReady, finalItem.
    destruct (isUndefined newItem) eqn:U; cbn [negb]; [rewrite G|]; cbn [bind];
      [reflexivity|]. now rewrite U. }
  split; intros U; rewrite E, U; [reflexivity|].
  split; [reflexivity|]. intros F l' C. exact (F _ _ _ _ C).
Qed.

Lemma markReady_final_item_witness :
  throwsTypeError (markReady (LoadableRecord VUndefined noPatch) VUndefined) = true /\
  markReady (LoadableRecord john noPatch) VUndefined
    = Normal (mkRecord john readyStatus) /\
  markReady (LoadableRecord john noPatch) alice
    = Normal (mkRecord alice readyStatus) /\
  (forall p q, LoadableProxy john noPatch = Normal p -> markReady p alice = Normal q ->
     getItem q = Normal alice /\ getStatus q = Normal readyStatus).
Proof.
  split; [|split; [|split]].
  - apply (markReady_final_item LoadableRecord_Loadable
             (LoadableRecord VUndefined noPatch) VUndefined (currentItem := VUndefined)
             eq_refl).
    reflexivity.
  - apply (markReady_final_item LoadableRecord_Loadable
             (LoadableRecord john noPatch) VUndefined (currentItem := john) eq_refl).
    reflexivity.
  - apply (markReady_final_item LoadableRecord_Loadable
             (LoadableRecord john noPatch) alice (currentItem := john) eq_refl).
    reflexivity.
  - intros p q E M.
    destruct (LoadableProxy_access _ _ E) as [I _].
    destruct (markReady_final_item LoadableProxy_Loadable p alice I) as [_ K].
    destruct (K eq_refl) as [_ F].
    exact (F LoadableProxy_rebuildsFaithfully q M).
Defined.

(** C5.  [markLoading(L)] is the reconstruction of the current item with
    [{ready: currentItem !== undefined, loading: true, error: null}], and
    [markFailed(L, reason)] the reconstruction of the current item with
    [{ready: currentItem !== undefined, loading: false, error: reason}]: the
    item is kept, a previous error is cleared by [markLoading], and [ready]
    tells exactly whether an item is present. *)
Theorem markLoading_markFailed_keep_item :
  forall (L : Type) (H : Loadable L) (l : L) (currentItem : Value) (reason : ErrorObject),
    getItem l = Normal currentItem ->
    markLoading l
      = construct l currentItem
          {| ready := negb (isUndefined currentItem); loading := true; error := None |} /\
    markFailed l reason
      = construct l currentItem
          {| ready := negb (isUndefined currentItem); loading := false;
             error := Some reason |} /\
    (rebuildsFaithfully L ->
       (forall l', markLoading l = Normal l' ->
          getItem l' = Normal currentItem /\
          exists status, getStatus l' = Normal status /\
            (ready status = true <-> currentItem <> VUndefined) /\
            loading status = true /\ error status = None) /\
       (forall l', markFailed l reason = Normal l' ->
          getItem l' = Normal currentItem /\
          exists status, getStatus l' = Normal status /\
            (ready status = true <-> currentItem <> VUndefined) /\
            loading status = false /\ error status = Some reason)).
Proof.
  intros L H l currentItem reason G.
  assert (U : negb (isUndefined currentItem) = true <-> currentItem <> VUndefined).
  { destruct currentItem; cbn; split; congruence. }
  unfold markLoading, markFailed. rewrite G. cbn [bind].
  split; [reflexivity|]. split; [reflexivity|].
  intros F. split; intros l' C; destruct (F _ _ _ _ C) as [I S];
    (split; [exact I|]); eexists; (split; [exact S|]); cbn; auto.
Qed.

Lemma markLoading_markFailed_witness :
  markLoading (LoadableRecord john noPatch)
    = Normal (mkRecord john {| ready := true; loading := true; error := None |}) /\
  markFailed (LoadableRecord john noPatch) (mkError Error "fail")
    = Normal (mkRecord john {| ready := true; loading := false;
                               error := Some (mkError Error "fail") |}) /\
  (forall l', markLoading (LoadableRecord VUndefined readyPatch_) = Normal l' ->
     getItem l' = Normal VUndefined /\
     exists status, getStatus l' = Normal status /\ ready status <> true).
Proof.
  destruct (markLoading_markFailed_keep_item LoadableRecord_Loadable
              (LoadableRecord john noPatch) (currentItem := john)
              (mkError Error "fail") eq_refl) as [A [B _]].
  split; [exact A|]. split; [exact B|].
  intros l' M.
  destruct (markLoading_markFailed_keep_item LoadableRecord_Loadable
              (LoadableRecord VUndefined readyPatch_) (currentItem := VUndefined)
              (mkError Error "fail") eq_refl) as [_ [_ F]].
  destruct (F LoadableRecord_rebuildsFaithfully) as [F1 _].
  destruct (F1 l' M) as [I [status [S [R _]]]].
  split; [exact I|]. exists status. split; [exact S|].
  intros T. apply R in T. now apply T.
Defined.

(** The tests of the transitions on the proxy representation. *)

Example transitions_proxy_tests :
  (p <- LoadableProxy john noPatch ;; q <- markLoading p ;; s <- getStatus q ;;
   f <- spread q ;; Normal (s, f))
    = Normal ({| ready := true; loading := true; error := None |},
              [(KString "name", VString "john")]) /\
  (p <- LoadableProxy john noPatch ;; q <- markReady p alice ;; s <- getStatus q ;;
   f <- spread q ;; Normal (s, f))
    = Normal (readyStatus, [(KString "name", VString "alice")]) /\
  (p <- LoadableProxy john noPatch ;; q <- markFailed p (mkError Error "fail") ;;
   s <- getStatus q ;; f <- spread q ;; Normal (s, f))
    = Normal ({| ready := true; loading := false; error := Some (mkError Error "fail") |},
              [(KString "name", VString "john")]) /\
  (p <- LoadableProxy VUndefined noPatch ;; q <- update p alice loadingPatch_ ;;
   s <- getStatus q ;; f <- spread q ;; Normal (s, f))
    = Normal ({| ready := false; loading := true; error := None |},
              [(KString "name", VString "alice")]).
Proof. repeat split. Qed.

(** ** Listing and copying a wrapper *)

Lemma lookup_NoDup {A} (l : list (PropertyKey * A)) k a :
  NoDup (map fst l) -> In (k, a) l -> lookup k l = Some a.
Proof.
  induction l as [|[k' a'] l IH]; simpl; intros N I; [contradiction|].
  inversion N as [|? ? NI ND]; subst.
  destruct I as [E|I].
  - inversion E; subst. now rewrite key_eqb_refl.
  - destruct (key_eqb k k') eqn:E.
    + apply key_eqb_eq in E. subst. exfalso. apply NI.
      change k' with (fst (k', a)). now apply in_map.
    + now apply IH.
Qed.

Lemma GetOwnProperty_extension t k :
  hasOwnProperty (extension t) k = true ->
  ProxyObject.GetOwnProperty (mkProxy t true) k
  = Normal (Some {| value := extensionProperty (extension t) k;
                    writable := false; enumerable := false; configurable := true |}).
Proof.
  intros H. unfold ProxyObject.GetOwnProperty, handlerMethods.getOwnPropertyDescriptor.
  cbn [target targetExtensible]. rewrite H. cbn. now rewrite orb_true_r.
Qed.

Lemma GetOwnProperty_body t k prop :
  hasOwnProperty (extension t) k = false ->
  isObject (body t) = true ->
  lookup k (ownProperties (body t)) = Some prop ->
  configurable prop = true ->
  ProxyObject.GetOwnProperty (mkProxy t true) k = Normal (Some prop).
Proof.
  intros H O Lk C. unfold ProxyObject.GetOwnProperty, handlerMethods.getOwnPropertyDescriptor.
  cbn [target targetExtensible]. rewrite H, O. unfold Object_getOwnPropertyDescriptor.
  rewrite Lk, C, orb_true_r. reflexivity.
Qed.

Lemma CopyDataProperties_own t l :
  isObject (body t) = true ->
  (forall k prop, In (k, prop) l ->
     lookup k (ownProperties (body t)) = Some prop /\ configurable prop = true) ->
  CopyDataProperties (mkProxy t true) (map fst l)
  = Normal (map (fun kp => (fst kp, delegated (body t) (value (snd kp))))
                (filter (fun kp => enumerable (snd kp)
                                   && negb (hasOwnProperty (extension t) (fst kp))) l)).
Proof.
  intros O. induction l as [|[k prop] l IH]; intros Hl; [reflexivity|].
  assert (IH' := IH (fun k' p' I => Hl k' p' (or_intror I))). clear IH.
  destruct (Hl k prop (or_introl eq_refl)) as [Lk C].
  cbn [map fst CopyDataProperties filter snd].
  destruct (hasOwnProperty (extension t) k) eqn:E.
  - rewrite GetOwnProperty_extension by assumption. cbn [bind enumerable].
    rewrite andb_false_r. exact IH'.
  - rewrite (GetOwnProperty_body t k E O Lk C). cbn [bind].
    destruct (enumerable prop); cbn [andb negb]; [|exact IH'].
    unfold ProxyObject.Get. cbn [target].
    assert (P : hasProperty (body t) k = true).
    { unfold hasProperty, hasKey. now rewrite Lk. }
    rewrite (get_body t k E O P). cbn [bind]. rewrite IH'. cbn [bind map fst snd].
    unfold getProperty. now rewrite Lk.
Qed.

Lemma enumerableKeys_own t l :
  isObject (body t) = true ->
  (forall k prop, In (k, prop) l ->
     lookup k (ownProperties (body t)) = Some prop /\ configurable prop = true) ->
  enumerableKeys (mkProxy t true) (map fst l)
  = Normal (map fst
                (filter (fun kp => isStringKey (fst kp) && enumerable (snd kp)
                                   && negb (hasOwnProperty (extension t) (fst kp))) l)).
Proof.
  intros O. induction l as [|[k prop] l IH]; intros Hl; [reflexivity|].
  assert (IH' := IH (fun k' p' I => Hl k' p' (or_intror I))). clear IH.
  destruct (Hl k prop (or_introl eq_refl)) as [Lk C].
  cbn [map fst enumerableKeys filter snd].
  destruct (isStringKey k); cbn [andb]; [|exact IH'].
  destruct (hasOwnProperty (extension t) k) eqn:E.
  - rewrite GetOwnProperty_extension by assumption. cbn [bind enumerable].
    rewrite IH'. cbn [bind]. now rewrite andb_false_r.
  - rewrite (GetOwnProperty_body t k E O Lk C). cbn [bind]. rewrite IH'. cbn [bind].
    destruct (enumerable prop); reflexivity.
Qed.

Lemma Object_keys_fresh t :
  NoDup (Reflect_ownKeys (body t)) ->
  allConfigurable (ownProperties (body t)) = true ->
  Object_keys (mkProxy t true) = Normal (listedKeys (body t) (extension t)).
Proof.
  intros N C. unfold Object_keys, ProxyObject.OwnPropertyKeys, handlerMethods.ownKeys.
  cbn [target targetExtensible].
  destruct (isObject (body t)) eqn:O.
  - apply hasDuplicates_NoDup in N. rewrite N. cbn [bind].
    apply enumerableKeys_own; [assumption|].
    intros k prop I. split.
    + apply lookup_NoDup; [|assumption]. now apply hasDuplicates_NoDup.
    + unfold allConfigurable in C. rewrite forallb_forall in C. exact (C _ I).
  - cbn. unfold listedKeys.
    destruct (body t); try discriminate O; reflexivity.
Qed.

Lemma spread_fresh t :
  NoDup (Reflect_ownKeys (body t)) ->
  allConfigurable (ownProperties (body t)) = true ->
  spread (mkProxy t true) = Normal (copiedFields (body t) (extension t)).
Proof.
  intros N C. unfold spread, ProxyObject.OwnPropertyKeys, handlerMethods.ownKeys.
  cbn [target targetExtensible].
  destruct (isObject (body t)) eqn:O.
  - apply hasDuplicates_NoDup in N. rewrite N. cbn [bind].
    apply CopyDataProperties_own; [assumption|].
    intros k prop I. split.
    + apply lookup_NoDup; [|assumption]. now apply hasDuplicates_NoDup.
    + unfold allConfigurable in C. rewrite forallb_forall in C. exact (C _ I).
  - cbn. unfold copiedFields.
    destruct (body t); try discriminate O; reflexivity.
Qed.

Lemma hasOwnProperty_In (l : Properties) k :
  hasOwnProperty l k = true <-> In k (map fst l).
Proof.
  unfold hasOwnProperty, hasKey.
  induction l as [|[k' a] l IH]; cbn [lookup map fst In].
  - split; [discriminate|contradiction].
  - destruct (key_eqb k k') eqn:E.
    + apply key_eqb_eq in E. subst. split; auto.
    + rewrite IH. split; [auto|].
      intros [X|X]; [|exact X]. subst. rewrite key_eqb_refl in E. discriminate E.
Qed.

(** C8, as the source has it.  Reading through a wrapper a field that is an
    own property of the extension answers the value of the extension,
    whether or not the body has a field of that name; when that value is a
    function and the body is a String, Number, Date or RegExp instance, the
    answer is the function bound to the body.  The descriptor of such a
    field is the one of the extension, not enumerable.  The own keys of the
    wrapper are those of the body: an extension field is listed exactly
    when the body has an own field of its name.  Spreading a wrapper whose
    body has only configurable own properties copies the enumerable own
    fields of the body that no extension field shadows, and nothing else,
    and [Object.keys] lists their string keys. *)
Theorem wrapper_extension_priority_and_listing :
  forall (v : Value) (ext : Properties) (p : Proxy),
    ProxyWrapper v ext = Normal p ->
    (forall k, hasOwnProperty ext k = true ->
       ProxyObject.Get p k
         = Normal (delegated (body (target p)) (extensionProperty ext k)) /\
       (isFunction (extensionProperty ext k) = false ->
          ProxyObject.Get p k = Normal (extensionProperty ext k)) /\
       (cannotProxy (body (target p)) = false ->
          ProxyObject.Get p k = Normal (extensionProperty ext k)) /\
       ProxyObject.HasProperty p k = Normal true /\
       ProxyObject.GetOwnProperty p k
         = Normal (Some {| value := extensionProperty ext k;
                           writable := false; enumerable := false;
                           configurable := true |})) /\
    (NoDup (Reflect_ownKeys (body (target p))) ->
       Reflect_ownKeys_proxy p = Normal (Reflect_ownKeys (body (target p))) /\
       (exists keys,
           Reflect_ownKeys_proxy p = Normal keys /\
           forall k, hasOwnProperty ext k = true ->
             (In k keys <-> hasOwnProperty (ownProperties (body (target p))) k = true)) /\
       (allConfigurable (ownProperties (body (target p))) = true ->
          spread p = Normal (copiedFields (body (target p)) ext) /\
          Object_keys p = Normal (listedKeys (body (target p)) ext) /\
          (forall k x, In (k, x) (copiedFields (body (target p)) ext) ->
             In k (Reflect_ownKeys (body (target p))) /\ hasOwnProperty ext k = false) /\
          (forall k, In k (listedKeys (body (target p)) ext) ->
             hasOwnProperty ext k = false))).
Proof.
  intros v ext p W. apply ProxyWrapper_Normal in W.
  destruct W as [Ex [Xt [_ B]]]. destruct p as [t x]. cbn in Ex, Xt, B |- *. subst x ext.
  split.
  - intros k H. unfold ProxyObject.Get. cbn [target].
    rewrite (get_extension t k H). split; [reflexivity|]. split; [|split; [|split]].
    + intros F. unfold delegated. now rewrite F.
    + intros F. unfold delegated. now rewrite F, andb_false_r.
    + unfold ProxyObject.HasProperty, handlerMethods.has. cbn [target]. now rewrite H.
    + apply GetOwnProperty_extension; assumption.
  - intros N.
    assert (K : Reflect_ownKeys_proxy (mkProxy t true) = Normal (Reflect_ownKeys (body t))).
    { unfold Reflect_ownKeys_proxy, ProxyObject.OwnPropertyKeys, handlerMethods.ownKeys.
      cbn [target targetExtensible].
      destruct B as [B|B].
      * rewrite B. reflexivity.
      * rewrite B. apply hasDuplicates_NoDup in N. now rewrite N. }
    split; [exact K|]. split.
    + exists (Reflect_ownKeys (body t)). split; [exact K|].
      intros k _. unfold Reflect_ownKeys. symmetry. apply hasOwnProperty_In.
    + intros C. split; [now apply spread_fresh|]. split; [now apply Object_keys_fresh|].
      split.
      * intros k y I. unfold copiedFields in I. apply in_map_iff in I.
        destruct I as [[k' prop] [E I]]. apply filter_In in I. destruct I as [I F].
        cbn in E, F. inversion E; subst. apply andb_true_iff in F. destruct F as [_ F].
        split.
        -- unfold Reflect_ownKeys. change k with (fst (k, prop)). now apply in_map.
        -- now apply negb_true_iff in F.
      * intros k I. unfold listedKeys in I. apply in_map_iff in I.
        destruct I as [[k' prop] [E I]]. apply filter_In in I. destruct I as [_ F].
        cbn in E, F. subst k'. apply andb_true_iff in F. destruct F as [_ F].
        now apply negb_true_iff in F.
Qed.

Lemma wrapper_extension_priority_witness :
  exists p,
    ProxyWrapper (objectLiteral [(KString "x", VNumber 42); (KString "y", VNumber 1)])
                 [(KString "x", hidden (VString "extended"))] = Normal p /\
    ProxyObject.Get p (KString "x") = Normal (VString "extended") /\
    spread p = Normal [(KString "y", VNumber 1)].
Proof.
  eexists. split; [reflexivity|].
  destruct (wrapper_extension_priority_and_listing
              (objectLiteral [(KString "x", VNumber 42); (KString "y", VNumber 1)])
              [(KString "x", hidden (VString "extended"))] eq_refl) as [G S].
  split.
  - apply (G (KString "x") eq_refl). reflexivity.
  - apply S.
    + cbn. repeat constructor; cbn; intuition discriminate.
    + reflexivity.
Defined.

(** C8 as stated does not hold.  Over the boxed string "foo", a function
    held by the extension is not answered as it is but bound to the body,
    and spreading the wrapper throws, since the characters of a String are
    non-configurable own properties that the target does not have.  And an
    extension field is not left out of the listing of own keys when the
    body has a field of the same name: over [{ x: 42, y: 1 }] the extension
    field [x] is listed, with the descriptor of the extension. *)
Lemma wrapper_extension_value_counterexample :
  let ext := [(constructKey, hidden (VFunction (Other "LoadableProxy")))] in
  let ext' := [(KString "x", hidden (VString "extended"))] in
  (exists p,
      ProxyWrapper (VString "foo") ext = Normal p /\
      hasOwnProperty ext constructKey = true /\
      extensionProperty ext constructKey = VFunction (Other "LoadableProxy") /\
      ProxyObject.Get p constructKey
        = Normal (VBound (VFunction (Other "LoadableProxy")) (newString "foo")) /\
      ProxyObject.Get p constructKey <> Normal (extensionProperty ext constructKey) /\
      throwsTypeError (spread p) = true) /\
  (exists q,
      ProxyWrapper (objectLiteral [(KString "x", VNumber 42); (KString "y", VNumber 1)]) ext'
        = Normal q /\
      hasOwnProperty ext' (KString "x") = true /\
      Reflect_ownKeys_proxy q = Normal [KString "x"; KString "y"] /\
      ProxyObject.GetOwnProperty q (KString "x") = Normal (Some (hidden (VString "extended")))).
Proof.
  split.
  - eexists. repeat (split; [reflexivity|]). split; [discriminate|reflexivity].
  - eexists. repeat (split; [reflexivity|]). reflexivity.
Qed.

(** ** The life of a LoadablePromise *)

Lemma subscriber_eqb_refl s : subscriber_eqb s s = true.
Proof.
  unfold subscriber_eqb. now rewrite Nat.eqb_refl, Bool.eqb_reflx.
Qed.

Lemma callsTo_snoc {L} (w w' : World L) s s' a :
  invocations w' = invocations w ++ [mkInvocation s' a] ->
  callsTo s w' = callsTo s w ++ (if subscriber_eqb s' s then [a] else []).
Proof.
  intros E. unfold callsTo. rewrite E, filter_app, map_app. cbn.
  destruct (subscriber_eqb s' s); reflexivity.
Qed.

Lemma notifiesJob_fulfillJobs {L} s rs (v : L) :
  existsb (notifiesJob s) (fulfillJobs rs v) = existsb (notifies s) rs.
Proof.
  induction rs as [|r rs IH]; [reflexivity|].
  simpl. f_equal. exact IH.
Qed.

Lemma notifiesJob_rejectJobs {L} s rs (reason : Rejection L) :
  existsb (notifiesJob s) (rejectJobs rs reason) = existsb (notifies s) rs.
Proof.
  induction rs as [|r rs IH]; [reflexivity|].
  simpl. f_equal. exact IH.
Qed.

Lemma isThenableJob_fulfillJobs {L} rs (v : L) :
  existsb isThenableJob (fulfillJobs rs v) = false.
Proof. induction rs as [|r rs IH]; [reflexivity|exact IH]. Qed.

Lemma isThenableJob_rejectJobs {L} rs (reason : Rejection L) :
  existsb isThenableJob (rejectJobs rs reason) = false.
Proof. induction rs as [|r rs IH]; [reflexivity|exact IH]. Qed.

(** Outside the executor, the two functions check the item, set the flag of
    the object and call the function of the promise. *)
Lemma resolveWrapper_initialised {L} `{Loadable L} (w : World L) t :
  fst (resolveWrapper true w t)
  = match getStatus t with
    | Normal status => if ready status then resolve (setFulfilled w) t else w
    | Throw _ => w
    end.
Proof.
  unfold resolveWrapper. destruct (getStatus t) as [st|e]; [|reflexivity].
  destruct (ready st); reflexivity.
Qed.

Lemma rejectWrapper_initialised {L} `{Loadable L} (w : World L) t :
  fst (rejectWrapper true w t)
  = match getStatus t with
    | Normal status =>
        match error status with
        | Some e => reject (setFulfilled w) (newLoadError (Some e) t)
        | None => w
        end
    | Throw _ => w
    end.
Proof.
  unfold rejectWrapper. destruct (getStatus t) as [st|e]; [|reflexivity].
  destruct (error st); reflexivity.
Qed.

(** What the functions of the promise leave as it is: the two fields of the
    class and the calls made; and a settled promise altogether. *)
Lemma fulfillPromise_frame {L} (w : World L) v :
  fulfilled (promise (fulfillPromise w v)) = fulfilled (promise w) /\
  item (promise (fulfillPromise w v)) = item (promise w) /\
  invocations (fulfillPromise w v) = invocations w /\
  alreadyResolved (fulfillPromise w v) = alreadyResolved w /\
  handedOver (fulfillPromise w v) = handedOver w.
Proof.
  unfold fulfillPromise. destruct (promiseState (promise w)); cbn; auto.
Qed.

Lemma rejectPromise_frame {L} (w : World L) reason :
  fulfilled (promise (rejectPromise w reason)) = fulfilled (promise w) /\
  item (promise (rejectPromise w reason)) = item (promise w) /\
  invocations (rejectPromise w reason) = invocations w /\
  alreadyResolved (rejectPromise w reason) = alreadyResolved w /\
  handedOver (rejectPromise w reason) = handedOver w.
Proof.
  unfold rejectPromise. destruct (promiseState (promise w)); cbn; auto.
Qed.

Lemma resolvePromise_frame {L} `{Loadable L} (w : World L) v :
  fulfilled (promise (resolvePromise w v)) = fulfilled (promise w) /\
  item (promise (resolvePromise w v)) = item (promise w) /\
  invocations (resolvePromise w v) = invocations w /\
  alreadyResolved (resolvePromise w v) = alreadyResolved w /\
  handedOver (resolvePromise w v) = handedOver w.
Proof.
  unfold resolvePromise. destruct (getThen v) as [f|e].
  - destruct (isFunction f); [cbn; auto|apply fulfillPromise_frame].
  - apply rejectPromise_frame.
Qed.

Lemma fulfillPromise_settled {L} (w : World L) v :
  promiseState (promise w) <> Pending -> fulfillPromise w v = w.
Proof.
  unfold fulfillPromise. destruct (promiseState (promise w)); [contradiction| |]; reflexivity.
Qed.

Lemma rejectPromise_settled {L} (w : World L) reason :
  promiseState (promise w) <> Pending -> rejectPromise w reason = w.
Proof.
  unfold rejectPromise. destruct (promiseState (promise w)); [contradiction| |]; reflexivity.
Qed.

Lemma resolvePromise_settled {L} `{Loadable L} (w : World L) v :
  promiseState (promise w) <> Pending ->
  promise (resolvePromise w v) = promise w.
Proof.
  intros P. unfold resolvePromise. destruct (getThen v) as [f|e].
  - destruct (isFunction f); [reflexivity|now rewrite fulfillPromise_settled].
  - now rewrite rejectPromise_settled.
Qed.

Lemma resolve_frame {L} `{Loadable L} (w : World L) v :
  fulfilled (promise (resolve w v)) = fulfilled (promise w) /\
  item (promise (resolve w v)) = item (promise w) /\
  invocations (resolve w v) = invocations w /\
  handedOver (resolve w v) = handedOver w /\
  (promiseState (promise w) <> Pending -> promise (resolve w v) = promise w).
Proof.
  unfold resolve. destruct (alreadyResolved w); [auto 6|].
  destruct (resolvePromise_frame (setAlreadyResolved w) v) as [A [B [C [_ D]]]].
  repeat (split; [assumption|]). intros P. now rewrite resolvePromise_settled.
Qed.

Lemma reject_frame {L} (w : World L) reason :
  fulfilled (promise (reject w reason)) = fulfilled (promise w) /\
  item (promise (reject w reason)) = item (promise w) /\
  invocations (reject w reason) = invocations w /\
  handedOver (reject w reason) = handedOver w /\
  (promiseState (promise w) <> Pending -> promise (reject w reason) = promise w).
Proof.
  unfold reject. destruct (alreadyResolved w); [auto 6|].
  destruct (rejectPromise_frame (setAlreadyResolved w) reason) as [A [B [C [_ D]]]].
  repeat (split; [assumption|]). intros P. now rewrite rejectPromise_settled.
Qed.

(** Subscribing, chaining and running a job leave the state, the flags and
    the item of the object as they are. *)
Lemma then_frame {L} (w : World L) r :
  promiseState (promise (fst (then_ w r))) = promiseState (promise w) /\
  fulfilled (promise (fst (then_ w r))) = fulfilled (promise w) /\
  item (promise (fst (then_ w r))) = item (promise w) /\
  invocations (fst (then_ w r)) = invocations w /\
  alreadyResolved (fst (then_ w r)) = alreadyResolved w /\
  handedOver (fst (then_ w r)) = handedOver w.
Proof.
  unfold then_. destruct (promiseState (promise w)) eqn:P; cbn; rewrite ?P; auto 6.
Qed.

Lemma then_pending {L} (w : World L) r :
  promiseState (promise w) = Pending ->
  microtasks (fst (then_ w r)) = microtasks w /\
  reactions (promise (fst (then_ w r))) = reactions (promise w) ++ [r].
Proof. intros P. unfold then_. rewrite P. cbn. auto. Qed.

Lemma subscribe_frame {L} (w : World L) s :
  promiseState (promise (fst (subscribe w s))) = promiseState (promise w) /\
  fulfilled (promise (fst (subscribe w s))) = fulfilled (promise w) /\
  item (promise (fst (subscribe w s))) = item (promise w) /\
  alreadyResolved (fst (subscribe w s)) = alreadyResolved w /\
  handedOver (fst (subscribe w s)) = handedOver w /\
  (promiseState (promise w) = Pending ->
   microtasks (fst (subscribe w s)) = microtasks w).
Proof.
  unfold subscribe, callSubscriber.
  destruct (fulfilled (promise w)) eqn:F; cbn [negb];
    destruct (subscriberThrows s); cbn [fst]; try (cbn; auto 6; fail);
    match goal with
    | |- context [then_ ?w0 ?r] =>
        destruct (then_frame w0 r) as [A [B [C [_ [D E]]]]];
        pose proof (@then_pending _ w0 r) as M
    end; rewrite A, B, C, D, E; cbn; repeat (split; [auto|]);
    intros P; now apply M.
Qed.

Lemma runJob_frame {L} (w : World L) :
  promise (runJob w) = promise w /\ alreadyResolved (runJob w) = alreadyResolved w.
Proof.
  unfold runJob, callSubscriber.
  destruct (microtasks w) as [|[[s|c] v|[s|c] r|t] rest]; split; reflexivity.
Qed.

Lemma thenableResolves_frame {L} `{Loadable L} (w : World L) v :
  fulfilled (promise (thenableResolves w v)) = fulfilled (promise w) /\
  item (promise (thenableResolves w v)) = item (promise w) /\
  invocations (thenableResolves w v) = invocations w /\
  alreadyResolved (thenableResolves w v) = alreadyResolved w /\
  (promiseState (promise w) <> Pending -> promise (thenableResolves w v) = promise w).
Proof.
  unfold thenableResolves. destruct (handedOver w); [|auto 6].
  destruct (resolvePromise_frame (setHandedOver false w) v) as [A [B [C [D _]]]].
  repeat (split; [assumption|]). intros P. now rewrite resolvePromise_settled.
Qed.

Lemma thenableRejects_frame {L} (w : World L) reason :
  fulfilled (promise (thenableRejects w reason)) = fulfilled (promise w) /\
  item (promise (thenableRejects w reason)) = item (promise w) /\
  invocations (thenableRejects w reason) = invocations w /\
  alreadyResolved (thenableRejects w reason) = alreadyResolved w /\
  (promiseState (promise w) <> Pending -> promise (thenableRejects w reason) = promise w).
Proof.
  unfold thenableRejects. destruct (handedOver w); [|auto 6].
  destruct (rejectPromise_frame (setHandedOver false w) reason) as [A [B [C [D _]]]].
  repeat (split; [assumption|]). intros P. now rewrite rejectPromise_settled.
Qed.

(** No operation replaces the item, and none changes the outcome of a
    settled promise. *)
Lemma step_settled {L} `{Loadable L} (w : World L) op :
  item (promise (step w op)) = item (promise w) /\
  (promiseState (promise w) <> Pending ->
   promiseState (promise (step w op)) = promiseState (promise w)).
Proof.
  destruct op as [t|t|s|c| |v|reason]; cbn [step].
  - rewrite resolveWrapper_initialised. destruct (getStatus t) as [st|e]; [|auto].
    destruct (ready st); [|auto].
    destruct (resolve_frame (setFulfilled w) t) as [_ [I [_ [_ S]]]].
    split; [exact I|]. intros P. now rewrite S.
  - rewrite rejectWrapper_initialised. destruct (getStatus t) as [st|e]; [|auto].
    destruct (error st) as [e|]; [|auto].
    destruct (reject_frame (setFulfilled w) (newLoadError (Some e) t)) as [_ [I [_ [_ S]]]].
    split; [exact I|]. intros P. now rewrite S.
  - destruct (subscribe_frame w s) as [A [_ [C _]]]. rewrite A, C. auto.
  - destruct (then_frame w (Continuation c)) as [A [_ [C _]]]. rewrite A, C. auto.
  - destruct (runJob_frame w) as [A _]. rewrite A. auto.
  - destruct (thenableResolves_frame w v) as [_ [I [_ [_ S]]]].
    split; [exact I|]. intros P. now rewrite S.
  - destruct (thenableRejects_frame w reason) as [_ [I [_ [_ S]]]].
    split; [exact I|]. intros P. now rewrite S.
Qed.

Lemma run_settled {L} `{Loadable L} ops (w : World L) :
  item (promise (run ops w)) = item (promise w) /\
  (promiseState (promise w) <> Pending ->
   promiseState (promise (run ops w)) = promiseState (promise w)).
Proof.
  revert w. induction ops as [|op ops IH]; intros w; [now split|].
  cbn [run fold_left]. destruct (IH (step w op)) as [I S].
  destruct (step_settled w op) as [I' S']. unfold run in *. split.
  - now rewrite I, I'.
  - intros P. rewrite S; [now apply S'|]. rewrite (S' P). exact P.
Qed.

Lemma run_app {L} `{Loadable L} ops1 ops2 (w : World L) :
  run (ops1 ++ ops2) w = run ops2 (run ops1 w).
Proof. unfold run. apply fold_left_app. Qed.

(** A pending object that a program has reached came out of its
    construction pending. *)
Lemma reachable_pending_origin {L} `{Loadable L} (w : World L) :
  reachable w -> promiseState (promise w) = Pending ->
  exists executor loadingItem0 w0 ops,
    newLoadablePromise executor loadingItem0 = Normal w0 /\
    promiseState (promise w0) = Pending /\
    w = run ops w0.
Proof.
  induction 1 as [executor loadingItem0 w E|w op R IH]; intros P.
  - exists executor, loadingItem0, w, []. auto.
  - destruct (step_settled w op) as [_ S].
    assert (P0 : promiseState (promise w) = Pending).
    { destruct (promiseState (promise w)) eqn:Q; [reflexivity| |];
        exfalso; assert (X := S ltac:(discriminate)); congruence. }
    destruct (IH P0) as [executor [loadingItem0 [w0 [ops [E [Q W]]]]]].
    exists executor, loadingItem0, w0, (ops ++ [op]).
    split; [exact E|]. split; [exact Q|]. rewrite run_app, <- W. reflexivity.
Qed.

(** An object comes out of its construction pending only if its item is
    loading, and then nothing has been resolved. *)
Lemma newLoadablePromise_pending {L} `{Loadable L} executor loadingItem0 (w0 : World L) :
  newLoadablePromise executor loadingItem0 = Normal w0 ->
  promiseState (promise w0) = Pending ->
  w0 = mkWorld (mkLoadablePromise Pending [] false loadingItem0) [] [] false false /\
  exists status, getStatus loadingItem0 = Normal status /\ loading status = true.
Proof.
  intros E P.
  destruct (newLoadablePromise_returns executor loadingItem0)
    as [w [E' [F [I [V [R [M [Ho K]]]]]]]].
  rewrite E in E'. inversion E'; subst w. split.
  - destruct K as [[_ A]|[e K]]; [|rewrite K in P; discriminate P].
    destruct w0 as [[st rs f i] m inv a h]. cbn in *. now subst.
  - unfold newLoadablePromise in E.
    destruct (getStatus loadingItem0) as [status|e] eqn:S.
    + destruct (loading status) eqn:Ld; [eauto|].
      cbn in E. inversion E; subst w0. discriminate P.
    + cbn in E. inversion E; subst w0. discriminate P.
Qed.

(** As long as the flag of the object is unset, nothing has been resolved:
    this holds of an object when it comes out of its construction pending,
    and every operation keeps it. *)
Lemma untouched_step {L} `{Loadable L} (w : World L) op :
  (fulfilled (promise w) = false -> untouched w) ->
  fulfilled (promise (step w op)) = false -> untouched (step w op).
Proof.
  intros IH. destruct op as [t|t|s|c| |v|reason]; cbn [step].
  - rewrite resolveWrapper_initialised. destruct (getStatus t) as [st|e]; [|exact IH].
    destruct (ready st); [|exact IH].
    destruct (resolve_frame (setFulfilled w) t) as [F _]. rewrite F. discriminate.
  - rewrite rejectWrapper_initialised. destruct (getStatus t) as [st|e]; [|exact IH].
    destruct (error st) as [e|]; [|exact IH].
    destruct (reject_frame (setFulfilled w) (newLoadError (Some e) t)) as [F _].
    rewrite F. discriminate.
  - destruct (subscribe_frame w s) as [A [B [_ [D [E M]]]]]. rewrite B. intros F.
    destruct (IH F) as [P [X [Y Z]]]. unfold untouched. now rewrite A, D, E, M.
  - destruct (then_frame w (Continuation c)) as [A [B [_ [_ [D E]]]]]. rewrite B. intros F.
    destruct (IH F) as [P [X [Y Z]]].
    destruct (then_pending w (Continuation c) P) as [M _].
    unfold untouched. now rewrite A, D, E, M.
  - destruct (runJob_frame w) as [A B]. rewrite A. intros F.
    destruct (IH F) as [P [X [Y Z]]]. unfold untouched. rewrite A, B.
    split; [exact P|]. split; [exact X|].
    unfold runJob, callSubscriber.
    destruct (microtasks w) as [|[[s|c] v|[s|c] r|t] rest] eqn:Q; rewrite ?Q;
      cbn in Z |- *; try discriminate Z; split; assumption.
  - destruct (thenableResolves_frame w v) as [B _]. rewrite B. intros F.
    destruct (IH F) as [P [X [Y Z]]]. unfold thenableResolves. rewrite Y.
    now repeat split.
  - destruct (thenableRejects_frame w reason) as [B _]. rewrite B. intros F.
    destruct (IH F) as [P [X [Y Z]]]. unfold thenableRejects. rewrite Y.
    now repeat split.
Qed.

Lemma untouched_run {L} `{Loadable L} ops (w : World L) :
  (fulfilled (promise w) = false -> untouched w) ->
  fulfilled (promise (run ops w)) = false -> untouched (run ops w).
Proof.
  revert w. induction ops as [|op ops IH]; intros w U; [exact U|].
  cbn [run fold_left]. apply IH. now apply untouched_step.
Qed.

Lemma reachable_pending_untouched {L} `{Loadable L} (w : World L) :
  reachable w -> promiseState (promise w) = Pending ->
  fulfilled (promise w) = false -> untouched w.
Proof.
  intros R P F.
  destruct (reachable_pending_origin R P) as [executor [l0 [w0 [ops [E [P0 W]]]]]].
  destruct (newLoadablePromise_pending _ _ E P0) as [W0 _].
  subst w. apply untouched_run; [|exact F].
  intros _. rewrite W0. now repeat split.
Qed.

(** The item of a pending promise is loading. *)
Lemma reachable_pending_loading {L} `{Loadable L} (w : World L) :
  reachable w -> promiseState (promise w) = Pending ->
  exists status, getStatus (item (promise w)) = Normal status /\ loading status = true.
Proof.
  intros R P.
  destruct (reachable_pending_origin R P) as [executor [l0 [w0 [ops [E [P0 W]]]]]].
  destruct (newLoadablePromise_pending _ _ E P0) as [W0 S].
  subst w. destruct (run_settled ops w0) as [I _]. rewrite I, W0. exact S.
Qed.

(** Resolving with a thenable, on an example: the promise stays pending and
    the functions of the constructor are used up; the [then] of the thenable
    can settle the promise once its job has run, and once only. *)
Example resolve_with_thenable :
  let loadingProxy := proxyOf john loadingPatch_ in
  let readyThenable := proxyOf thenable readyPatch_ in
  let readyJohn := proxyOf john readyPatch_ in
  let w0 := mkWorld (mkLoadablePromise Pending [] false loadingProxy) [] [] false false in
  getThen readyThenable = Normal (VFunction (Other "then")) /\
  getThen readyJohn = Normal VUndefined /\
  promiseState (promise (run [Resolve readyJohn] w0)) = Fulfilled readyJohn /\
  promiseState (promise (run [Resolve readyThenable; Resolve readyJohn] w0)) = Pending /\
  promiseState (promise (run [Resolve readyThenable; ThenableResolves readyJohn] w0))
    = Pending /\
  promiseState (promise (run [Resolve readyThenable; RunJob; ThenableResolves readyJohn;
                              ThenableRejects (Raised failure)] w0))
    = Fulfilled readyJohn.
Proof. repeat split. Qed.

Lemma runJob_cons {L} (w : World L) j rest :
  microtasks w = j :: rest ->
  promise (runJob w) = promise w /\
  microtasks (runJob w) = rest /\
  invocations (runJob w)
  = invocations w ++ match jobReaction j with
                     | Some (Notify s') => [mkInvocation s' (jobArgument j)]
                     | _ => []
                     end.
Proof.
  intros E. unfold runJob, callSubscriber. rewrite E.
  destruct j as [[s'|c] v|[s'|c] r|t]; cbn; rewrite ?app_nil_r; auto.
Qed.

Lemma callsTo_runJob {L} s (w : World L) j rest :
  microtasks w = j :: rest ->
  callsTo s (runJob w)
  = callsTo s w ++ (if notifiesJob s j then [jobArgument j] else []).
Proof.
  intros Q. destruct (runJob_cons w Q) as [_ [_ RI]].
  unfold callsTo, notifiesJob. rewrite RI, filter_app, map_app.
  destruct (jobReaction j) as [[s'|c]|]; cbn; rewrite ?app_nil_r; try reflexivity.
  destruct (subscriber_eqb s' s); cbn; now rewrite ?app_nil_r.
Qed.

(** The job of an outcome calls the subscriber with the terminal item. *)
Lemma outcomeJob_call {L} s (st : PromiseState L) job :
  outcomeJob s st job ->
  st <> Pending /\ notifiesJob s job = true /\ jobArgument job = terminalItem st.
Proof.
  destruct st as [|v|r]; cbn; intros J; [contradiction| |]; subst job;
    (split; [discriminate|]); unfold notifiesJob; cbn; now rewrite subscriber_eqb_refl.
Qed.

(** The stages of a delivery depend on the state, the reactions, the queue
    and the calls only, and jobs of others may join the queue. *)
Lemma Delivery_frame {L} s before l0 (w w' : World L) js :
  promiseState (promise w') = promiseState (promise w) ->
  reactions (promise w') = reactions (promise w) ->
  microtasks w' = microtasks w ++ js ->
  existsb (notifiesJob s) js = false ->
  callsTo s w' = callsTo s w ->
  Delivery s before l0 w -> Delivery s before l0 w'.
Proof.
  intros P R M J C D. destruct D as [r1 r2 P0 R0 N1 N2 M0 C0|j1 j2 job R0 M0 O N1 N2 C0|P0 R0 M0 C0].
  - apply Waiting with (r1 := r1) (r2 := r2); rewrite ?P, ?R, ?M, ?C, ?existsb_app, ?M0, ?J;
      auto.
  - apply Queued with (j1 := j1) (j2 := j2 ++ js) (job := job);
      rewrite ?P, ?R, ?M, ?C, ?existsb_app, ?N2, ?J; auto.
    rewrite M0, <- app_assoc. reflexivity.
  - apply Delivered; rewrite ?P, ?R, ?M, ?C, ?existsb_app, ?M0, ?J; auto.
Qed.

Lemma Delivery_same {L} s before l0 (w w' : World L) :
  promiseState (promise w') = promiseState (promise w) ->
  reactions (promise w') = reactions (promise w) ->
  microtasks w' = microtasks w ->
  callsTo s w' = callsTo s w ->
  Delivery s before l0 w -> Delivery s before l0 w'.
Proof.
  intros P R M C. apply Delivery_frame with (js := []); auto.
  now rewrite app_nil_r.
Qed.

Lemma Delivery_settled {L} s before l0 (w : World L) :
  Delivery s before l0 w ->
  promiseState (promise w) = Pending \/
  (promiseState (promise w) <> Pending /\ reactions (promise w) = []).
Proof.
  intros D. destruct D as [r1 r2 P0 R0 N1 N2 M0 C0|j1 j2 job R0 M0 O N1 N2 C0|P0 R0 M0 C0].
  - now left.
  - right. split; [|exact R0]. now apply outcomeJob_call in O.
  - right. now split.
Qed.

Lemma Delivery_call {L} s before l0 (w : World L) s' a :
  subscriber_eqb s' s = false ->
  Delivery s before l0 w -> Delivery s before l0 (fst (callSubscriber w s' a)).
Proof.
  intros N. apply Delivery_same; try reflexivity.
  unfold callSubscriber. cbn [fst].
  erewrite callsTo_snoc by reflexivity. rewrite N. apply app_nil_r.
Qed.

Lemma Delivery_fulfillPromise {L} s before l0 (w : World L) v :
  Delivery s before l0 w -> Delivery s before l0 (fulfillPromise w v).
Proof.
  intros D. destruct (Delivery_settled D) as [P|[P _]];
    [|now rewrite fulfillPromise_settled].
  destruct D as [r1 r2 P0 R0 N1 N2 M0 C0|j1 j2 job R0 M0 O N1 N2 C0|P0 R0 M0 C0];
    [|apply outcomeJob_call in O; tauto|contradiction].
  unfold fulfillPromise. rewrite P, R0.
  apply Queued with (j1 := microtasks w ++ fulfillJobs r1 v) (j2 := fulfillJobs r2 v)
                    (job := FulfillJob (Notify s) v).
  - reflexivity.
  - cbn. unfold fulfillJobs. rewrite map_app, <- app_assoc. reflexivity.
  - reflexivity.
  - now rewrite existsb_app, M0, notifiesJob_fulfillJobs.
  - now rewrite notifiesJob_fulfillJobs.
  - exact C0.
Qed.

Lemma Delivery_rejectPromise {L} s before l0 (w : World L) reason :
  Delivery s before l0 w -> Delivery s before l0 (rejectPromise w reason).
Proof.
  intros D. destruct (Delivery_settled D) as [P|[P _]];
    [|now rewrite rejectPromise_settled].
  destruct D as [r1 r2 P0 R0 N1 N2 M0 C0|j1 j2 job R0 M0 O N1 N2 C0|P0 R0 M0 C0];
    [|apply outcomeJob_call in O; tauto|contradiction].
  unfold rejectPromise. rewrite P, R0.
  apply Queued with (j1 := microtasks w ++ rejectJobs r1 reason) (j2 := rejectJobs r2 reason)
                    (job := RejectJob (Notify s) reason).
  - reflexivity.
  - cbn. unfold rejectJobs. rewrite map_app, <- app_assoc. reflexivity.
  - reflexivity.
  - now rewrite existsb_app, M0, notifiesJob_rejectJobs.
  - now rewrite notifiesJob_rejectJobs.
  - exact C0.
Qed.

Lemma Delivery_resolvePromise {L} `{Loadable L} s before l0 (w : World L) v :
  Delivery s before l0 w -> Delivery s before l0 (resolvePromise w v).
Proof.
  intros D. unfold resolvePromise. destruct (getThen v) as [f|e].
  - destruct (isFunction f); [|now apply Delivery_fulfillPromise].
    apply Delivery_frame with (w := w) (js := [ThenableJob v]); auto.
  - now apply Delivery_rejectPromise.
Qed.

Lemma Delivery_resolve {L} `{Loadable L} s before l0 (w : World L) t :
  Delivery s before l0 w -> Delivery s before l0 (resolve (setFulfilled w) t).
Proof.
  intros D. unfold resolve.
  destruct (alreadyResolved (setFulfilled w)).
  - revert D. now apply Delivery_same.
  - apply Delivery_resolvePromise. revert D. now apply Delivery_same.
Qed.

Lemma Delivery_reject {L} s before l0 (w : World L) reason :
  Delivery s before l0 w -> Delivery s before l0 (reject (setFulfilled w) reason).
Proof.
  intros D. unfold reject.
  destruct (alreadyResolved (setFulfilled w)).
  - revert D. now apply Delivery_same.
  - apply Delivery_rejectPromise. revert D. now apply Delivery_same.
Qed.

Lemma Delivery_then {L} s before l0 (w : World L) r :
  notifies s r = false ->
  Delivery s before l0 w -> Delivery s before l0 (fst (then_ w r)).
Proof.
  intros N D.
  unfold then_. destruct (promiseState (promise w)) as [|v|reason] eqn:P; cbn [fst].
  - destruct D as [r1 r2 P0 R0 N1 N2 M0 C0|j1 j2 job R0 M0 O N1 N2 C0|P0 R0 M0 C0];
      [|apply outcomeJob_call in O; tauto|contradiction].
    apply Waiting with (r1 := r1) (r2 := r2 ++ [r]);
      [reflexivity | cbn; now rewrite R0, <- app_assoc | exact N1
      | rewrite existsb_app, N2; cbn; now rewrite N | exact M0 | exact C0].
  - apply Delivery_frame with (w := w) (js := [FulfillJob r v]); auto.
    cbn. unfold notifiesJob. cbn. now rewrite N.
  - apply Delivery_frame with (w := w) (js := [RejectJob r reason]); auto.
    cbn. unfold notifiesJob. cbn. now rewrite N.
Qed.

Lemma Delivery_subscribe {L} s before l0 (w : World L) s' :
  subscriber_eqb s' s = false ->
  Delivery s before l0 w -> Delivery s before l0 (fst (subscribe w s')).
Proof.
  intros N D. unfold subscribe.
  destruct (negb (fulfilled (promise w))).
  - pose proof (Delivery_call s' (Some (item (promise w))) N D) as D'.
    unfold callSubscriber in *. cbn [fst] in D'.
    destruct (subscriberThrows s'); cbn [fst]; [exact D'|].
    apply Delivery_then; [exact N|exact D'].
  - cbn [fst]. apply Delivery_then; [exact N|exact D].
Qed.

Lemma Delivery_runJob {L} s before l0 (w : World L) :
  Delivery s before l0 w -> Delivery s before l0 (runJob w).
Proof.
  intros D.
  destruct (microtasks w) as [|j rest] eqn:Q.
  { unfold runJob. now rewrite Q. }
  destruct (runJob_cons w Q) as [RP [RM _]].
  pose proof (callsTo_runJob s w Q) as RC.
  destruct D as [r1 r2 P0 R0 N1 N2 M0 C0|j1 j2 job R0 M0 O N1 N2 C0|P0 R0 M0 C0].
  - rewrite Q in M0. cbn in M0. apply orb_false_iff in M0. destruct M0 as [Mj Mr].
    rewrite Mj, app_nil_r in RC.
    apply Waiting with (r1 := r1) (r2 := r2); rewrite ?RP, ?RM, ?RC; assumption.
  - rewrite Q in M0. destruct j1 as [|j0 j1]; cbn in M0; inversion M0; subst.
    + destruct (outcomeJob_call _ _ _ O) as [P [A1 A2]].
      rewrite A1, A2, C0, <- app_assoc in RC.
      apply Delivered; rewrite ?RP, ?RM, ?RC; try assumption; reflexivity.
    + cbn in N1. apply orb_false_iff in N1. destruct N1 as [Nj N1].
      rewrite Nj, app_nil_r in RC.
      apply Queued with (j1 := j1) (j2 := j2) (job := job);
        rewrite ?RP, ?RM, ?RC; try assumption; reflexivity.
  - rewrite Q in M0. cbn in M0. apply orb_false_iff in M0. destruct M0 as [Mj Mr].
    rewrite Mj, app_nil_r in RC.
    apply Delivered; rewrite ?RP, ?RM, ?RC; assumption.
Qed.

Lemma Delivery_step {L} `{Loadable L} s before l0 (w : World L) op :
  subscribes s op = false ->
  Delivery s before l0 w -> Delivery s before l0 (step w op).
Proof.
  intros N D. destruct op as [t|t|s'|c| |v|reason]; cbn [step].
  - rewrite resolveWrapper_initialised. destruct (getStatus t) as [st|e]; [|exact D].
    destruct (ready st); [|exact D]. now apply Delivery_resolve.
  - rewrite rejectWrapper_initialised. destruct (getStatus t) as [st|e]; [|exact D].
    destruct (error st) as [e|]; [|exact D]. now apply Delivery_reject.
  - now apply Delivery_subscribe.
  - now apply Delivery_then.
  - now apply Delivery_runJob.
  - unfold thenableResolves. destruct (handedOver w); [|exact D].
    apply Delivery_resolvePromise. revert D. now apply Delivery_same.
  - unfold thenableRejects. destruct (handedOver w); [|exact D].
    apply Delivery_rejectPromise. revert D. now apply Delivery_same.
Qed.

Lemma Delivery_run {L} `{Loadable L} s before l0 ops (w : World L) :
  existsb (subscribes s) ops = false ->
  Delivery s before l0 w -> Delivery s before l0 (run ops w).
Proof.
  revert w. induction ops as [|op ops IH]; intros w N D; [exact D|].
  cbn in N. apply orb_false_iff in N. destruct N as [N1 N2].
  cbn [run fold_left]. apply IH; [exact N2|]. now apply Delivery_step.
Qed.

(** Running the jobs that are queued empties the queue and leaves the
    object as it is. *)
Lemma run_queued_jobs {L} `{Loadable L} n (w : World L) :
  n = List.length (microtasks w) ->
  microtasks (run (repeat RunJob n) w) = [] /\
  promise (run (repeat RunJob n) w) = promise w.
Proof.
  revert w. induction n as [|n IH]; intros w E.
  - cbn [repeat run fold_left].
    destruct (microtasks w) eqn:Q; [now split|discriminate E].
  - destruct (microtasks w) as [|j rest] eqn:Q; [discriminate E|].
    destruct (runJob_cons w Q) as [RP [RM _]].
    cbn [repeat run fold_left step].
    destruct (IH (runJob w)) as [A B].
    { rewrite RM. cbn in E. congruence. }
    unfold run in A, B. now rewrite A, B, RP.
Qed.

Lemma no_subscribe_in_RunJobs {L} s n :
  existsb (subscribes (L := L) s) (repeat RunJob n) = false.
Proof. induction n as [|n IH]; [reflexivity|exact IH]. Qed.

(** When the promise has settled and the queue is empty, the subscriber has
    been told. *)
Lemma Delivery_drained {L} `{Loadable L} s before l0 (w : World L) :
  Delivery s before l0 w ->
  promiseState (promise w) <> Pending ->
  callsTo s (drain w)
  = before ++ [Some l0; terminalItem (promiseState (promise w))].
Proof.
  intros D P. unfold drain.
  destruct (run_queued_jobs w eq_refl) as [Q3 P3].
  pose proof (Delivery_run (repeat RunJob (List.length (microtasks w)))
                           (no_subscribe_in_RunJobs s _) D) as D3.
  destruct D3 as [r1 r2 P0 R0 N1 N2 M0 C0|j1 j2 job R0 M0 O N1 N2 C0|P0 R0 M0 C0].
  - rewrite P3 in P0. contradiction.
  - rewrite Q3 in M0. now destruct j1.
  - rewrite P3 in C0. exact C0.
Qed.

(** The call of [subscribe] on an object whose flag is unset. *)
Lemma subscribe_pending {L} (w : World L) s :
  promiseState (promise w) = Pending ->
  fulfilled (promise w) = false ->
  subscriberThrows s = false ->
  unknownTo s w = true ->
  exists w1,
    subscribe w s = (w1, Normal (promise w1)) /\
    w1 = fst (subscribe w s) /\
    item (promise w1) = item (promise w) /\
    invocations w1 = invocations w ++ [mkInvocation s (Some (item (promise w)))] /\
    Delivery s (callsTo s w) (item (promise w)) w1.
Proof.
  intros P F T U.
  unfold unknownTo in U. apply andb_true_iff in U. destruct U as [U1 U2].
  apply negb_true_iff in U1, U2.
  unfold subscribe, callSubscriber. rewrite F, T. cbn [negb].
  unfold then_. cbn [promise promiseState]. rewrite P. cbn [fst].
  eexists. split; [reflexivity|]. cbn.
  repeat (split; [reflexivity|]).
  apply Waiting with (r1 := reactions (promise w)) (r2 := []);
    [reflexivity | reflexivity | exact U1 | reflexivity | exact U2 |].
  erewrite callsTo_snoc by reflexivity. now rewrite subscriber_eqb_refl.
Qed.

(** Handing a ready item that fulfils at once to the resolve function of an
    object on which nothing has been resolved fulfils it with this item;
    handing a failed item to the reject function rejects it with the
    LoadError of this item. *)
Lemma resolve_untouched {L} `{Loadable L} (w : World L) t status :
  untouched w ->
  getStatus t = Normal status -> ready status = true -> fulfilsAtOnce t = true ->
  promiseState (promise (step w (Resolve t))) = Fulfilled t.
Proof.
  intros [P [A _]] S R F. cbn [step]. rewrite resolveWrapper_initialised, S, R.
  unfold resolve. cbn [setFulfilled alreadyResolved]. rewrite A.
  unfold resolvePromise, fulfilsAtOnce in *. destruct (getThen t) as [f|e]; [|discriminate F].
  apply negb_true_iff in F. rewrite F. unfold fulfillPromise. cbn. now rewrite P.
Qed.

Lemma reject_untouched {L} `{Loadable L} (w : World L) t status e :
  untouched w ->
  getStatus t = Normal status -> error status = Some e ->
  promiseState (promise (step w (Reject t))) = Rejected (newLoadError (Some e) t).
Proof.
  intros [P [A _]] S R. cbn [step]. rewrite rejectWrapper_initialised, S, R.
  unfold reject. cbn [setFulfilled alreadyResolved]. rewrite A.
  unfold rejectPromise. cbn. now rewrite P.
Qed.

(** C1, as the source has it.  On a LoadablePromise that a program has
    reached, that is pending and whose flag is unset (neither function of
    the object has gone through), [subscribe(callback)] with a callback
    that returns calls the callback at once with the item of the object,
    which is in the loading state, and returns the object itself.
    Whatever happens afterwards (short of subscribing the same callback
    again), the callback is called at most once more, after the loading
    call, and not at all while the promise is pending.  And when the
    resolve function is then given a ready item that fulfils at once, or
    the reject function a failed item, the promise settles on it, and once
    the queued jobs have run the callback has been called exactly once
    more, with this terminal item: for a failure, the item of the
    LoadError. *)
Theorem subscribe_delivers_loading_then_terminal :
  forall (L : Type) (H : Loadable L) (w : World L) (s : Subscriber),
    reachable w ->
    promiseState (promise w) = Pending ->
    fulfilled (promise w) = false ->
    subscriberThrows s = false ->
    unknownTo s w = true ->
    exists w1,
      subscribe w s = (w1, Normal (promise w1)) /\
      item (promise w1) = item (promise w) /\
      invocations w1 = invocations w ++ [mkInvocation s (Some (item (promise w)))] /\
      (exists status, getStatus (item (promise w)) = Normal status /\
                      loading status = true) /\
      (forall ops, existsb (subscribes s) ops = false ->
         let w2 := run ops w1 in
         (callsTo s w2 = callsTo s w ++ [Some (item (promise w))] \/
          exists x, callsTo s w2 = callsTo s w ++ [Some (item (promise w)); x]) /\
         (promiseState (promise w2) = Pending ->
            callsTo s w2 = callsTo s w ++ [Some (item (promise w))])) /\
      (forall ops1 ops2 t status,
         existsb (subscribes s) ops1 = false ->
         existsb (subscribes s) ops2 = false ->
         fulfilled (promise (run ops1 w1)) = false ->
         getStatus t = Normal status ->
         (ready status = true -> fulfilsAtOnce t = true ->
            let w2 := run (ops1 ++ Resolve t :: ops2) w1 in
            promiseState (promise w2) = Fulfilled t /\
            callsTo s (drain w2) = callsTo s w ++ [Some (item (promise w)); Some t]) /\
         (forall e, error status = Some e ->
            let w2 := run (ops1 ++ Reject t :: ops2) w1 in
            promiseState (promise w2) = Rejected (newLoadError (Some e) t) /\
            callsTo s (drain w2) = callsTo s w ++ [Some (item (promise w)); Some t])).
Proof.
  intros L H w s R P F T U.
  destruct (subscribe_pending w s P F T U) as [w1 [E [W1 [I [V D]]]]].
  exists w1. repeat (split; [assumption|]).
  split; [now apply reachable_pending_loading|].
  split.
  - intros ops N w2.
    pose proof (Delivery_run ops N D) as D2. fold w2 in D2.
    split.
    + destruct D2 as [? ? ? ? ? ? ? C|? ? ? ? ? ? ? ? C|? ? ? C]; eauto.
    + intros P2.
      destruct D2 as [? ? ? ? ? ? ? C|? ? ? ? ? O ? ? C|P2' ? ? C];
        [exact C | apply outcomeJob_call in O; tauto | contradiction].
  - intros ops1 ops2 t status N1 N2 F1 S.
    assert (U1 : fulfilled (promise w1) = false -> untouched w1).
    { rewrite W1. apply (@untouched_step _ _ w (Subscribe s)).
      intros _. now apply reachable_pending_untouched. }
    pose proof (@untouched_run _ _ ops1 w1 U1 F1) as U'.
    pose proof (Delivery_run ops1 N1 D) as D'.
    assert (K : forall op st,
               subscribes s op = false ->
               promiseState (promise (step (run ops1 w1) op)) = st -> st <> Pending ->
               let w2 := run (ops1 ++ op :: ops2) w1 in
               promiseState (promise w2) = st /\
               callsTo s (drain w2) = callsTo s w ++ [Some (item (promise w)); terminalItem st]).
    { intros op st No St Ne w2.
      assert (W2 : w2 = run ops2 (step (run ops1 w1) op)).
      { unfold w2. now rewrite run_app. }
      assert (P2 : promiseState (promise w2) = st).
      { rewrite W2. destruct (run_settled ops2 (step (run ops1 w1) op)) as [_ X].
        rewrite X; [exact St|]. now rewrite St. }
      split; [exact P2|].
      rewrite <- P2. apply Delivery_drained; [|now rewrite P2].
      rewrite W2. apply Delivery_run; [exact N2|]. now apply Delivery_step. }
    split.
    + intros Rd At. apply (K (Resolve t) (Fulfilled t)); [reflexivity| |discriminate].
      now apply resolve_untouched with (status := status).
    + intros e Er.
      apply (K (Reject t) (Rejected (newLoadError (Some e) t))); [reflexivity| |discriminate].
      now apply reject_untouched with (status := status).
Qed.

Lemma subscribe_delivers_witness :
  let loadingJohn := LoadableRecord john loadingPatch_ in
  let readyAlice := LoadableRecord alice readyPatch_ in
  let failedJohn := LoadableRecord john failedPatch_ in
  let s := mkSubscriber 1 false in
  let w := mkWorld (mkLoadablePromise Pending [] false loadingJohn) [] [] false false in
  newLoadablePromise [] loadingJohn = Normal w /\
  exists w1,
    subscribe w s = (w1, Normal (promise w1)) /\
    callsTo s w1 = [Some loadingJohn] /\
    callsTo s (run [Then 7] w1) = [Some loadingJohn] /\
    callsTo s (drain (run [Resolve readyAlice; RunJob; Resolve loadingJohn] w1))
      = [Some loadingJohn; Some readyAlice] /\
    promiseState (promise (run [Then 7; Reject failedJohn] w1))
      = Rejected (LoadError "fail" failedJohn) /\
    callsTo s (drain (run [Then 7; Reject failedJohn] w1))
      = [Some loadingJohn; Some failedJohn].
Proof.
  intros loadingJohn readyAlice failedJohn s w.
  assert (E : newLoadablePromise [] loadingJohn = Normal w) by reflexivity.
  split; [exact E|].
  destruct (@subscribe_delivers_loading_then_terminal
              _ LoadableRecord_Loadable w s
              (reachable_new (@nil (ExecutorAction LoadableRecordT)) loadingJohn E)
              eq_refl eq_refl eq_refl eq_refl)
    as [w1 [S [_ [V [_ [K D]]]]]].
  exists w1. split; [exact S|].
  assert (W1 : w1 = fst (subscribe w s)) by now rewrite S.
  split; [|split; [|split; [|split]]].
  - destruct (K [] eq_refl) as [_ C]. apply C. now rewrite W1.
  - destruct (K [Then 7] eq_refl) as [_ C]. apply C. now rewrite W1.
  - destruct (D [] [RunJob; Resolve loadingJohn] readyAlice _ eq_refl eq_refl
                (eq_trans (f_equal (fun x => fulfilled (promise x)) W1) eq_refl) eq_refl)
      as [A _].
    exact (proj2 (A eq_refl eq_refl)).
  - destruct (D [Then 7] [] failedJohn _ eq_refl eq_refl
                (eq_trans (f_equal (fun x => fulfilled (promise (run [Then 7] x))) W1) eq_refl)
                eq_refl)
      as [_ B].
    exact (proj1 (B failure eq_refl)).
  - destruct (D [Then 7] [] failedJohn _ eq_refl eq_refl
                (eq_trans (f_equal (fun x => fulfilled (promise (run [Then 7] x))) W1) eq_refl)
                eq_refl)
      as [_ B].
    exact (proj2 (B failure eq_refl)).
Defined.

(** C1 as stated does not hold.  A callback that throws makes [subscribe]
    throw and not return the object, and the callback is never told of
    the outcome.  And an object is not settled by a ready item whose [then]
    is callable, such as a LoadableProxy of an object with a [then] method:
    the flag of the object is set while the promise stays pending, so that
    a later [subscribe] makes no call with the loading item, and an earlier
    subscriber is told what the [then] of the item settles the promise on,
    here an item that is loading, not the ready item.  And a callback that
    is subscribed twice is told twice of the outcome. *)
Lemma subscribe_throwing_or_thenable_counterexample :
  let loadingJohn := LoadableRecord john loadingPatch_ in
  let readyAlice := LoadableRecord alice readyPatch_ in
  let thrower := mkSubscriber 1 true in
  let s := mkSubscriber 2 false in
  let s' := mkSubscriber 3 false in
  (exists w w1 e,
      newLoadablePromise [] loadingJohn = Normal w /\
      subscribe w thrower = (w1, Throw e) /\
      promiseState (promise (run [Resolve readyAlice] w1)) = Fulfilled readyAlice /\
      callsTo thrower (drain (run [Resolve readyAlice] w1)) = [Some loadingJohn]) /\
  (let loadingProxy := proxyOf john loadingPatch_ in
   let readyThenable := proxyOf thenable readyPatch_ in
   LoadableProxy john loadingPatch_ = Normal loadingProxy /\
   LoadableProxy thenable readyPatch_ = Normal readyThenable /\
   getStatus readyThenable = Normal readyStatus /\
   exists w w1,
     newLoadablePromise [] loadingProxy = Normal w /\
     subscribe w s = (w1, Normal (promise w1)) /\
     let w2 := run [Resolve readyThenable; RunJob] w1 in
     promiseState (promise w2) = Pending /\
     fulfilled (promise w2) = true /\
     invocations (fst (subscribe w2 s')) = invocations w2 /\
     callsTo s (drain (run [ThenableResolves loadingProxy] w2))
       = [Some loadingProxy; Some loadingProxy]) /\
  (exists w,
      newLoadablePromise [] loadingJohn = Normal w /\
      callsTo s (drain (run [Subscribe s; Subscribe s; Resolve readyAlice] w))
        = [Some loadingJohn; Some loadingJohn; Some readyAlice; Some readyAlice]).
Proof.
  intros loadingJohn readyAlice thrower s s'. split; [|split].
  - do 3 eexists. repeat (split; [reflexivity|]). reflexivity.
  - intros loadingProxy readyThenable. repeat (split; [reflexivity|]).
    do 2 eexists. repeat (split; [reflexivity|]). reflexivity.
  - eexists. split; reflexivity.
Qed.

(** ** Rejections *)

Lemma rejectsWithLoadErrors_frame {L} `{Loadable L} (w w' : World L) :
  promiseState (promise w') = promiseState (promise w) ->
  (forall j, In j (microtasks w') -> In j (microtasks w)) ->
  rejectsWithLoadErrors w -> rejectsWithLoadErrors w'.
Proof.
  intros P M [A B]. split.
  - intros reason E. apply A. now rewrite <- P.
  - intros r reason I. eapply B. apply M. exact I.
Qed.

Lemma In_fulfillJobs {L} rs (v : L) r reason :
  ~ In (RejectJob r reason) (fulfillJobs rs v).
Proof.
  unfold fulfillJobs. intros I. apply in_map_iff in I.
  destruct I as [x [E _]]. discriminate E.
Qed.

Lemma In_rejectJobs {L} rs (reason reason' : Rejection L) r :
  In (RejectJob r reason') (rejectJobs rs reason) -> reason' = reason.
Proof.
  unfold rejectJobs. intros I. apply in_map_iff in I.
  destruct I as [x [E _]]. now inversion E.
Qed.

Lemma then_microtasks {L} (w : World L) r j :
  In j (microtasks (fst (then_ w r))) ->
  In j (microtasks w) \/
  (exists v, promiseState (promise w) = Fulfilled v /\ j = FulfillJob r v) \/
  (exists reason, promiseState (promise w) = Rejected reason /\ j = RejectJob r reason).
Proof.
  unfold then_. destruct (promiseState (promise w)) as [|v|reason]; cbn [fst microtasks];
    intros I; [now left| |]; apply in_app_or in I; destruct I as [I|[I|[]]];
    subst; eauto.
Qed.

Lemma rejectsWithLoadErrors_then {L} `{Loadable L} (w : World L) r :
  rejectsWithLoadErrors w -> rejectsWithLoadErrors (fst (then_ w r)).
Proof.
  intros [A B]. destruct (then_frame w r) as [P _]. split.
  - intros reason E. apply A. now rewrite <- P.
  - intros r' reason I. apply then_microtasks in I.
    destruct I as [I|[[v [_ E]]|[reason' [S E]]]].
    + eapply B. exact I.
    + discriminate E.
    + inversion E; subst. now apply A.
Qed.

Lemma rejectsWithLoadErrors_fulfillPromise {L} `{Loadable L} (w : World L) v :
  rejectsWithLoadErrors w -> rejectsWithLoadErrors (fulfillPromise w v).
Proof.
  intros [A B]. unfold fulfillPromise.
  destruct (promiseState (promise w)) as [|v'|reason] eqn:P; [|now split; rewrite ?P..].
  split; cbn.
  - intros reason E. discriminate E.
  - intros r reason I. apply in_app_or in I. destruct I as [I|I];
      [eapply B; exact I|]. now apply In_fulfillJobs in I.
Qed.

Lemma rejectsWithLoadErrors_rejectPromise {L} `{Loadable L} (w : World L) reason :
  carriesFailedItem reason ->
  rejectsWithLoadErrors w -> rejectsWithLoadErrors (rejectPromise w reason).
Proof.
  intros C [A B]. unfold rejectPromise.
  destruct (promiseState (promise w)) as [|v'|reason'] eqn:P; [|now split; rewrite ?P..].
  split; cbn.
  - intros reason' E. inversion E; subst. exact C.
  - intros r reason' I. apply in_app_or in I. destruct I as [I|I];
      [eapply B; exact I|]. apply In_rejectJobs in I. subst. exact C.
Qed.

Lemma rejectsWithLoadErrors_flags {L} `{Loadable L} (w w' : World L) :
  promiseState (promise w') = promiseState (promise w) -> microtasks w' = microtasks w ->
  rejectsWithLoadErrors w -> rejectsWithLoadErrors w'.
Proof.
  intros P M. apply rejectsWithLoadErrors_frame; [exact P|].
  intros j. now rewrite M.
Qed.

(** As long as the resolve function is handed no item that does not fulfil
    at once, no thenable comes into play, and every rejection is made by
    the reject function of the object. *)
Lemma plain_step {L} `{Loadable L} (w : World L) op :
  adopts op = false ->
  handedOver w = false /\ existsb isThenableJob (microtasks w) = false /\
  rejectsWithLoadErrors w ->
  handedOver (step w op) = false /\ existsb isThenableJob (microtasks (step w op)) = false /\
  rejectsWithLoadErrors (step w op).
Proof.
  intros N [Ho [T D]]. destruct op as [t|t|s|c| |v|reason]; cbn [step].
  - rewrite resolveWrapper_initialised. cbn [adopts] in N.
    destruct (getStatus t) as [st|e]; [|auto].
    destruct (ready st); [|auto]. cbn [andb] in N. apply negb_false_iff in N.
    unfold resolve. cbn [setFulfilled alreadyResolved].
    destruct (alreadyResolved w).
    { split; [exact Ho|]. split; [exact T|]. revert D.
      now apply rejectsWithLoadErrors_flags. }
    unfold resolvePromise, fulfilsAtOnce in *.
    destruct (getThen t) as [f|e]; [|discriminate N].
    apply negb_true_iff in N. rewrite N.
    destruct (fulfillPromise_frame (setAlreadyResolved (setFulfilled w)) t)
      as [_ [_ [_ [_ X]]]].
    split; [now rewrite X|]. split.
    + unfold fulfillPromise.
      cbn [setAlreadyResolved setFulfilled promise promiseState microtasks reactions].
      destruct (promiseState (promise w)); cbn [microtasks]; try exact T.
      now rewrite existsb_app, T, isThenableJob_fulfillJobs.
    + apply rejectsWithLoadErrors_fulfillPromise. revert D.
      now apply rejectsWithLoadErrors_flags.
  - rewrite rejectWrapper_initialised.
    destruct (getStatus t) as [st|e] eqn:S; [|auto].
    destruct (error st) as [e|] eqn:Er; [|auto].
    unfold reject. cbn [setFulfilled alreadyResolved].
    destruct (alreadyResolved w).
    { split; [exact Ho|]. split; [exact T|]. revert D.
      now apply rejectsWithLoadErrors_flags. }
    destruct (rejectPromise_frame (setAlreadyResolved (setFulfilled w))
                                  (newLoadError (Some e) t))
      as [_ [_ [_ [_ X]]]].
    split; [now rewrite X|]. split.
    + unfold rejectPromise.
      cbn [setAlreadyResolved setFulfilled promise promiseState microtasks reactions].
      destruct (promiseState (promise w)); cbn [microtasks]; try exact T.
      now rewrite existsb_app, T, isThenableJob_rejectJobs.
    + apply rejectsWithLoadErrors_rejectPromise; [now exists t, st, e|]. revert D.
      now apply rejectsWithLoadErrors_flags.
  - destruct (subscribe_frame w s) as [_ [_ [_ [_ [E _]]]]].
    split; [now rewrite E|].
    unfold subscribe, callSubscriber.
    destruct (negb (fulfilled (promise w))); [destruct (subscriberThrows s)|];
      cbn [fst]; (split; [|try apply rejectsWithLoadErrors_then; revert D;
                           now apply rejectsWithLoadErrors_flags]);
      try exact T;
      unfold then_; cbn; destruct (promiseState (promise w)); cbn;
      rewrite ?existsb_app, ?T; reflexivity.
  - destruct (then_frame w (Continuation c)) as [_ [_ [_ [_ [_ E]]]]].
    split; [now rewrite E|]. split; [|now apply rejectsWithLoadErrors_then].
    unfold then_; cbn; destruct (promiseState (promise w)); cbn;
      rewrite ?existsb_app, ?T; reflexivity.
  - destruct (microtasks w) as [|j rest] eqn:Q.
    { unfold runJob. rewrite Q. rewrite <- Q in T. auto. }
    destruct (runJob_cons w Q) as [RP [RM _]].
    cbn in T. apply orb_false_iff in T. destruct T as [Tj Tr].
    split; [|split].
    + unfold runJob, callSubscriber. rewrite Q.
      destruct j as [[s|c] v|[s|c] r|t]; cbn; try exact Ho. discriminate Tj.
    + now rewrite RM.
    + revert D. apply rejectsWithLoadErrors_frame; [now rewrite RP|].
      rewrite RM, Q. intros j' I. now right.
  - unfold thenableResolves. rewrite Ho. auto.
  - unfold thenableRejects. rewrite Ho. auto.
Qed.

Lemma plain_run {L} `{Loadable L} ops (w : World L) :
  existsb adopts ops = false ->
  handedOver w = false /\ existsb isThenableJob (microtasks w) = false /\
  rejectsWithLoadErrors w ->
  rejectsWithLoadErrors (run ops w).
Proof.
  revert w. induction ops as [|op ops IH]; intros w N D; [apply D|].
  cbn in N. apply orb_false_iff in N. destruct N as [N1 N2].
  cbn [run fold_left]. apply IH; [exact N2|]. now apply plain_step.
Qed.

(** C3, as the source has it.  Resolving with an item that is not ready and
    rejecting with an item that has no error are TypeErrors, and leave the
    promise as it was.  Rejecting a pending promise on which nothing has
    been resolved with a failed item rejects it with the LoadError that
    carries this item.  On an object that came out of its construction
    pending, as long as the resolve function is handed no ready item that
    does not fulfil at once, every rejection, delivered or queued, is such
    a LoadError.  The other rejections are those of an executor that
    throws, which is rejected with what it throws, and those of a ready
    item whose [then] is callable: the promise stays pending when it is
    resolved with such an item, and is rejected with whatever reason the
    [then] of the item gives. *)
Theorem resolve_reject_contract_and_LoadError :
  forall (L : Type) (H : Loadable L),
    (forall thisInitialised (w : World L) t status,
        getStatus t = Normal status -> ready status = false ->
        resolveWrapper thisInitialised w t
        = (w, throwTypeError "Expected item with status ready, given ${item[statusKey]}")) /\
    (forall thisInitialised (w : World L) t status,
        getStatus t = Normal status -> error status = None ->
        rejectWrapper thisInitialised w t
        = (w, throwTypeError "Expected item with status failed, given ${item[statusKey]}")) /\
    (forall (w : World L) t status e,
        getStatus t = Normal status -> error status = Some e ->
        promiseState (promise w) = Pending ->
        alreadyResolved w = false ->
        snd (rejectWrapper true w t) = Normal tt /\
        promiseState (promise (fst (rejectWrapper true w t)))
        = Rejected (newLoadError (Some e) t) /\
        reasonItem (newLoadError (Some e) t) = Some t) /\
    (forall executor loadingItem0 (w0 : World L) ops,
        newLoadablePromise executor loadingItem0 = Normal w0 ->
        promiseState (promise w0) = Pending ->
        existsb adopts ops = false ->
        rejectsWithLoadErrors (run ops w0)) /\
    (forall executor e rest loadingItem0 status,
        getStatus loadingItem0 = Normal status -> loading status = true ->
        snd (runExecutor executor
               (mkWorld (mkLoadablePromise Pending [] false loadingItem0) [] [] false false))
        = Normal tt ->
        exists w,
          newLoadablePromise (executor ++ ThrowError e :: rest) loadingItem0 = Normal w /\
          promiseState (promise w) = Rejected (Raised e)) /\
    (forall executor loadingItem0 (w0 : World L) t status thenAction reason,
        newLoadablePromise executor loadingItem0 = Normal w0 ->
        promiseState (promise w0) = Pending ->
        getStatus t = Normal status -> ready status = true ->
        getThen t = Normal thenAction -> isFunction thenAction = true ->
        promiseState (promise (run [Resolve t; RunJob] w0)) = Pending /\
        promiseState (promise (run [Resolve t; RunJob; ThenableRejects reason] w0))
        = Rejected reason).
Proof.
  intros L H. split; [|split; [|split; [|split; [|split]]]].
  - intros i w t status S R. unfold resolveWrapper. now rewrite S, R.
  - intros i w t status S R. unfold rejectWrapper. now rewrite S, R.
  - intros w t status e S R P A. unfold rejectWrapper. rewrite S, R. cbn [negb fst snd].
    split; [reflexivity|]. split; [|reflexivity].
    unfold reject, rejectPromise. cbn. now rewrite A, P.
  - intros executor loadingItem0 w0 ops E P N. apply plain_run; [exact N|].
    destruct (newLoadablePromise_pending _ _ E P) as [W0 _]. subst w0. cbn.
    repeat (split; [reflexivity|]). split.
    + intros reason R. discriminate R.
    + intros r reason I. destruct I.
  - intros executor e rest loadingItem0 status S Ld X.
    unfold newLoadablePromise. rewrite S, Ld. cbn [negb].
    set (w0 := mkWorld (mkLoadablePromise Pending [] false loadingItem0) [] [] false false)
      in *.
    assert (K : runExecutor (executor ++ ThrowError e :: rest) w0 = (w0, Throw e)).
    { clear S Ld. revert X. generalize w0.
      induction executor as [|a executor IH]; intros w1 X; [reflexivity|].
      cbn [app runExecutor] in *. pose proof (runAction_world a w1) as A.
      destruct (runAction a w1) as [w' [u|e']]; cbn [fst snd] in *; subst w'.
      - now apply IH.
      - discriminate X. }
    rewrite K. eexists. split; reflexivity.
  - intros executor loadingItem0 w0 t status f reason E P S R T F.
    destruct (newLoadablePromise_pending _ _ E P) as [W0 _]. subst w0.
    unfold run. cbn [fold_left step]. rewrite resolveWrapper_initialised, S, R.
    unfold resolve, resolvePromise. cbn. rewrite T, F. cbn.
    split; reflexivity.
Qed.

Lemma resolve_reject_contract_witness :
  let loadingJohn := LoadableRecord john loadingPatch_ in
  let failedJohn := LoadableRecord john failedPatch_ in
  let w := mkWorld (mkLoadablePromise Pending [] false loadingJohn) [] [] false false in
  fst (resolveWrapper true w loadingJohn) = w /\
  fst (rejectWrapper true w loadingJohn) = w /\
  promiseState (promise (fst (rejectWrapper true w failedJohn)))
    = Rejected (LoadError "fail" failedJohn) /\
  rejectsWithLoadErrors (run [Subscribe (mkSubscriber 1 false); Reject failedJohn] w) /\
  (exists w',
      newLoadablePromise [TryCatch (CallResolve failedJohn); ThrowError failure] loadingJohn
        = Normal w' /\
      promiseState (promise w') = Rejected (Raised failure)) /\
  (let loadingProxy := proxyOf john loadingPatch_ in
   let readyThenable := proxyOf thenable readyPatch_ in
   LoadableProxy john loadingPatch_ = Normal loadingProxy /\
   LoadableProxy thenable readyPatch_ = Normal readyThenable /\
   exists w0,
     newLoadablePromise [] loadingProxy = Normal w0 /\
     promiseState (promise (run [Resolve readyThenable; RunJob;
                                  ThenableRejects (Raised failure)] w0))
       = Rejected (Raised failure)).
Proof.
  intros loadingJohn failedJohn w.
  destruct (@resolve_reject_contract_and_LoadError _ LoadableRecord_Loadable)
    as [A [B [C [D [X _]]]]].
  destruct (@resolve_reject_contract_and_LoadError _ LoadableProxy_Loadable)
    as [_ [_ [_ [_ [_ T]]]]].
  assert (E : newLoadablePromise [] loadingJohn = Normal w) by reflexivity.
  split; [|split; [|split; [|split; [|split]]]].
  - now rewrite (A true w loadingJohn _ eq_refl eq_refl).
  - now rewrite (B true w loadingJohn _ eq_refl eq_refl).
  - exact (proj1 (proj2 (C w failedJohn _ failure eq_refl eq_refl eq_refl eq_refl))).
  - exact (D [] loadingJohn w [Subscribe (mkSubscriber 1 false); Reject failedJohn]
             E eq_refl eq_refl).
  - exact (X [TryCatch (CallResolve failedJohn)] failure [] loadingJohn _
             eq_refl eq_refl eq_refl).
  - intros loadingProxy readyThenable. split; [reflexivity|]. split; [reflexivity|].
    assert (E0 : newLoadablePromise [] loadingProxy
                 = Normal (mkWorld (mkLoadablePromise Pending [] false loadingProxy)
                                   [] [] false false)) by reflexivity.
    eexists. split; [exact E0|].
    exact (proj2 (T [] loadingProxy _ readyThenable readyStatus
                    (VFunction (Other "then")) (Raised failure)
                    E0 eq_refl eq_refl eq_refl eq_refl eq_refl)).
Defined.

(** C3 as stated does not hold: a promise whose executor throws is rejected
    with what was thrown, which is no LoadError, and a subscriber is then
    called with [undefined] in place of a terminal item; and a promise
    that is resolved with a ready item whose [then] is callable is rejected
    with the reason this [then] gives, which need not be a LoadError
    either. *)
Lemma rejection_of_throwing_executor_counterexample :
  let loadingJohn := LoadableRecord john loadingPatch_ in
  let boom := mkError Error "boom" in
  let s := mkSubscriber 1 false in
  (exists w,
      newLoadablePromise [ThrowError boom] loadingJohn = Normal w /\
      promiseState (promise w) = Rejected (Raised boom) /\
      (forall msg t, promiseState (promise w) <> Rejected (LoadError msg t)) /\
      ~ rejectsWithLoadErrors w /\
      callsTo s (run [Subscribe s; RunJob] w) = [Some loadingJohn; None]) /\
  (let loadingProxy := proxyOf john loadingPatch_ in
   let readyThenable := proxyOf thenable readyPatch_ in
   LoadableProxy john loadingPatch_ = Normal loadingProxy /\
   LoadableProxy thenable readyPatch_ = Normal readyThenable /\
   getStatus readyThenable = Normal readyStatus /\
   exists w0,
     newLoadablePromise [] loadingProxy = Normal w0 /\
     promiseState (promise w0) = Pending /\
     let w1 := run [Subscribe s; Resolve readyThenable; RunJob;
                    ThenableRejects (Raised boom)] w0 in
     promiseState (promise w1) = Rejected (Raised boom) /\
     ~ rejectsWithLoadErrors w1 /\
     callsTo s (drain w1) = [Some loadingProxy; None]).
Proof.
  intros loadingJohn boom s. split.
  - eexists. split; [reflexivity|].
    split; [reflexivity|]. split; [discriminate|]. split; [|reflexivity].
    intros [A _]. destruct (A (Raised boom) eq_refl) as [t [st [e [_ [_ E]]]]].
    discriminate E.
  - intros loadingProxy readyThenable. do 3 (split; [reflexivity|]).
    eexists. do 2 (split; [reflexivity|]). intros w1.
    split; [reflexivity|]. split; [|reflexivity].
    intros [A _]. destruct (A (Raised boom) eq_refl) as [t [st [e [_ [_ E]]]]].
    discriminate E.
Qed.

(* ================================================================== *)
(** * Further properties of the delegation substrate *)
(* ================================================================== *)

(** A key that the wrapper does not have reads as [undefined]: [has] and
    [get] agree on absence, for every wrapper, whatever its body and its
    extension. *)
Theorem has_false_get_undefined :
  forall (p : Proxy) (k : PropertyKey),
    ProxyObject.HasProperty p k = Normal false ->
    ProxyObject.Get p k = Normal VUndefined.
Proof.
  intros p k E. unfold ProxyObject.HasProperty in E.
  destruct (handlerMethods.has (target p) k) eqn:Hs.
  - destruct (negb true && targetHasOwn k && negb (targetExtensible p));
      discriminate E.
  - clear E. unfold ProxyObject.Get, handlerMethods.get.
    unfold handlerMethods.has in Hs.
    destruct (hasOwnProperty (extension (target p)) k); [discriminate Hs|].
    destruct (isObject (body (target p)) && hasProperty (body (target p)) k);
      [discriminate Hs|].
    destruct (key_eqb k nodeInspectCustom); [destruct (_ && _); discriminate Hs|].
    destruct (key_eqb k proxyKey); [destruct (_ && _); discriminate Hs|].
    destruct (key_eqb k (KString "toJSON")); [|reflexivity].
    destruct (instanceof (body (target p)) StringC); [discriminate Hs|].
    destruct (instanceof (body (target p)) NumberC); [discriminate Hs|].
    reflexivity.
Qed.

Lemma has_false_get_undefined_witness :
  exists p,
    ProxyWrapper (objectLiteral [(KString "x", VNumber 42)]) [] = Normal p /\
    ProxyObject.Get p (KString "y") = Normal VUndefined.
Proof.
  eexists. split; [reflexivity|].
  apply has_false_get_undefined. reflexivity.
Defined.

(** Reading through a wrapper a field that the extension does not hold
    answers what the body answers (a function bound to the body when the
    body is a String, Number, Date or RegExp instance), [undefined]
    included; the two introspection symbols and the [toJSON] convenience of
    boxed primitives are the only additions. *)
Theorem wrapper_reads_delegate_to_body :
  forall (t : Target) (k : PropertyKey),
    hasOwnProperty (extension t) k = false ->
    key_eqb k nodeInspectCustom = false ->
    key_eqb k proxyKey = false ->
    (key_eqb k (KString "toJSON") = true ->
       hasProperty (body t) k = true \/
       instanceof (body t) StringC || instanceof (body t) NumberC = false) ->
    handlerMethods.get t k = Normal (delegated (body t) (getProperty (body t) k)).
Proof.
  intros t k E N X J.
  destruct (isObject (body t) && hasProperty (body t) k) eqn:B.
  - apply andb_true_iff in B. destruct B as [O P]. now apply get_body.
  - assert (U : getProperty (body t) k = VUndefined).
    { destruct (body t) as [| | | | | | | | |slot own inh]; try reflexivity.
      cbn [isObject andb] in B. unfold hasProperty, hasKey in B.
      unfold getProperty. cbn [ownProperties inheritedProperties] in *.
      destruct (lookup k own); [discriminate B|].
      destruct (lookup k inh); [discriminate B|reflexivity]. }
    rewrite U. unfold delegated. cbn [isFunction typeof andb].
    unfold handlerMethods.get. rewrite E, B, N, X.
    destruct (key_eqb k (KString "toJSON")) eqn:Jk; [|reflexivity].
    destruct (J eq_refl) as [P|P].
    + rewrite P, andb_true_r in B.
      destruct (body t); try discriminate B; discriminate P.
    + apply orb_false_iff in P. destruct P as [P1 P2]. now rewrite P1, P2.
Qed.

Lemma wrapper_reads_delegate_witness :
  handlerMethods.get (mkTarget john [(itemKey, hidden VNull)]) (KString "name")
    = Normal (VString "john") /\
  handlerMethods.get (mkTarget john [(itemKey, hidden VNull)]) (KString "toJSON")
    = Normal VUndefined.
Proof.
  split.
  - apply (wrapper_reads_delegate_to_body (mkTarget john [(itemKey, hidden VNull)])
             (KString "name") eq_refl eq_refl eq_refl).
    discriminate.
  - apply (wrapper_reads_delegate_to_body (mkTarget john [(itemKey, hidden VNull)])
             (KString "toJSON") eq_refl eq_refl eq_refl).
    intros _. right. reflexivity.
Defined.

(** The introspection access point gives back what the wrapper was made of:
    the body (the value, boxed when it is a primitive) and the extension;
    and the inspection hook answers a function that returns the body. *)
Theorem proxyKey_recovers_body_and_extension :
  forall (v : Value) (ext : Properties) (p : Proxy),
    ProxyWrapper v ext = Normal p ->
    hasOwnProperty ext proxyKey = false ->
    hasProperty (boxed v) proxyKey = false ->
    hasOwnProperty ext nodeInspectCustom = false ->
    hasProperty (boxed v) nodeInspectCustom = false ->
    body (target p) = boxed v /\
    (exists r, ProxyObject.Get p proxyKey = Normal r /\
               getProperty r (KString "body") = boxed v /\
               ownProperties (getProperty r (KString "extension")) = ext) /\
    (exists f, ProxyObject.Get p nodeInspectCustom = Normal f /\
               forall this, Call f this = Some (Normal (boxed v))).
Proof.
  intros v ext p W E1 B1 E2 B2.
  assert (T : target p = mkTarget (boxed v) ext).
  { destruct v; cbn in W; try discriminate W; inversion W; reflexivity. }
  unfold ProxyObject.Get. rewrite T. cbn [body].
  split; [reflexivity|]. unfold handlerMethods.get. cbn [body extension].
  rewrite E1, E2, B1, B2, !andb_false_r. cbn.
  split; eexists; (split; [reflexivity|]); cbn; auto.
Qed.

Lemma proxyKey_recovers_witness :
  exists p r,
    ProxyWrapper (VNumber 42) [(itemKey, hidden (VNumber 42))] = Normal p /\
    ProxyObject.Get p proxyKey = Normal r /\
    getProperty r (KString "body") = newNumber 42.
Proof.
  destruct (proxyKey_recovers_body_and_extension
              (VNumber 42) [(itemKey, hidden (VNumber 42))] eq_refl
              eq_refl eq_refl eq_refl eq_refl) as [_ [[r [G [B _]]] _]].
  eexists. exists r. split; [reflexivity|]. split; [exact G|exact B].
Defined.

Lemma newString_hasProperty_toJSON s :
  hasProperty (newString s) (KString "toJSON") = false.
Proof.
  apply hasProperty_absent; [|reflexivity].
  apply newString_own; [reflexivity|discriminate].
Qed.

Lemma newString_toString s :
  getProperty (newString s) (KString "toString") = VFunction String_toString.
Proof.
  assert (O : lookup (KString "toString") (ownProperties (newString s)) = None).
  { apply newString_own; [reflexivity|discriminate]. }
  destruct (getProperty_inherited (StringData s) _ String_prototype
                                  (KString "toString") O eq_refl) as [_ G].
  exact G.
Qed.

(** A wrapper over a primitive string or number answers [toJSON()] with the
    primitive, unless the extension holds a [toJSON] of its own. *)
Theorem boxed_primitive_toJSON :
  forall (ext : Properties),
    hasOwnProperty ext (KString "toJSON") = false ->
    (forall s, exists p, ProxyWrapper (VString s) ext = Normal p /\
                         ProxyObject.HasProperty p (KString "toJSON") = Normal true /\
                         invoke p "toJSON" = Some (Normal (VString s))) /\
    (forall n, exists p, ProxyWrapper (VNumber n) ext = Normal p /\
                         ProxyObject.HasProperty p (KString "toJSON") = Normal true /\
                         invoke p "toJSON" = Some (Normal (VNumber n))).
Proof.
  intros ext E. split.
  - intros s. eexists. split; [reflexivity|].
    unfold invoke, ProxyObject.HasProperty, ProxyObject.Get,
      handlerMethods.has, handlerMethods.get.
    cbn [target body extension targetExtensible].
    rewrite E, newString_hasProperty_toJSON, andb_false_r.
    unfold bindMethod. rewrite newString_toString. split; reflexivity.
  - intros n. eexists. split; [reflexivity|].
    unfold invoke, ProxyObject.HasProperty, ProxyObject.Get,
      handlerMethods.has, handlerMethods.get.
    cbn [target body extension targetExtensible]. rewrite E. split; reflexivity.
Qed.

Lemma boxed_primitive_toJSON_witness :
  exists p, ProxyWrapper (VString "foo") (loadableExtension (VString "foo") defaultStatus)
            = Normal p /\
            invoke p "toJSON" = Some (Normal (VString "foo")).
Proof.
  destruct (boxed_primitive_toJSON (loadableExtension (VString "foo") defaultStatus) eq_refl)
    as [S _].
  destruct (S "foo") as [p [W [_ I]]]. exists p. split; assumption.
Defined.

(** Reading a property of a wrapper does not throw: not for any key other
    than [toJSON], and for no key at all on a wrapper that [ProxyWrapper]
    made of a primitive string, a number or [null]. *)
Theorem wrapper_read_returns :
  (forall (p : Proxy) (k : PropertyKey),
      key_eqb k (KString "toJSON") = false -> returns (ProxyObject.Get p k) = true) /\
  (forall (v : Value) (ext : Properties) (p : Proxy) (k : PropertyKey),
      ProxyWrapper v ext = Normal p ->
      isObject v = false ->
      returns (ProxyObject.Get p k) = true).
Proof.
  assert (D : forall t v,
             returns (if isFunction v
                      then if instanceof (body t) StringC || instanceof (body t) NumberC
                              || instanceof (body t) DateC || instanceof (body t) RegExpC
                           then Normal (VBound v (body t))
                           else Normal v
                      else Normal v) = true).
  { intros t v. destruct (isFunction v); [|reflexivity]. now destruct (_ || _). }
  split.
  - intros p k J. unfold ProxyObject.Get, handlerMethods.get. rewrite J.
    destruct (hasOwnProperty (extension (target p)) k); [cbn [bind]; apply D|].
    destruct (isObject (body (target p)) && hasProperty (body (target p)) k); [cbn [bind]; apply D|].
    cbn [bind].
    destruct (key_eqb k nodeInspectCustom); [reflexivity|].
    destruct (key_eqb k proxyKey); [reflexivity|]. cbn [bind]. apply D.
  - intros v ext p k W O.
    assert (T : target p = mkTarget (boxed v) ext).
    { destruct v; cbn in W; try discriminate W; inversion W; reflexivity. }
    unfold ProxyObject.Get, handlerMethods.get. rewrite T. cbn [body extension].
    destruct (hasOwnProperty ext k); [cbn [bind]; apply (D (mkTarget (boxed v) ext))|].
    destruct (isObject (boxed v) && hasProperty (boxed v) k);
      [cbn [bind]; apply (D (mkTarget (boxed v) ext))|].
    assert (B : returns (if key_eqb k (KString "toJSON")
                         then if instanceof (boxed v) StringC
                              then bindMethod (boxed v) "toString"
                              else if instanceof (boxed v) NumberC
                                   then bindMethod (boxed v) "valueOf"
                                   else Normal VUndefined
                         else Normal VUndefined) = true).
    { destruct (key_eqb k (KString "toJSON")); [|reflexivity].
      destruct v; cbn in W; try discriminate W; try discriminate O; try reflexivity.
      cbn [boxed instanceof slotOf newString]. unfold bindMethod.
      now rewrite newString_toString. }
    destruct (if key_eqb k (KString "toJSON") then _ else _) as [x|e];
      [|discriminate B]. cbn [bind].
    destruct (key_eqb k nodeInspectCustom); [reflexivity|].
    destruct (key_eqb k proxyKey); [reflexivity|].
    cbn [bind]. apply (D (mkTarget (boxed v) ext)).
Qed.

Lemma wrapper_read_returns_witness :
  exists p, ProxyWrapper (VString "foo") [] = Normal p /\
            returns (ProxyObject.Get p (KString "toJSON")) = true /\
            returns (ProxyObject.Get p (KString "length")) = true.
Proof.
  eexists. split; [reflexivity|].
  destruct wrapper_read_returns as [A B]. split.
  - apply (B (VString "foo") [] _ (KString "toJSON") eq_refl eq_refl).
  - apply A. reflexivity.
Defined.

Lemma throwsTypeError_not_returns {A} (c : Completion A) :
  throwsTypeError c = true -> returns c = false.
Proof. destruct c as [a|[n m]]; [discriminate|reflexivity]. Qed.

Lemma CopyDataProperties_outcome t l :
  isObject (body t) = true ->
  (forall k prop, In (k, prop) l -> lookup k (ownProperties (body t)) = Some prop) ->
  if forallb (fun kp => hasOwnProperty (extension t) (fst kp) || configurable (snd kp)) l
  then returns (CopyDataProperties (mkProxy t true) (map fst l)) = true
  else throwsTypeError (CopyDataProperties (mkProxy t true) (map fst l)) = true.
Proof.
  intros O. induction l as [|[k prop] l IH]; intros Hl; [reflexivity|].
  assert (IH' := IH (fun k' p' I => Hl k' p' (or_intror I))). clear IH.
  pose proof (Hl k prop (or_introl eq_refl)) as Lk.
  cbn [map fst snd forallb CopyDataProperties].
  destruct (hasOwnProperty (extension t) k) eqn:E.
  - rewrite GetOwnProperty_extension by assumption. cbn [bind enumerable orb andb].
    exact IH'.
  - cbn [orb]. destruct (configurable prop) eqn:C.
    + rewrite (GetOwnProperty_body t k E O Lk C). cbn [bind andb].
      destruct (enumerable prop); [|exact IH'].
      assert (P : hasProperty (body t) k = true).
      { unfold hasProperty, hasKey. now rewrite Lk. }
      unfold ProxyObject.Get. cbn [target]. rewrite (get_body t k E O P). cbn [bind].
      destruct (forallb _ l);
        destruct (CopyDataProperties (mkProxy t true) (map fst l)) as [c|[n m]];
        cbn in *; congruence.
    + cbn [andb].
      unfold ProxyObject.GetOwnProperty, handlerMethods.getOwnPropertyDescriptor.
      cbn [target targetExtensible]. rewrite E, O.
      unfold Object_getOwnPropertyDescriptor. rewrite Lk, C, orb_true_r. reflexivity.
Qed.

(** Spreading a wrapper returns exactly when every own property of the body
    is configurable or shadowed by an extension field; otherwise it throws a
    TypeError.  (The characters and the [length] of a boxed string are not
    configurable.) *)
Theorem spread_returns_iff_unshadowed_configurable :
  forall (v : Value) (ext : Properties) (p : Proxy),
    ProxyWrapper v ext = Normal p ->
    NoDup (Reflect_ownKeys (body (target p))) ->
    returns (spread p) = unshadowedConfigurable (body (target p)) ext /\
    throwsTypeError (spread p) = negb (unshadowedConfigurable (body (target p)) ext).
Proof.
  intros v ext p W N. apply ProxyWrapper_Normal in W.
  destruct W as [Ex [Xt [_ B]]]. destruct p as [t x]. cbn in Ex, Xt, B, N |- *. subst x ext.
  unfold spread, ProxyObject.OwnPropertyKeys, handlerMethods.ownKeys.
  cbn [target targetExtensible].
  destruct B as [B|B].
  - rewrite B. cbn. auto.
  - rewrite B. pose proof N as N'. apply hasDuplicates_NoDup in N'. rewrite N'.
    cbn [bind].
    pose proof (CopyDataProperties_outcome t (ownProperties (body t)) B
                  (fun k prop I => lookup_NoDup _ k prop N I)) as K.
    unfold unshadowedConfigurable. fold (Reflect_ownKeys (body t)).
    unfold Reflect_ownKeys in *.
    destruct (forallb _ (ownProperties (body t))).
    + split; [exact K|].
      destruct (CopyDataProperties _ _); [reflexivity|discriminate K].
    + split; [now apply throwsTypeError_not_returns|exact K].
Qed.

Lemma spread_returns_iff_witness :
  exists p q,
    ProxyWrapper (VString "foo") [] = Normal p /\
    throwsTypeError (spread p) = true /\
    ProxyWrapper (VString "") [(KString "length", hidden VNull)] = Normal q /\
    returns (spread q) = true.
Proof.
  eexists. eexists. split; [reflexivity|].
  assert (N : forall s, String.length s <= 3 ->
                        NoDup (Reflect_ownKeys (newString s))).
  { intros s H. do 4 (destruct s as [|? s]; [cbn; repeat constructor; cbn;
      intuition discriminate|]). cbn in H. lia. }
  split; [|split; [reflexivity|]].
  - apply (spread_returns_iff_unshadowed_configurable (VString "foo") [] eq_refl).
    apply N. cbn. lia.
  - apply (spread_returns_iff_unshadowed_configurable
             (VString "") [(KString "length", hidden VNull)] eq_refl).
    apply N. cbn. lia.
Defined.

(** [Object.preventExtensions] is the one change a wrapper lets through.
    Afterwards the wrapper answers that it is not extensible and reads as
    before, but the descriptor of an extension field can no longer be
    asked for: the target does not have it. *)
Theorem preventExtensions_goes_through :
  forall (p : Proxy),
    exists p',
      Object_preventExtensions p = Normal p' /\
      target p' = target p /\
      Object_isExtensible p' = Normal false /\
      (forall k, ProxyObject.Get p' k = ProxyObject.Get p k) /\
      (forall k, hasOwnProperty (extension (target p)) k = true ->
                 targetHasOwn k = false ->
                 throwsTypeError (ProxyObject.GetOwnProperty p' k) = true).
Proof.
  intros p. eexists. split; [reflexivity|]. cbn.
  repeat (split; [reflexivity|]).
  intros k E T. unfold ProxyObject.GetOwnProperty, handlerMethods.getOwnPropertyDescriptor.
  cbn. now rewrite E, T.
Qed.

(** The formatter shows a wrapper as its body, and shows nothing for a
    value that is not a wrapper. *)
Theorem formatter_header_shows_body :
  (forall (v : Value) (ext : Properties) (p : Proxy),
      ProxyWrapper v ext = Normal p ->
      hasOwnProperty ext proxyKey = false ->
      hasProperty (boxed v) proxyKey = false ->
      header (RefProxy p) = Normal (Some (ObjectTag (boxed v)))) /\
  (forall (v : Value),
      hasProperty v proxyKey = false -> header (RefValue v) = Normal None).
Proof.
  split.
  - intros v ext p W E B.
    assert (T : target p = mkTarget (boxed v) ext).
    { destruct v; cbn in W; try discriminate W; inversion W; reflexivity. }
    unfold header, ProxyObject.HasProperty, ProxyObject.Get,
      handlerMethods.has, handlerMethods.get.
    rewrite T. cbn [body extension]. rewrite E, B, !andb_false_r. reflexivity.
  - intros v B. unfold header. now rewrite B, orb_true_r.
Qed.

Lemma formatter_header_witness :
  exists p,
    LoadableProxy john noPatch = Normal p /\
    header (RefProxy p) = Normal (Some (ObjectTag john)) /\
    header (RefValue john) = Normal None.
Proof.
  eexists. split; [reflexivity|].
  destruct formatter_header_shows_body as [A B]. split.
  - apply (A john (loadableExtension john (mergeStatus defaultStatus noPatch)) _
             eq_refl eq_refl eq_refl).
  - apply B. reflexivity.
Defined.

(** A wrapper over [null] or over a number has no fields of its own: it
    lists no keys, a copy of it is empty, and over [null] every read outside
    the extension and the two introspection symbols is [undefined]. *)
Theorem empty_bodied_wrappers :
  forall (ext : Properties),
    (exists p, ProxyWrapper VNull ext = Normal p /\
               Reflect_ownKeys_proxy p = Normal [] /\
               spread p = Normal [] /\
               Object_keys p = Normal [] /\
               forall k, hasOwnProperty ext k = false ->
                         key_eqb k nodeInspectCustom = false ->
                         key_eqb k proxyKey = false ->
                         ProxyObject.HasProperty p k = Normal false /\
                         ProxyObject.Get p k = Normal VUndefined) /\
    (forall n, exists p, ProxyWrapper (VNumber n) ext = Normal p /\
                         Reflect_ownKeys_proxy p = Normal [] /\
                         spread p = Normal [] /\
                         Object_keys p = Normal []).
Proof.
  intros ext. split.
  - eexists. split; [reflexivity|]. repeat (split; [reflexivity|]).
    intros k E N X.
    unfold ProxyObject.HasProperty, ProxyObject.Get, handlerMethods.has,
      handlerMethods.get.
    cbn [target body extension targetExtensible isObject andb bind].
    rewrite E, N, X.
    destruct (key_eqb k (KString "toJSON")); cbn; rewrite ?andb_false_r;
      split; reflexivity.
  - intros n. eexists. repeat (split; [reflexivity|]). reflexivity.
Qed.

(* ================================================================== *)
(* ================================================================== *)
(** * Further properties of the LoadablePromise *)
(* ================================================================== *)


(** Calling the resolve function inside the executor does not fulfil the
    promise, even with a ready item: the assignment to [this.fulfilled]
    comes before [super()] has returned, so the promise is rejected with a
    ReferenceError; likewise for the reject function with a failed item. *)
Theorem synchronous_settlement_is_a_ReferenceError :
  forall (L : Type) (H : Loadable L) (rest : Executor L) (loadingItem0 t : L)
         (status terminal : Status),
    getStatus loadingItem0 = Normal status -> loading status = true ->
    getStatus t = Normal terminal ->
    (ready terminal = true ->
     exists w e, newLoadablePromise (CallResolve t :: rest) loadingItem0 = Normal w /\
                 promiseState (promise w) = Rejected (Raised e) /\
                 errorName e = ReferenceError) /\
    (error terminal <> None ->
     exists w e, newLoadablePromise (CallReject t :: rest) loadingItem0 = Normal w /\
                 promiseState (promise w) = Rejected (Raised e) /\
                 errorName e = ReferenceError).
Proof.
  intros L H rest loadingItem0 t status terminal S Ld T. split.
  - intros R. unfold newLoadablePromise. rewrite S, Ld. cbn [negb runExecutor runAction].
    unfold resolveWrapper. rewrite T, R. cbn.
    do 2 eexists. split; [reflexivity|]. split; reflexivity.
  - intros R. unfold newLoadablePromise. rewrite S, Ld. cbn [negb runExecutor runAction].
    unfold rejectWrapper. rewrite T. destruct (error terminal); [|contradiction].
    cbn. do 2 eexists. split; [reflexivity|]. split; reflexivity.
Qed.

Lemma synchronous_settlement_witness :
  exists w e,
    newLoadablePromise [CallResolve (LoadableRecord alice readyPatch_)]
                       (LoadableRecord john loadingPatch_) = Normal w /\
    promiseState (promise w) = Rejected (Raised e) /\
    errorName e = ReferenceError.
Proof.
  destruct (@synchronous_settlement_is_a_ReferenceError
              _ LoadableRecord_Loadable [] (LoadableRecord john loadingPatch_)
              (LoadableRecord alice readyPatch_) _ _ eq_refl eq_refl eq_refl) as [A _].
  exact (A eq_refl).
Defined.

(** A LoadablePromise settles once: whatever is done to a settled object,
    its outcome stays what it is, so that of two calls of the resolve and
    reject functions the first one decides; and the item it was made with is
    never replaced. *)
Theorem settled_is_final :
  forall (L : Type) (H : Loadable L) (w : World L) (ops : list (Operation L)),
    item (promise (run ops w)) = item (promise w) /\
    (promiseState (promise w) <> Pending ->
     promiseState (promise (run ops w)) = promiseState (promise w)).
Proof.
  intros L H w ops. revert w.
  induction ops as [|op ops IH]; intros w; [now split|].
  cbn [run fold_left]. destruct (IH (step w op)) as [I S].
  destruct (step_settled w op) as [I' S']. unfold run in *. split.
  - now rewrite I, I'.
  - intros P. rewrite S; [now apply S'|]. rewrite (S' P). exact P.
Qed.

(** What holds of every LoadablePromise that came out of its construction
    pending, whatever was done to it since: its item is the one it was made
    with, which is loading, and as long as the flag of the object is unset
    the promise is pending.  So the call that [subscribe] makes at once,
    when the flag is unset, is made on a pending promise and with a loading
    item: what the note in [subscribe] says. *)
Theorem reachable_invariants :
  forall (L : Type) (H : Loadable L) (executor : Executor L) (loadingItem0 : L)
         (w0 : World L) (ops : list (Operation L)),
    newLoadablePromise executor loadingItem0 = Normal w0 ->
    promiseState (promise w0) = Pending ->
    item (promise (run ops w0)) = loadingItem0 /\
    (exists status, getStatus loadingItem0 = Normal status /\ loading status = true) /\
    (fulfilled (promise (run ops w0)) = false ->
     promiseState (promise (run ops w0)) = Pending) /\
    (forall s, fulfilled (promise (run ops w0)) = false ->
       invocations (fst (subscribe (run ops w0) s))
       = invocations (run ops w0) ++ [mkInvocation s (Some loadingItem0)]).
Proof.
  intros L H executor loadingItem0 w0 ops E P.
  destruct (newLoadablePromise_pending _ _ E P) as [W0 S].
  destruct (run_settled ops w0) as [I _].
  assert (I0 : item (promise (run ops w0)) = loadingItem0) by (rewrite I, W0; reflexivity).
  assert (U : fulfilled (promise (run ops w0)) = false ->
              promiseState (promise (run ops w0)) = Pending).
  { intros F. apply (@untouched_run _ _ ops w0); [|exact F].
    intros _. rewrite W0. now repeat split. }
  split; [exact I0|]. split; [exact S|]. split; [exact U|].
  intros s F.
  unfold subscribe, callSubscriber. rewrite F, I0. cbn [negb].
  destruct (subscriberThrows s); cbn [fst]; [reflexivity|].
  match goal with
  | |- context [then_ ?w ?r] => destruct (then_frame w r) as [_ [_ [_ [X _]]]]
  end.
  now rewrite X.
Qed.

Lemma reachable_invariants_witness :
  let loadingProxy := proxyOf john loadingPatch_ in
  let readyThenable := proxyOf thenable readyPatch_ in
  let w0 := mkWorld (mkLoadablePromise Pending [] false loadingProxy) [] [] false false in
  let w := run [Subscribe (mkSubscriber 1 false); Resolve loadingProxy; RunJob] w0 in
  let w' := run [Resolve readyThenable; RunJob] w0 in
  newLoadablePromise [] loadingProxy = Normal w0 /\
  fulfilled (promise w) = false /\
  promiseState (promise w) = Pending /\
  invocations (fst (subscribe w (mkSubscriber 2 true)))
    = invocations w ++ [mkInvocation (mkSubscriber 2 true) (Some loadingProxy)] /\
  fulfilled (promise w') = true /\
  promiseState (promise w') = Pending.
Proof.
  intros loadingProxy readyThenable w0 w w'.
  assert (E : newLoadablePromise [] loadingProxy = Normal w0) by reflexivity.
  split; [exact E|].
  assert (F : fulfilled (promise w) = false) by reflexivity.
  split; [exact F|].
  destruct (@reachable_invariants _ LoadableProxy_Loadable [] loadingProxy w0
              [Subscribe (mkSubscriber 1 false); Resolve loadingProxy; RunJob]
              E eq_refl) as [_ [_ [P K]]].
  split; [exact (P F)|]. split; [exact (K (mkSubscriber 2 true) F)|]. split; reflexivity.
Defined.

(** ** Subscribers *)

Lemma drain_invocations {L} `{Loadable L} n (w : World L) :
  n = List.length (microtasks w) ->
  invocations (run (repeat RunJob n) w) = invocations w ++ jobCalls (microtasks w).
Proof.
  revert w. induction n as [|n IH]; intros w E.
  - cbn [repeat run fold_left]. destruct (microtasks w); [|discriminate E].
    cbn. now rewrite app_nil_r.
  - destruct (microtasks w) as [|j rest] eqn:Q; [discriminate E|].
    destruct (runJob_cons w Q) as [_ [RM RI]].
    cbn [repeat run fold_left step].
    assert (E' : n = List.length (microtasks (runJob w))).
    { rewrite RM. cbn in E. congruence. }
    pose proof (IH (runJob w) E') as K. unfold run in K. rewrite K, RM, RI.
    change (jobCalls (j :: rest))
      with (match jobReaction j with
            | Some (Notify s0) => [mkInvocation s0 (jobArgument j)]
            | _ => []
            end ++ jobCalls rest).
    now rewrite <- app_assoc.
Qed.

Lemma drain_spec {L} `{Loadable L} (w : World L) :
  promise (drain w) = promise w /\
  microtasks (drain w) = [] /\
  invocations (drain w) = invocations w ++ jobCalls (microtasks w).
Proof.
  unfold drain. destruct (run_queued_jobs w eq_refl) as [A B].
  split; [exact B|]. split; [exact A|]. now apply drain_invocations.
Qed.

Lemma jobCalls_quiet {L} s (jobs : list (Job L)) :
  existsb (notifiesJob s) jobs = false ->
  filter (fun i => subscriber_eqb (callee i) s) (jobCalls jobs) = [].
Proof.
  induction jobs as [|j jobs IH]; [reflexivity|].
  cbn [existsb]. intros E. apply orb_false_iff in E. destruct E as [E1 E2].
  change (jobCalls (j :: jobs))
    with (match jobReaction j with
          | Some (Notify s0) => [mkInvocation s0 (jobArgument j)]
          | _ => []
          end ++ jobCalls jobs).
  rewrite filter_app, (IH E2), app_nil_r.
  unfold notifiesJob in E1. destruct (jobReaction j) as [[s'|c]|]; try reflexivity.
  cbn in *. now rewrite E1.
Qed.

(** Operations that do not subscribe a subscriber the world does not know
    leave it unknown and uncalled. *)
Lemma quiet_frame {L} s (w w' : World L) js :
  reactions (promise w') = reactions (promise w) \/ reactions (promise w') = [] ->
  microtasks w' = microtasks w ++ js ->
  existsb (notifiesJob s) js = false ->
  invocations w' = invocations w ->
  unknownTo s w = true ->
  unknownTo s w' = true /\ callsTo s w' = callsTo s w.
Proof.
  intros R M J I U. unfold unknownTo in *. apply andb_true_iff in U.
  destruct U as [U1 U2]. apply negb_true_iff in U1, U2.
  split; [|unfold callsTo; now rewrite I].
  rewrite M, existsb_app, U2, J. destruct R as [R|R]; rewrite R, ?U1; reflexivity.
Qed.

Lemma quiet_fulfillPromise {L} s (w : World L) v :
  unknownTo s w = true ->
  unknownTo s (fulfillPromise w v) = true /\ callsTo s (fulfillPromise w v) = callsTo s w.
Proof.
  intros U. unfold fulfillPromise. destruct (promiseState (promise w)); [|auto..].
  apply quiet_frame with (js := fulfillJobs (reactions (promise w)) v); auto.
  rewrite notifiesJob_fulfillJobs. unfold unknownTo in U. apply andb_true_iff in U.
  destruct U as [U _]. now apply negb_true_iff in U.
Qed.

Lemma quiet_rejectPromise {L} s (w : World L) reason :
  unknownTo s w = true ->
  unknownTo s (rejectPromise w reason) = true /\
  callsTo s (rejectPromise w reason) = callsTo s w.
Proof.
  intros U. unfold rejectPromise. destruct (promiseState (promise w)); [|auto..].
  apply quiet_frame with (js := rejectJobs (reactions (promise w)) reason); auto.
  rewrite notifiesJob_rejectJobs. unfold unknownTo in U. apply andb_true_iff in U.
  destruct U as [U _]. now apply negb_true_iff in U.
Qed.

Lemma quiet_resolvePromise {L} `{Loadable L} s (w : World L) v :
  unknownTo s w = true ->
  unknownTo s (resolvePromise w v) = true /\ callsTo s (resolvePromise w v) = callsTo s w.
Proof.
  intros U. unfold resolvePromise. destruct (getThen v) as [f|e].
  - destruct (isFunction f); [|now apply quiet_fulfillPromise].
    apply quiet_frame with (js := [ThenableJob v]); auto.
  - now apply quiet_rejectPromise.
Qed.

Lemma quiet_then {L} s (w : World L) r :
  notifies s r = false -> unknownTo s w = true ->
  unknownTo s (fst (then_ w r)) = true /\ callsTo s (fst (then_ w r)) = callsTo s w.
Proof.
  intros N U. split.
  - unfold unknownTo in *. apply andb_true_iff in U.
    destruct U as [U1 U2]. apply negb_true_iff in U1, U2.
    unfold then_. destruct (promiseState (promise w));
      cbn [fst promise reactions microtasks];
      rewrite ?existsb_app, ?U1, ?U2; cbn; unfold notifiesJob; cbn; now rewrite ?N.
  - destruct (then_frame w r) as [_ [_ [_ [I _]]]]. unfold callsTo. now rewrite I.
Qed.

Lemma quiet_step {L} `{Loadable L} s (w : World L) op :
  subscribes s op = false -> unknownTo s w = true ->
  unknownTo s (step w op) = true /\ callsTo s (step w op) = callsTo s w.
Proof.
  intros N U.
  assert (Same : forall w' : World L,
             reactions (promise w') = reactions (promise w) ->
             microtasks w' = microtasks w -> invocations w' = invocations w ->
             unknownTo s w' = true /\ callsTo s w' = callsTo s w).
  { intros w' R M I. apply quiet_frame with (js := []); auto. now rewrite app_nil_r. }
  destruct op as [t|t|s'|c| |v|reason]; cbn [step].
  - rewrite resolveWrapper_initialised. destruct (getStatus t) as [st|e]; [|auto].
    destruct (ready st); [|auto].
    destruct (Same (setFulfilled w)) as [A B]; try reflexivity.
    unfold resolve. destruct (alreadyResolved (setFulfilled w)); [auto|].
    destruct (Same (setAlreadyResolved (setFulfilled w))) as [A' B']; try reflexivity.
    destruct (@quiet_resolvePromise _ _ s (setAlreadyResolved (setFulfilled w)) t A')
      as [X Y].
    split; [exact X|]. now rewrite Y.
  - rewrite rejectWrapper_initialised. destruct (getStatus t) as [st|e]; [|auto].
    destruct (error st) as [e|]; [|auto].
    destruct (Same (setFulfilled w)) as [A B]; try reflexivity.
    unfold reject. destruct (alreadyResolved (setFulfilled w)); [auto|].
    destruct (Same (setAlreadyResolved (setFulfilled w))) as [A' B']; try reflexivity.
    destruct (@quiet_rejectPromise _ s (setAlreadyResolved (setFulfilled w))
                                   (newLoadError (Some e) t) A') as [X Y].
    split; [exact X|]. now rewrite Y.
  - cbn in N. unfold subscribe, callSubscriber.
    destruct (negb (fulfilled (promise w))); [|cbn [fst]; now apply quiet_then].
    set (w0 := mkWorld (promise w) (microtasks w)
                       (invocations w ++ [mkInvocation s' (Some (item (promise w)))])
                       (alreadyResolved w) (handedOver w)).
    assert (C : callsTo s w0 = callsTo s w).
    { unfold w0. erewrite callsTo_snoc by reflexivity. rewrite N. apply app_nil_r. }
    assert (U0 : unknownTo s w0 = true) by exact U.
    destruct (subscriberThrows s'); cbn [fst]; [split; [exact U0|exact C]|].
    destruct (@quiet_then _ s w0 (Notify s') N U0) as [X Y]. split; [exact X|].
    now rewrite Y.
  - now apply quiet_then.
  - destruct (microtasks w) as [|j rest] eqn:M.
    { unfold runJob. rewrite M. auto. }
    destruct (runJob_cons w M) as [RP [RM _]].
    pose proof U as U0. unfold unknownTo in U. apply andb_true_iff in U.
    destruct U as [U1 U2]. apply negb_true_iff in U1, U2.
    rewrite M in U2. cbn in U2. apply orb_false_iff in U2. destruct U2 as [Uj Ur].
    split.
    + unfold unknownTo. now rewrite RP, RM, U1, Ur.
    + rewrite (callsTo_runJob s w M), Uj. apply app_nil_r.
  - unfold thenableResolves. destruct (handedOver w); [|auto].
    destruct (Same (setHandedOver false w)) as [A B]; try reflexivity.
    destruct (@quiet_resolvePromise _ _ s (setHandedOver false w) v A) as [X Y].
    split; [exact X|]. now rewrite Y.
  - unfold thenableRejects. destruct (handedOver w); [|auto].
    destruct (Same (setHandedOver false w)) as [A B]; try reflexivity.
    destruct (@quiet_rejectPromise _ s (setHandedOver false w) reason A) as [X Y].
    split; [exact X|]. now rewrite Y.
Qed.

Lemma quiet_run {L} `{Loadable L} s ops (w : World L) :
  existsb (subscribes s) ops = false -> unknownTo s w = true ->
  unknownTo s (run ops w) = true /\ callsTo s (run ops w) = callsTo s w.
Proof.
  revert w. induction ops as [|op ops IH]; intros w N U; [auto|].
  cbn in N. apply orb_false_iff in N. destruct N as [N1 N2].
  destruct (@quiet_step _ _ s w op N1 U) as [U' C'].
  cbn [run fold_left]. destruct (IH (step w op) N2 U') as [A B].
  unfold run in *. split; [exact A|]. now rewrite B.
Qed.

(** A subscriber that throws when it is told of the loading state makes
    [subscribe] throw before the continuations are registered: it has been
    called once, and it is never told of the outcome. *)
Theorem throwing_subscriber_is_never_notified :
  forall (L : Type) (H : Loadable L) (w : World L) (s : Subscriber),
    fulfilled (promise w) = false ->
    subscriberThrows s = true ->
    unknownTo s w = true ->
    exists w1 e,
      subscribe w s = (w1, Throw e) /\
      promise w1 = promise w /\
      invocations w1 = invocations w ++ [mkInvocation s (Some (item (promise w)))] /\
      forall ops, existsb (subscribes s) ops = false ->
        callsTo s (run ops w1) = callsTo s w ++ [Some (item (promise w))].
Proof.
  intros L H w s F T U. unfold subscribe, callSubscriber. rewrite F, T. cbn [negb].
  do 2 eexists. split; [reflexivity|]. split; [reflexivity|]. split; [reflexivity|].
  intros ops N.
  set (w1 := mkWorld (promise w) (microtasks w)
                     (invocations w ++ [mkInvocation s (Some (item (promise w)))])
                     (alreadyResolved w) (handedOver w)).
  assert (U1 : unknownTo s w1 = true) by exact U.
  destruct (@quiet_run _ _ s ops w1 N U1) as [_ C]. rewrite C.
  unfold w1. erewrite callsTo_snoc by reflexivity. now rewrite subscriber_eqb_refl.
Qed.

Lemma throwing_subscriber_witness :
  let w := mkWorld (mkLoadablePromise Pending [] false
                      (LoadableRecord john loadingPatch_)) [] [] false false in
  let s := mkSubscriber 7 true in
  exists w1 e,
    subscribe w s = (w1, Throw e) /\
    callsTo s (run [Resolve (LoadableRecord alice readyPatch_); RunJob] w1)
      = [Some (LoadableRecord john loadingPatch_)].
Proof.
  intros w s.
  destruct (@throwing_subscriber_is_never_notified _ LoadableRecord_Loadable w s
              eq_refl eq_refl eq_refl) as [w1 [e [S [_ [_ K]]]]].
  exists w1, e. split; [exact S|].
  exact (K [Resolve (LoadableRecord alice readyPatch_); RunJob] eq_refl).
Defined.

Lemma callsTo_drain {L} `{Loadable L} s (w : World L) :
  callsTo s (drain w)
  = callsTo s w
    ++ map (@argument L)
           (filter (fun i => subscriber_eqb (callee i) s) (jobCalls (microtasks w))).
Proof.
  destruct (drain_spec w) as [_ [_ I]]. unfold callsTo.
  now rewrite I, filter_app, map_app.
Qed.

(** Subscribing to a LoadablePromise that has settled through its resolve
    or reject function makes no call at once; the subscriber is called once,
    with the terminal item, when the queued jobs have run, and not again. *)
Theorem late_subscriber_gets_terminal_item_only :
  forall (L : Type) (H : Loadable L) (w : World L) (s : Subscriber) (t : L),
    fulfilled (promise w) = true ->
    terminalItem (promiseState (promise w)) = Some t ->
    unknownTo s w = true ->
    exists w1,
      subscribe w s = (w1, Normal (promise w1)) /\
      invocations w1 = invocations w /\
      forall ops, existsb (subscribes s) ops = false ->
        callsTo s (run ops (drain w1)) = callsTo s w ++ [Some t].
Proof.
  intros L H w s t F T U.
  pose proof U as U0. unfold unknownTo in U. apply andb_true_iff in U.
  destruct U as [U1 U2]. apply negb_true_iff in U1, U2.
  unfold subscribe. rewrite F. cbn [negb].
  set (w1 := fst (then_ w (Notify s))).
  exists w1. split; [reflexivity|].
  destruct (then_frame w (Notify s)) as [_ [_ [_ [I _]]]]. fold w1 in I.
  split; [exact I|]. intros ops N.
  assert (M : exists job, microtasks w1 = microtasks w ++ [job] /\
                          jobReaction job = Some (Notify s) /\ jobArgument job = Some t /\
                          promise w1 = promise w).
  { unfold w1, then_.
    destruct (promiseState (promise w)) as [|v|reason] eqn:S; cbn in T;
      [discriminate T| |]; cbn; eexists; repeat split; exact T. }
  destruct M as [job [M [JR [JA PW]]]].
  destruct (drain_spec w1) as [DP [DM DI]].
  assert (C : callsTo s (drain w1) = callsTo s w ++ [Some t]).
  { rewrite callsTo_drain, M. unfold jobCalls. rewrite flat_map_app, filter_app.
    fold (jobCalls (microtasks w)). rewrite (jobCalls_quiet s _ U2).
    cbn. rewrite JR, JA. cbn. rewrite subscriber_eqb_refl. cbn.
    unfold callsTo. now rewrite I. }
  assert (Q : unknownTo s (drain w1) = true).
  { unfold unknownTo. rewrite DP, DM, PW, U1. reflexivity. }
  destruct (@quiet_run _ _ s ops (drain w1) N Q) as [_ K]. now rewrite K.
Qed.

Lemma late_subscriber_witness :
  let w := run [Resolve (LoadableRecord alice readyPatch_)]
               (mkWorld (mkLoadablePromise Pending [] false
                           (LoadableRecord john loadingPatch_)) [] [] false false) in
  let s := mkSubscriber 3 false in
  exists w1,
    subscribe w s = (w1, Normal (promise w1)) /\
    callsTo s (run [RunJob; Resolve (LoadableRecord john loadingPatch_)] (drain w1))
      = [Some (LoadableRecord alice readyPatch_)].
Proof.
  intros w s.
  destruct (@late_subscriber_gets_terminal_item_only _ LoadableRecord_Loadable w s
              (LoadableRecord alice readyPatch_) eq_refl eq_refl eq_refl)
    as [w1 [S [_ K]]].
  exists w1. split; [exact S|].
  exact (K [RunJob; Resolve (LoadableRecord john loadingPatch_)] eq_refl).
Defined.

Lemma subscribe_all {L} `{Loadable L} (ss : list Subscriber) (w : World L) :
  promiseState (promise w) = Pending ->
  fulfilled (promise w) = false ->
  forallb (fun s => negb (subscriberThrows s)) ss = true ->
  let w' := run (map Subscribe ss) w in
  promise w' = mkLoadablePromise Pending (reactions (promise w) ++ map Notify ss)
                                 false (item (promise w)) /\
  microtasks w' = microtasks w /\
  invocations w'
  = invocations w ++ map (fun s => mkInvocation s (Some (item (promise w)))) ss /\
  alreadyResolved w' = alreadyResolved w.
Proof.
  revert w. induction ss as [|s ss IH]; intros w P F T.
  - cbn. rewrite !app_nil_r. destruct w as [[st rs f i] m inv a h]. cbn in *. now subst.
  - cbn in T. apply andb_true_iff in T. destruct T as [T1 T2].
    apply negb_true_iff in T1.
    cbn [map run fold_left step].
    set (w1 := fst (subscribe w s)).
    assert (W1 : w1 = mkWorld (mkLoadablePromise Pending (reactions (promise w) ++ [Notify s])
                                  false (item (promise w)))
                              (microtasks w)
                              (invocations w ++ [mkInvocation s (Some (item (promise w)))])
                              (alreadyResolved w) (handedOver w)).
    { unfold w1, subscribe, callSubscriber, then_. rewrite F, T1. cbn. rewrite P, F.
      reflexivity. }
    destruct (IH w1) as [A [B [C D]]]; try (rewrite W1; reflexivity); try exact T2.
    unfold run in *. rewrite A, B, C, D, W1. cbn. now rewrite <- !app_assoc.
Qed.

(** Subscribers are served in the order in which they subscribed: on an
    object that has come out of its construction pending, each is called at
    once with the loading item, and after the resolve function is given a
    ready item that fulfils at once and the queued jobs have run, each has
    been called with that item, in the same order; and nobody else was
    called. *)
Theorem subscribers_are_notified_in_order :
  forall (L : Type) (H : Loadable L) (executor : Executor L) (loadingItem0 : L)
         (w : World L) (ss : list Subscriber) (t : L) (status : Status),
    newLoadablePromise executor loadingItem0 = Normal w ->
    promiseState (promise w) = Pending ->
    forallb (fun s => negb (subscriberThrows s)) ss = true ->
    getStatus t = Normal status -> ready status = true ->
    fulfilsAtOnce t = true ->
    invocations (drain (run (map Subscribe ss ++ [Resolve t]) w))
    = map (fun s => mkInvocation s (Some loadingItem0)) ss
      ++ map (fun s => mkInvocation s (Some t)) ss.
Proof.
  intros L H executor loadingItem0 w ss t status E P T S Rd At.
  destruct (newLoadablePromise_pending _ _ E P) as [W0 _].
  assert (F : fulfilled (promise w) = false) by now rewrite W0.
  destruct (subscribe_all ss w P F T) as [A [B [C D]]].
  rewrite run_app. unfold run in *. cbn [fold_left step].
  set (w' := fold_left step (map Subscribe ss) w) in *.
  rewrite resolveWrapper_initialised, S, Rd.
  destruct (drain_spec (resolve (setFulfilled w') t)) as [_ [_ I]]. rewrite I.
  unfold resolve. cbn [setFulfilled alreadyResolved]. rewrite D.
  unfold resolvePromise, fulfilsAtOnce in *. destruct (getThen t) as [f|e]; [|discriminate At].
  apply negb_true_iff in At. rewrite At.
  unfold fulfillPromise. cbn. rewrite A. cbn. rewrite B, C, W0. cbn.
  f_equal.
  clear. induction ss as [|s ss IH]; [reflexivity|]. cbn. now rewrite IH.
Qed.

Lemma subscribers_in_order_witness :
  let w := mkWorld (mkLoadablePromise Pending [] false
                      (LoadableRecord john loadingPatch_)) [] [] false false in
  let a := mkSubscriber 1 false in
  let b := mkSubscriber 2 false in
  invocations (drain (run [Subscribe a; Subscribe b;
                           Resolve (LoadableRecord alice readyPatch_)] w))
  = [mkInvocation a (Some (LoadableRecord john loadingPatch_));
     mkInvocation b (Some (LoadableRecord john loadingPatch_));
     mkInvocation a (Some (LoadableRecord alice readyPatch_));
     mkInvocation b (Some (LoadableRecord alice readyPatch_))].
Proof.
  intros w a b.
  assert (E : newLoadablePromise [] (LoadableRecord john loadingPatch_) = Normal w)
    by reflexivity.
  exact (@subscribers_are_notified_in_order _ LoadableRecord_Loadable [] _ w [a; b]
           (LoadableRecord alice readyPatch_) _ E eq_refl eq_refl eq_refl eq_refl eq_refl).
Defined.
